(** * Land-cover clustering notebook: the raster acquisition and compositing
      pipeline of [clustering_Zimmerman.py]

    The development embeds the six components of the pipeline:
    the pickle-backed result cache ([cached]), the granule link resolver
    ([get_earthaccess_links] and its file-name pattern [url_re]), the band
    raster loader ([open_dataarray]), the quality-mask builder
    ([compute_quality_mask]), the granule compositor
    ([compute_reflectance_da]) and the mosaic/temporal reducer
    ([merge_and_composite_arrays]).

    Conventions.
    - A Python exception is the result [None] of an [option]-valued function.
    - A floating-point pixel is an [option Q]: [None] is NaN (missing), and
      [Some q] a finite reflectance, with exact rational arithmetic.
    - The classes [\w] and [\d] of the pattern are modelled on ASCII
      characters; the statements that depend on them are about file names
      made of ASCII characters.
    - External collaborators (pickle, the rasterio mosaic, the coordinate
      reprojection) are Section variables. *)

From Stdlib Require Import ZArith QArith Lqa String Ascii List Bool Lia Permutation Sorted.
From stdpp Require Import gmap strings list.
Import ListNotations.

Close Scope Q_scope.
Local Open Scope string_scope.
Local Open Scope list_scope.

(* ===================================================================== *)
(** ** 1. Result cache: the [cached] decorator *)
(* ===================================================================== *)

Module Cache.

(** [os.path.join] on two components: an absolute second component
    discards the first. *)
Definition ends_with_slash (a : string) : bool :=
  match rev (list_ascii_of_string a) with
  | c :: _ => Ascii.eqb c "/"%char
  | [] => false
  end.

Definition os_path_join (a b : string) : string :=
  if String.prefix "/" b then b
  else if String.eqb a "" then b
  else if ends_with_slash a then a ++ b
  else a ++ "/" ++ b.

Section Cached.
(** Positional arguments, results and pickled blobs. *)
Context {Args R Blob : Type}.

(** [pickle.dump] and [pickle.load]; unpickling may raise. *)
Variable dumps : R -> Blob.
Variable loads : Blob -> option R.

(** [os.path.join(et.io.HOME, et.io.DATA_NAME, 'jars')] *)
Variable jars : string.

(** The world a wrapped call runs in: the files on disk, and the log of
    the executions of the wrapped [compute_function] (its positional
    arguments and the [cache_key] keyword, when given). *)
Record world := World {
  fs : gmap string Blob;
  calls : list (Args * option string)
}.

(** [key = '_'.join((func_key, kwargs['cache_key']))] when the keyword is
    present, [key = func_key] otherwise. *)
Definition effective_key (func_key : string) (cache_key : option string) : string :=
  match cache_key with
  | Some ck => func_key ++ "_" ++ ck
  | None => func_key
  end.

Definition pickle_path (key : string) : string :=
  os_path_join jars (key ++ ".pickle").

(** [os.path.exists(path)] *)
Definition path_exists (path : string) (w : world) : bool :=
  bool_decide (is_Some (fs w !! path)).

(** The innermost function [compute_and_cache], called with [args] and
    [kwargs]. The
    keyword arguments are handed on to [compute_function] unchanged, so
    it sees [cache_key] as well. *)
Definition compute_and_cache
    (func_key : string) (override : bool)
    (compute_function : Args -> option string -> option R)
    (args : Args) (cache_key : option string) (w : world)
  : option (R * world) :=
  let key := effective_key func_key cache_key in
  let path := pickle_path key in
  if negb (path_exists path w) || override then
    match compute_function args cache_key with
    | Some result =>
        Some (result,
              {| fs := <[path := dumps result]> (fs w);
                 calls := calls w ++ [(args, cache_key)] |})
    | None => None
    end
  else
    match fs w !! path with
    | Some blob =>
        match loads blob with
        | Some result => Some (result, w)
        | None => None
        end
    | None => None
    end.

(** [def cached(func_key, override=True)]: an omitted [override] takes the
    default. *)
Definition cached (func_key : string) (override : option bool) :=
  compute_and_cache func_key (default true override).

(** A call executed the wrapped computation when it extended the log. *)
Definition executed (w w' : world) (args : Args) (ck : option string) : Prop :=
  calls w' = calls w ++ [(args, ck)].

Definition stored (w' : world) (key : string) (result : R) : Prop :=
  fs w' !! pickle_path key = Some (dumps result).

Lemma path_exists_true path w :
  path_exists path w = true <-> is_Some (fs w !! path).
Proof. unfold path_exists. apply bool_decide_eq_true. Qed.

Lemma path_exists_false path w :
  path_exists path w = false <-> fs w !! path = None.
Proof.
  unfold path_exists. rewrite bool_decide_eq_false.
  rewrite <- eq_None_not_Some. reflexivity.
Qed.

(** The branch that runs the computation. *)
Lemma compute_and_cache_run func_key override f args ck w :
  override = true \/ fs w !! pickle_path (effective_key func_key ck) = None ->
  compute_and_cache func_key override f args ck w =
    match f args ck with
    | Some r =>
        Some (r, {| fs := <[pickle_path (effective_key func_key ck) := dumps r]> (fs w);
                    calls := calls w ++ [(args, ck)] |})
    | None => None
    end.
Proof.
  intros H. unfold compute_and_cache.
  destruct H as [-> | H].
  - rewrite orb_true_r. reflexivity.
  - apply path_exists_false in H. rewrite H. reflexivity.
Qed.

(** The branch that unpickles. *)
Lemma compute_and_cache_load func_key f args ck w blob :
  fs w !! pickle_path (effective_key func_key ck) = Some blob ->
  compute_and_cache func_key false f args ck w =
    match loads blob with
    | Some r => Some (r, w)
    | None => None
    end.
Proof.
  intros H. unfold compute_and_cache.
  assert (Hex : path_exists (pickle_path (effective_key func_key ck)) w = true).
  { apply path_exists_true. rewrite H. eauto. }
  rewrite Hex, H. reflexivity.
Qed.

Lemma app_one_ne_self {A} (l : list A) (x : A) : l ++ [x] <> l.
Proof.
  intros H. apply (f_equal (@length A)) in H.
  rewrite length_app in H. simpl in H. lia.
Qed.

(** A second wrapped call, by whichever function and arguments, under the
    same key and with [override=False], unpickles what a run stored. *)
Lemma retrieve_after_store func_key ck fs0 log (r : R)
    (f' : Args -> option string -> option R) args' :
  (forall x, loads (dumps x) = Some x) ->
  let w1 := {| fs := <[pickle_path (effective_key func_key ck) := dumps r]> fs0;
               calls := log |} in
  compute_and_cache func_key false f' args' ck w1 = Some (r, w1).
Proof.
  intros Hrt w1.
  rewrite (compute_and_cache_load _ _ _ _ w1 (dumps r)).
  - rewrite Hrt. reflexivity.
  - unfold w1. simpl. apply lookup_insert_eq.
Qed.

(** Every successful call either ran the computation (and stored its
    result under the key) or left the world as it was. *)
Lemma compute_and_cache_cases func_key override f args ck w r w' :
  compute_and_cache func_key override f args ck w = Some (r, w') ->
  (f args ck = Some r /\
   w' = {| fs := <[pickle_path (effective_key func_key ck) := dumps r]> (fs w);
           calls := calls w ++ [(args, ck)] |} /\
   (override = true \/ fs w !! pickle_path (effective_key func_key ck) = None))
  \/
  (w' = w /\ override = false /\
   exists blob, fs w !! pickle_path (effective_key func_key ck) = Some blob /\
                loads blob = Some r).
Proof.
  unfold compute_and_cache. intros H.
  destruct (path_exists _ w) eqn:Hex; destruct override; simpl in H.
  - left. destruct (f args ck); inversion H; subst. auto.
  - right. destruct (fs w !! _) as [blob|] eqn:Hb; [|discriminate].
    destruct (loads blob) eqn:Hl; inversion H; subst. eauto.
  - left. destruct (f args ck); inversion H; subst. auto.
  - left. apply path_exists_false in Hex.
    destruct (f args ck); inversion H; subst. auto.
Qed.

Section Contract.

(** Pickling round-trips within one implementation. *)
Hypothesis loads_dumps : forall r, loads (dumps r) = Some r.

(** C4. The wrapper built by [cached name override] uses the key [name]
    without a discriminator and [name ++ "_" ++ d] with discriminator [d];
    a successful call has run the wrapped computation and stored its
    pickled result exactly when [override] is true or no blob exists for the
    key, and such a call does succeed whenever the computation does;
    otherwise it returns the unpickled stored blob and runs nothing. A
    result [r] cached under a key is returned, with the world unchanged and
    nothing run, by any later retrieval with [override=False] under that
    key, and a retrieval with [override=True] runs the producing
    computation again. *)
Theorem cached_contract
    (name : string) (override : bool)
    (f : Args -> option string -> option R)
    (args : Args) (ck : option string) (w : world) :
  let key := effective_key name ck in
  effective_key name None = name /\
  (forall d, effective_key name (Some d) = (name ++ "_" ++ d)%string) /\
  (* the computation runs exactly when override holds or no blob exists *)
  (forall r w',
     cached name (Some override) f args ck w = Some (r, w') ->
     (executed w w' args ck /\ stored w' key r /\ f args ck = Some r
        <-> override = true \/ fs w !! pickle_path key = None) /\
     (w' = w /\ fs w !! pickle_path key ≫= loads = Some r
        <-> override = false /\ is_Some (fs w !! pickle_path key))) /\
  (forall r,
     f args ck = Some r ->
     override = true \/ fs w !! pickle_path key = None ->
     exists w', cached name (Some override) f args ck w = Some (r, w') /\
                executed w w' args ck /\ stored w' key r) /\
  (* round trip *)
  (forall r w1,
     cached name (Some override) f args ck w = Some (r, w1) ->
     executed w w1 args ck ->
     forall (f' : Args -> option string -> option R) (args' : Args),
       cached name (Some false) f' args' ck w1 = Some (r, w1) /\
       forall r', f' args' ck = Some r' ->
         exists w2, cached name (Some true) f' args' ck w1 = Some (r', w2) /\
                    executed w1 w2 args' ck /\ stored w2 key r').
Proof.
  intros key. unfold cached. simpl.
  split; [reflexivity|]. split; [reflexivity|].
  split; [|split].
  - intros r w' H.
    destruct (compute_and_cache_cases _ _ _ _ _ _ _ _ H)
      as [(Hf & -> & Hc) | (-> & -> & blob & Hb & Hl)].
    + split.
      * split; [intros _; exact Hc|]. intros _.
        unfold executed, stored. simpl. rewrite lookup_insert_eq. auto.
      * split.
        -- intros [Hw _]. apply (f_equal calls) in Hw. simpl in Hw.
           exfalso. exact (app_one_ne_self _ _ Hw).
        -- intros [-> Hs]. destruct Hc as [Hc|Hc]; [discriminate|].
           fold key in Hc. rewrite Hc in Hs. destruct Hs; discriminate.
    + fold key in Hb. split.
      * split.
        -- intros (He & _). unfold executed in He. symmetry in He.
           exfalso. exact (app_one_ne_self _ _ He).
        -- intros [Hc|Hc]; [discriminate|]. congruence.
      * split; [intros _; split; [reflexivity|rewrite Hb; eauto]|].
        intros _. split; [reflexivity|]. rewrite Hb. simpl. exact Hl.
  - intros r Hf Hc. rewrite (compute_and_cache_run _ _ _ _ _ _ Hc), Hf.
    eexists. split; [reflexivity|].
    unfold executed, stored. simpl. rewrite lookup_insert_eq. auto.
  - intros r w1 H He f' args'.
    destruct (compute_and_cache_cases _ _ _ _ _ _ _ _ H)
      as [(Hf & -> & Hc) | (-> & _)].
    + split.
      * apply retrieve_after_store. exact loads_dumps.
      * intros r' Hf'. rewrite compute_and_cache_run by auto. rewrite Hf'.
        eexists. split; [reflexivity|].
        unfold executed, stored. simpl. rewrite lookup_insert_eq. auto.
    + unfold executed in He. symmetry in He.
      exfalso. exact (app_one_ne_self _ _ He).
Qed.

End Contract.

(** C5. With [override] omitted the decorator takes [override=True]: every
    call of the wrapper runs the computation again and overwrites the blob
    stored for the key, whether or not one exists; and whenever a call
    returns without having run the computation, the decorator was given
    [override=False] explicitly. *)
Theorem cached_default_override
    (name : string) (f : Args -> option string -> option R)
    (args : Args) (ck : option string) (w : world) :
  cached name None = cached name (Some true) /\
  cached name None f args ck w =
    match f args ck with
    | Some r =>
        Some (r, {| fs := <[pickle_path (effective_key name ck) := dumps r]> (fs w);
                    calls := calls w ++ [(args, ck)] |})
    | None => None
    end /\
  forall (override : option bool) r w',
    cached name override f args ck w = Some (r, w') ->
    calls w' = calls w ->
    override = Some false.
Proof.
  split; [reflexivity|]. split.
  - unfold cached. simpl. apply compute_and_cache_run. auto.
  - intros override r w' H Hcalls. unfold cached in H.
    destruct (compute_and_cache_cases _ _ _ _ _ _ _ _ H)
      as [(_ & -> & _) | (_ & Hov & _)].
    + simpl in Hcalls. exfalso. exact (app_one_ne_self _ _ Hcalls).
    + destruct override as [[|]|]; simpl in Hov; congruence.
Qed.

(** *** Further properties of the wrapper *)

(** A call touches no file but the pickle of its own key, and extends the
    log by at most its own execution. *)
Theorem cached_frame
    (name : string) (override : option bool)
    (f : Args -> option string -> option R)
    (args : Args) (ck : option string) (w w' : world) (r : R) (path : string) :
  cached name override f args ck w = Some (r, w') ->
  path <> pickle_path (effective_key name ck) ->
  fs w' !! path = fs w !! path /\
  (calls w' = calls w \/ calls w' = calls w ++ [(args, ck)]).
Proof.
  unfold cached. intros H Hne.
  destruct (compute_and_cache_cases _ _ _ _ _ _ _ _ H)
    as [(_ & -> & _) | (-> & _)]; simpl.
  - split; [|auto]. apply lookup_insert_ne. congruence.
  - auto.
Qed.

(** With [override=False] and a pickle on disk, the wrapped function and
    its positional arguments play no part: whatever function is wrapped and
    whatever it is called with, the call gives the same outcome, runs
    nothing and leaves the world as it is. *)
Theorem cached_stale
    (name : string) (f f' : Args -> option string -> option R)
    (args args' : Args) (ck : option string) (w : world) (blob : Blob) :
  fs w !! pickle_path (effective_key name ck) = Some blob ->
  cached name (Some false) f args ck w = cached name (Some false) f' args' ck w /\
  cached name (Some false) f args ck w =
    match loads blob with
    | Some r => Some (r, w)
    | None => None
    end.
Proof.
  intros H. unfold cached. simpl.
  rewrite !(compute_and_cache_load _ _ _ _ _ _ H). auto.
Qed.

(** A pickle that does not load makes the call with [override=False] raise,
    without falling back to the computation; the call with [override=True]
    runs the computation and replaces the pickle. *)
Theorem cached_corrupt_blob
    (name : string) (f : Args -> option string -> option R)
    (args : Args) (ck : option string) (w : world) (blob : Blob) :
  fs w !! pickle_path (effective_key name ck) = Some blob ->
  loads blob = None ->
  cached name (Some false) f args ck w = None /\
  forall r, f args ck = Some r ->
    exists w',
      cached name (Some true) f args ck w = Some (r, w') /\
      executed w w' args ck /\
      stored w' (effective_key name ck) r.
Proof.
  intros H Hl. unfold cached. simpl. split.
  - rewrite (compute_and_cache_load _ _ _ _ _ _ H), Hl. reflexivity.
  - intros r Hf. rewrite compute_and_cache_run by auto. rewrite Hf.
    eexists. split; [reflexivity|].
    unfold executed, stored. simpl. rewrite lookup_insert_eq. auto.
Qed.

Lemma string_app_assoc (a b c : string) :
  ((a ++ b) ++ c = a ++ (b ++ c))%string.
Proof.
  induction a as [|x a IH]; [reflexivity|].
  change (String x ((a ++ b) ++ c) = String x (a ++ (b ++ c)))%string.
  f_equal. exact IH.
Qed.

(** The name and the discriminator are joined by ["_"] with no escaping, so
    the name [n_a] with discriminator [b] and the name [n] with
    discriminator [a_b] share one pickle: what a call of the one stored, a
    call of the other with [override=False] returns, its own function
    never run. *)
Theorem cached_key_collision
    (n a b : string) (override : option bool)
    (f f' : Args -> option string -> option R)
    (args args' : Args) (w w1 : world) (r : R) :
  (forall x, loads (dumps x) = Some x) ->
  cached n override f args (Some (a ++ "_" ++ b)%string) w = Some (r, w1) ->
  executed w w1 args (Some (a ++ "_" ++ b)%string) ->
  effective_key (n ++ "_" ++ a) (Some b) = effective_key n (Some (a ++ "_" ++ b)%string) /\
  cached (n ++ "_" ++ a) (Some false) f' args' (Some b) w1 = Some (r, w1).
Proof.
  intros Hrt H He.
  assert (Hk : effective_key (n ++ "_" ++ a) (Some b) =
               effective_key n (Some (a ++ "_" ++ b)%string)).
  { unfold effective_key. rewrite string_app_assoc. reflexivity. }
  split; [exact Hk|]. unfold cached in *.
  destruct (compute_and_cache_cases _ _ _ _ _ _ _ _ H)
    as [(_ & -> & _) | (-> & _)].
  - rewrite <- Hk. apply retrieve_after_store, Hrt.
  - unfold executed in He. symmetry in He.
    exfalso. exact (app_one_ne_self _ _ He).
Qed.

End Cached.

(** A concrete cache: results are numbers, pickled as themselves. *)
Definition demo_compute (args : nat) (ck : option string) : option nat :=
  Some (args * 2).

Definition demo_world : world (Args := nat) (Blob := nat) :=
  {| fs := ∅; calls := [] |}.

Lemma cached_contract_witness :
  (forall r : nat, Some (id r) = Some r) /\
  let loads := (@Some nat) in
  let key := effective_key "wbd_08" (Some "hu12") in
  effective_key "wbd_08" None = "wbd_08" /\
  (forall d, effective_key "wbd_08" (Some d) = ("wbd_08" ++ "_" ++ d)%string) /\
  (forall r w',
     cached id loads "jars" "wbd_08" (Some true) demo_compute 21 (Some "hu12") demo_world
       = Some (r, w') ->
     (executed demo_world w' 21 (Some "hu12") /\ stored id "jars" w' key r /\
      demo_compute 21 (Some "hu12") = Some r
        <-> true = true \/ fs demo_world !! pickle_path "jars" key = None) /\
     (w' = demo_world /\ fs demo_world !! pickle_path "jars" key ≫= loads = Some r
        <-> true = false /\ is_Some (fs demo_world !! pickle_path "jars" key))) /\
  (forall r,
     demo_compute 21 (Some "hu12") = Some r ->
     true = true \/ fs demo_world !! pickle_path "jars" key = None ->
     exists w', cached id loads "jars" "wbd_08" (Some true) demo_compute 21 (Some "hu12")
                  demo_world = Some (r, w') /\
                executed demo_world w' 21 (Some "hu12") /\ stored id "jars" w' key r) /\
  (forall r w1,
     cached id loads "jars" "wbd_08" (Some true) demo_compute 21 (Some "hu12") demo_world
       = Some (r, w1) ->
     executed demo_world w1 21 (Some "hu12") ->
     forall (f' : nat -> option string -> option nat) (args' : nat),
       cached id loads "jars" "wbd_08" (Some false) f' args' (Some "hu12") w1 = Some (r, w1) /\
       forall r', f' args' (Some "hu12") = Some r' ->
         exists w2, cached id loads "jars" "wbd_08" (Some true) f' args' (Some "hu12") w1
                      = Some (r', w2) /\
                    executed w1 w2 args' (Some "hu12") /\ stored id "jars" w2 key r').
Proof.
  split; [reflexivity|].
  exact (cached_contract id (@Some nat) "jars" (fun r => eq_refl)
           "wbd_08" true demo_compute 21 (Some "hu12") demo_world).
Defined.

(** A second concrete cache, whose pickles can fail to load: a result [r]
    is pickled as [S r], and the blob [0] is no pickle. *)
Definition succ_loads (blob : nat) : option nat :=
  match blob with
  | O => None
  | S r => Some r
  end.

Definition stored_world (blob : nat) : world (Args := nat) (Blob := nat) :=
  {| fs := {[ "jars/wbd_08_hu12.pickle" := blob ]}; calls := [] |}.

Lemma stored_world_lookup (blob : nat) :
  fs (stored_world blob) !! pickle_path "jars" (effective_key "wbd_08" (Some "hu12"))
    = Some blob.
Proof.
  change (pickle_path "jars" (effective_key "wbd_08" (Some "hu12")))
    with "jars/wbd_08_hu12.pickle".
  apply lookup_singleton_eq.
Qed.

Lemma demo_first_call :
  cached S succ_loads "jars" "wbd_08" None demo_compute 21 (Some "hu12") demo_world =
    Some (42%nat,
          {| fs := <[pickle_path "jars" (effective_key "wbd_08" (Some "hu12")) := 43%nat]> ∅;
             calls := [(21%nat, Some "hu12")] |}).
Proof.
  unfold cached. simpl. rewrite compute_and_cache_run by auto. reflexivity.
Qed.

Lemma cached_frame_witness :
  exists w',
    cached S succ_loads "jars" "wbd_08" None demo_compute 21 (Some "hu12") demo_world
      = Some (42%nat, w') /\
    "jars/other.pickle" <> pickle_path "jars" (effective_key "wbd_08" (Some "hu12")) /\
    fs w' !! "jars/other.pickle" = fs demo_world !! "jars/other.pickle" /\
    (calls w' = calls demo_world \/
     calls w' = calls demo_world ++ [(21%nat, Some "hu12")]).
Proof.
  eexists. split; [exact demo_first_call|].
  assert (Hne : "jars/other.pickle" <>
                pickle_path "jars" (effective_key "wbd_08" (Some "hu12")))
    by (vm_compute; discriminate).
  split; [exact Hne|].
  exact (cached_frame S succ_loads "jars" "wbd_08" None demo_compute 21 (Some "hu12")
           demo_world _ 42%nat "jars/other.pickle" demo_first_call Hne).
Defined.

Lemma cached_stale_witness :
  fs (stored_world 8) !! pickle_path "jars" (effective_key "wbd_08" (Some "hu12"))
    = Some 8%nat /\
  cached S succ_loads "jars" "wbd_08" (Some false) demo_compute 21 (Some "hu12")
         (stored_world 8) =
  cached S succ_loads "jars" "wbd_08" (Some false) (fun _ _ => None) 0%nat (Some "hu12")
         (stored_world 8) /\
  cached S succ_loads "jars" "wbd_08" (Some false) demo_compute 21 (Some "hu12")
         (stored_world 8) = Some (7%nat, stored_world 8).
Proof.
  split; [apply stored_world_lookup|].
  exact (cached_stale S succ_loads "jars" "wbd_08" demo_compute (fun _ _ => None)
           21%nat 0%nat (Some "hu12") (stored_world 8) 8%nat (stored_world_lookup 8)).
Defined.

Lemma cached_corrupt_blob_witness :
  fs (stored_world 0) !! pickle_path "jars" (effective_key "wbd_08" (Some "hu12"))
    = Some 0%nat /\
  succ_loads 0 = None /\
  cached S succ_loads "jars" "wbd_08" (Some false) demo_compute 21 (Some "hu12")
         (stored_world 0) = None /\
  forall r, demo_compute 21 (Some "hu12") = Some r ->
    exists w',
      cached S succ_loads "jars" "wbd_08" (Some true) demo_compute 21 (Some "hu12")
             (stored_world 0) = Some (r, w') /\
      executed (stored_world 0) w' 21%nat (Some "hu12") /\
      stored S "jars" w' (effective_key "wbd_08" (Some "hu12")) r.
Proof.
  split; [apply stored_world_lookup|]. split; [reflexivity|].
  exact (cached_corrupt_blob S succ_loads "jars" "wbd_08" demo_compute 21%nat
           (Some "hu12") (stored_world 0) 0%nat (stored_world_lookup 0) eq_refl).
Defined.

Lemma demo_collision_call :
  cached S succ_loads "jars" "a" None demo_compute 21 (Some ("b" ++ "_" ++ "c")%string)
         demo_world =
    Some (42%nat,
          {| fs := <[pickle_path "jars" (effective_key "a" (Some ("b" ++ "_" ++ "c")%string))
                     := 43%nat]> ∅;
             calls := [(21%nat, Some ("b" ++ "_" ++ "c")%string)] |}).
Proof.
  unfold cached. simpl. rewrite compute_and_cache_run by auto. reflexivity.
Qed.

Lemma cached_key_collision_witness :
  (forall x : nat, succ_loads (S x) = Some x) /\
  exists w1,
    cached S succ_loads "jars" "a" None demo_compute 21 (Some ("b" ++ "_" ++ "c")%string)
           demo_world = Some (42%nat, w1) /\
    executed demo_world w1 21%nat (Some ("b" ++ "_" ++ "c")%string) /\
    effective_key ("a" ++ "_" ++ "b") (Some "c") =
      effective_key "a" (Some ("b" ++ "_" ++ "c")%string) /\
    cached S succ_loads "jars" ("a" ++ "_" ++ "b") (Some false) (fun _ _ => None) 0%nat
           (Some "c") w1 = Some (42%nat, w1).
Proof.
  split; [reflexivity|]. eexists. split; [exact demo_collision_call|].
  split; [reflexivity|].
  exact (cached_key_collision S succ_loads "jars" "a" "b" "c" None demo_compute
           (fun _ _ => None) 21%nat 0%nat demo_world _ 42%nat (fun x => eq_refl)
           demo_collision_call eq_refl).
Defined.

End Cache.


(* ===================================================================== *)
(** ** 2. The file-name pattern [url_re] *)
(* ===================================================================== *)

Module Regex.

(** The fragment of Python's [re] syntax the pattern is written in. *)
Inductive regex : Type :=
| Str (l : list ascii)                (* literal characters, escapes resolved *)
| Class (p : ascii -> bool)           (* one character of a class *)
| Plus (p : ascii -> bool)            (* greedy [+] over a class *)
| Group (name : string) (r : regex)   (* named group *)
| Seq (r1 r2 : regex).

(** Named groups of a match, the latest first. *)
Definition captures := list (string * string).

Definition in_range (lo hi : nat) (c : ascii) : bool :=
  (lo <=? nat_of_ascii c)%nat && (nat_of_ascii c <=? hi)%nat.

(** The pattern is a [str] pattern compiled without [re.ASCII], so its
    [\d] and [\w] are Unicode-aware: beyond ASCII they also take the digits
    and letters of other scripts. The range [[A-Za-z0-9]] is ASCII whatever
    the text. What follows is [\d], [[A-Za-z0-9]] and [\w] as they act on
    ASCII characters, and the statements about the pattern are about names
    made of ASCII characters ([ascii_name]). *)
Definition is_digit (c : ascii) : bool := in_range 48 57 c.
Definition is_alnum (c : ascii) : bool :=
  in_range 65 90 c || in_range 97 122 c || is_digit c.
Definition is_word (c : ascii) : bool := is_alnum c || Ascii.eqb c "_"%char.

Definition is_ascii (c : ascii) : bool := (nat_of_ascii c <? 128)%nat.

(** A name all of whose characters are ASCII. *)
Definition ascii_name (name : string) : Prop :=
  forallb is_ascii (list_ascii_of_string name) = true.

Fixpoint str_match (l s : list ascii) : option (list ascii) :=
  match l with
  | [] => Some s
  | c :: l' =>
      match s with
      | c' :: s' => if Ascii.eqb c c' then str_match l' s' else None
      | [] => None
      end
  end.

(** Greedy repetition with backtracking: take one more character first,
    and fall back to the continuation only when that fails. *)
Fixpoint plus_match {A} (p : ascii -> bool) (s : list ascii)
    (k : list ascii -> option A) : option A :=
  match s with
  | c :: s' =>
      if p c then
        match plus_match p s' k with
        | Some out => Some out
        | None => k s'
        end
      else None
  | [] => None
  end.

(** The text between the position [s] and the later position [s']. *)
Definition consumed (s s' : list ascii) : string :=
  string_of_list_ascii (take (length s - length s') s).

(** A backtracking matcher in continuation-passing style: [k] receives the
    rest of the text and the groups captured so far. *)
Fixpoint match_re (r : regex) (s : list ascii) (caps : captures)
    (k : list ascii -> captures -> option captures) : option captures :=
  match r with
  | Str l =>
      match str_match l s with
      | Some s' => k s' caps
      | None => None
      end
  | Class p =>
      match s with
      | c :: s' => if p c then k s' caps else None
      | [] => None
      end
  | Plus p => plus_match p s (fun s' => k s' caps)
  | Group name r1 =>
      match_re r1 s caps (fun s' caps' => k s' ((name, consumed s s') :: caps'))
  | Seq r1 r2 =>
      match_re r1 s caps (fun s' caps' => match_re r2 s' caps' k)
  end.

Definition match_here (r : regex) (s : list ascii) : option captures :=
  match_re r s [] (fun _ caps => Some caps).

(** [re.search]: the match at the leftmost position that has one. *)
Fixpoint search_from (r : regex) (s : list ascii) : option captures :=
  match match_here r s with
  | Some caps => Some caps
  | None =>
      match s with
      | [] => None
      | _ :: s' => search_from r s'
      end
  end.

Definition search (r : regex) (name : string) : option captures :=
  search_from r (list_ascii_of_string name).

(** [match.group(name)] *)
Fixpoint group (caps : captures) (name : string) : option string :=
  match caps with
  | [] => None
  | (n, v) :: rest => if String.eqb n name then Some v else group rest name
  end.

Definition chars (s : string) : list ascii := list_ascii_of_string s.

(** [r'\.(?P<tile_id>\w+)\.\d+T\d+\.v\d\.\d\.(?P<band>[A-Za-z0-9]+)\.tif'] *)
Definition url_re : regex :=
  Seq (Str (chars "."))
  (Seq (Group "tile_id" (Plus is_word))
  (Seq (Str (chars "."))
  (Seq (Plus is_digit)
  (Seq (Str (chars "T"))
  (Seq (Plus is_digit)
  (Seq (Str (chars ".v"))
  (Seq (Class is_digit)
  (Seq (Str (chars "."))
  (Seq (Class is_digit)
  (Seq (Str (chars "."))
  (Seq (Group "band" (Plus is_alnum))
       (Str (chars ".tif"))))))))))))).

(** The tile identifier and band code of a file name, when it matches. *)
Definition url_match (full_name : string) : option (string * string) :=
  match search url_re full_name with
  | Some caps =>
      match group caps "tile_id", group caps "band" with
      | Some t, Some b => Some (t, b)
      | _, _ => None
      end
  | None => None
  end.

(** *** The language of a pattern, with the groups a match fills *)

Definition all_in (p : ascii -> bool) (s : list ascii) : Prop :=
  s <> [] /\ forallb p s = true.

Fixpoint lang (r : regex) (s : list ascii) (caps : captures) : Prop :=
  match r with
  | Str l => s = l /\ caps = []
  | Class p => exists c, s = [c] /\ p c = true /\ caps = []
  | Plus p => all_in p s /\ caps = []
  | Group name r1 =>
      exists c1, lang r1 s c1 /\ caps = (name, string_of_list_ascii s) :: c1
  | Seq r1 r2 =>
      exists s1 s2 c1 c2,
        s = s1 ++ s2 /\ caps = c2 ++ c1 /\ lang r1 s1 c1 /\ lang r2 s2 c2
  end.

(** *** The matcher against the language *)

Lemma str_match_spec (l s s' : list ascii) :
  str_match l s = Some s' <-> s = l ++ s'.
Proof.
  revert s. induction l as [|c l IH]; intros s; simpl.
  - split; congruence.
  - destruct s as [|c' s0]; [split; discriminate|].
    destruct (Ascii.eqb c c') eqn:E.
    + apply Ascii.eqb_eq in E. subst c'. rewrite IH. split; congruence.
    + apply Ascii.eqb_neq in E. split; [discriminate|congruence].
Qed.

Lemma consumed_app (s1 s2 : list ascii) :
  consumed (s1 ++ s2) s2 = string_of_list_ascii s1.
Proof.
  unfold consumed. rewrite length_app.
  replace (length s1 + length s2 - length s2)%nat with (length s1) by lia.
  rewrite take_app_length. reflexivity.
Qed.

Lemma plus_match_sound {A} p (s : list ascii) (k : list ascii -> option A) out :
  plus_match p s k = Some out ->
  exists s1 s2, s = s1 ++ s2 /\ all_in p s1 /\ k s2 = Some out.
Proof.
  revert out. induction s as [|c s IH]; intros out H; simpl in H; [discriminate|].
  destruct (p c) eqn:Hc; [|discriminate].
  destruct (plus_match p s k) as [o|] eqn:Hm.
  - destruct (IH o eq_refl) as (s1 & s2 & -> & [_ Hall] & Hk).
    exists (c :: s1), s2. repeat split; try discriminate.
    + simpl. rewrite Hc. exact Hall.
    + congruence.
  - exists [c], s. repeat split; try discriminate; auto.
    simpl. rewrite Hc. reflexivity.
Qed.

Lemma plus_match_complete {A} p (s1 s2 : list ascii) (k : list ascii -> option A) :
  all_in p s1 -> is_Some (k s2) -> is_Some (plus_match p (s1 ++ s2) k).
Proof.
  intros [Hne Hall] Hk. induction s1 as [|c s1 IH]; [congruence|].
  simpl in *. apply andb_true_iff in Hall as [Hc Hall]. rewrite Hc.
  destruct s1 as [|c' s1'].
  - simpl. destruct (plus_match p s2 k); eauto.
  - destruct (IH ltac:(discriminate) Hall) as [o Ho]. rewrite Ho. eauto.
Qed.

(** Soundness: a successful match splits the text into a word of the
    language, with the captured groups, and a rest the continuation took. *)
Lemma match_re_sound (r : regex) :
  forall s caps k out,
    match_re r s caps k = Some out ->
    exists s1 s2 c1,
      s = s1 ++ s2 /\ lang r s1 c1 /\ k s2 (c1 ++ caps) = Some out.
Proof.
  induction r as [l|p|p|name r1 IH|r1 IH1 r2 IH2]; intros s caps k out H; simpl in H.
  - destruct (str_match l s) as [s'|] eqn:E; [|discriminate].
    apply str_match_spec in E. exists l, s', []. simpl. auto.
  - destruct s as [|c s']; [discriminate|].
    destruct (p c) eqn:Hc; [|discriminate].
    exists [c], s', []. simpl. eauto 6.
  - apply plus_match_sound in H as (s1 & s2 & -> & Hall & Hk).
    exists s1, s2, []. simpl. auto.
  - apply IH in H as (s1 & s2 & c1 & -> & Hl & Hk).
    rewrite consumed_app in Hk.
    exists s1, s2, ((name, string_of_list_ascii s1) :: c1). simpl. eauto.
  - apply IH1 in H as (s1 & s2 & c1 & -> & Hl1 & Hk).
    apply IH2 in Hk as (s3 & s4 & c2 & -> & Hl2 & Hk).
    exists (s1 ++ s3), s4, (c2 ++ c1). rewrite <- !app_assoc.
    split; [reflexivity|]. split; [|exact Hk].
    simpl. exists s1, s3, c1, c2. auto.
Qed.

(** A continuation accepts [P] when it succeeds on every rest in [P],
    whatever was captured. *)
Definition accepts (k : list ascii -> captures -> option captures)
    (P : list ascii -> Prop) : Prop :=
  forall s caps, P s -> is_Some (k s caps).

(** Completeness: backtracking finds a match whenever some split works. *)
Lemma match_re_complete (r : regex) :
  forall s1 c1 s2 caps k P,
    lang r s1 c1 -> accepts k P -> P s2 ->
    is_Some (match_re r (s1 ++ s2) caps k).
Proof.
  induction r as [l|p|p|name r1 IH|r1 IH1 r2 IH2];
    intros s1 c1 s2 caps k P Hl Hk HP; simpl in *.
  - destruct Hl as [-> _].
    rewrite (proj2 (str_match_spec l (l ++ s2) s2) eq_refl). auto.
  - destruct Hl as (c & -> & Hc & _). simpl. rewrite Hc. auto.
  - destruct Hl as [Hall _]. apply plus_match_complete; auto.
  - destruct Hl as (c & Hl & _).
    apply (IH s1 c s2 caps _ P Hl); [|exact HP].
    intros s caps' Hs. apply Hk, Hs.
  - destruct Hl as (a & b & ca & cb & -> & _ & Ha & Hb).
    rewrite <- app_assoc.
    apply (IH1 a ca (b ++ s2) caps _
             (fun s' => exists b' c' s2', s' = b' ++ s2' /\ lang r2 b' c' /\ P s2') Ha).
    + intros s caps' (b' & c' & s2' & -> & Hb' & HP').
      apply (IH2 b' c' s2' caps' k P); auto.
    + exists b, cb, s2. auto.
Qed.

Lemma match_here_sound r s caps :
  match_here r s = Some caps ->
  exists mid post, s = mid ++ post /\ lang r mid caps.
Proof.
  unfold match_here. intros H.
  apply match_re_sound in H as (s1 & s2 & c1 & -> & Hl & Hk).
  rewrite app_nil_r in Hk. inversion Hk; subst. eauto.
Qed.

Lemma match_here_complete r mid post c :
  lang r mid c -> is_Some (match_here r (mid ++ post)).
Proof.
  intros Hl. unfold match_here.
  apply (match_re_complete r mid c post [] _ (fun _ => True) Hl); [|exact I].
  intros s caps _. eauto.
Qed.

Lemma search_from_sound r s caps :
  search_from r s = Some caps ->
  exists pre mid post, s = pre ++ mid ++ post /\ lang r mid caps.
Proof.
  induction s as [|c s IH]; simpl; intros H.
  - destruct (match_here r []) eqn:E; [|discriminate]. inversion H; subst.
    apply match_here_sound in E as (mid & post & E & Hl).
    exists [], mid, post. auto.
  - destruct (match_here r (c :: s)) eqn:E.
    + inversion H; subst.
      apply match_here_sound in E as (mid & post & E & Hl).
      exists [], mid, post. auto.
    + destruct (IH H) as (pre & mid & post & -> & Hl).
      exists (c :: pre), mid, post. auto.
Qed.

Lemma search_from_complete r pre mid post c :
  lang r mid c -> is_Some (search_from r (pre ++ mid ++ post)).
Proof.
  intros Hl. induction pre as [|a pre IH].
  - simpl. destruct (match_here_complete r mid post c Hl) as [o Ho].
    destruct (mid ++ post); simpl; rewrite Ho; eauto.
  - simpl. destruct (match_here r (a :: pre ++ mid ++ post)); eauto.
Qed.

(** *** The grammar of [url_re] spelled out *)

(** [.<tile_id>.<digits>T<digits>.v<digit>.<digit>.<band>.tif] *)
Definition grammar_word (tile d1 d2 : list ascii) (v1 v2 : ascii)
    (band : list ascii) : list ascii :=
  chars "." ++ tile ++ chars "." ++ d1 ++ chars "T" ++ d2 ++ chars ".v" ++
  [v1] ++ chars "." ++ [v2] ++ chars "." ++ band ++ chars ".tif".

Definition well_formed (tile d1 d2 : list ascii) (v1 v2 : ascii)
    (band : list ascii) : Prop :=
  all_in is_word tile /\ all_in is_digit d1 /\ all_in is_digit d2 /\
  is_digit v1 = true /\ is_digit v2 = true /\ all_in is_alnum band.

(** What [re.search] looks for: the grammar somewhere inside the name. *)
Definition contains_grammar (name : string) : Prop :=
  exists pre tile d1 d2 v1 v2 band post,
    chars name = pre ++ grammar_word tile d1 d2 v1 v2 band ++ post /\
    well_formed tile d1 d2 v1 v2 band.

(** The grammar as the specification words it,
    [<anything>.<tile_id>.<timestamp>.v<version>.<band>.tif]: the name ends
    with the [.tif] extension. *)
Definition spec_grammar (name : string) : Prop :=
  exists anything tile d1 d2 v1 v2 band,
    chars name = anything ++ grammar_word tile d1 d2 v1 v2 band /\
    well_formed tile d1 d2 v1 v2 band.

Lemma lang_url_re (mid : list ascii) (caps : captures) :
  lang url_re mid caps <->
  exists tile d1 d2 v1 v2 band,
    mid = grammar_word tile d1 d2 v1 v2 band /\
    well_formed tile d1 d2 v1 v2 band /\
    caps = [("band", string_of_list_ascii band);
            ("tile_id", string_of_list_ascii tile)].
Proof.
  unfold url_re, grammar_word, well_formed. split.
  - simpl. intros H.
    repeat match goal with
           | H : exists _, _ |- _ => destruct H
           | H : _ /\ _ |- _ => destruct H
           end.
    subst. do 6 eexists. split; [reflexivity|]. split; [|reflexivity].
    repeat (split; [assumption|]); assumption.
  - intros (tile & d1 & d2 & v1 & v2 & band & -> & (Ht & H1 & H2 & Hv1 & Hv2 & Hb) & ->).
    simpl.
    exists ["."%char], (tile ++ chars "." ++ d1 ++ chars "T" ++ d2 ++ chars ".v" ++
      [v1] ++ chars "." ++ [v2] ++ chars "." ++ band ++ chars ".tif"), [],
      [("band", string_of_list_ascii band); ("tile_id", string_of_list_ascii tile)].
    split; [reflexivity|]. split; [reflexivity|]. split; [auto|].
    exists tile, (chars "." ++ d1 ++ chars "T" ++ d2 ++ chars ".v" ++
      [v1] ++ chars "." ++ [v2] ++ chars "." ++ band ++ chars ".tif"),
      [("tile_id", string_of_list_ascii tile)], [("band", string_of_list_ascii band)].
    split; [reflexivity|]. split; [reflexivity|]. split; [eauto|].
    exists ["."%char], (d1 ++ chars "T" ++ d2 ++ chars ".v" ++
      [v1] ++ chars "." ++ [v2] ++ chars "." ++ band ++ chars ".tif"),
      [], [("band", string_of_list_ascii band)].
    split; [reflexivity|]. split; [reflexivity|]. split; [auto|].
    exists d1, (chars "T" ++ d2 ++ chars ".v" ++
      [v1] ++ chars "." ++ [v2] ++ chars "." ++ band ++ chars ".tif"),
      [], [("band", string_of_list_ascii band)].
    split; [reflexivity|]. split; [reflexivity|]. split; [auto|].
    exists ["T"%char], (d2 ++ chars ".v" ++
      [v1] ++ chars "." ++ [v2] ++ chars "." ++ band ++ chars ".tif"),
      [], [("band", string_of_list_ascii band)].
    split; [reflexivity|]. split; [reflexivity|]. split; [auto|].
    exists d2, (chars ".v" ++
      [v1] ++ chars "." ++ [v2] ++ chars "." ++ band ++ chars ".tif"),
      [], [("band", string_of_list_ascii band)].
    split; [reflexivity|]. split; [reflexivity|]. split; [auto|].
    exists (chars ".v"), ([v1] ++ chars "." ++ [v2] ++ chars "." ++ band ++ chars ".tif"),
      [], [("band", string_of_list_ascii band)].
    split; [reflexivity|]. split; [reflexivity|]. split; [auto|].
    exists [v1], (chars "." ++ [v2] ++ chars "." ++ band ++ chars ".tif"),
      [], [("band", string_of_list_ascii band)].
    split; [reflexivity|]. split; [reflexivity|]. split; [eauto|].
    exists ["."%char], ([v2] ++ chars "." ++ band ++ chars ".tif"),
      [], [("band", string_of_list_ascii band)].
    split; [reflexivity|]. split; [reflexivity|]. split; [auto|].
    exists [v2], (chars "." ++ band ++ chars ".tif"),
      [], [("band", string_of_list_ascii band)].
    split; [reflexivity|]. split; [reflexivity|]. split; [eauto|].
    exists ["."%char], (band ++ chars ".tif"), [], [("band", string_of_list_ascii band)].
    split; [reflexivity|]. split; [reflexivity|]. split; [auto|].
    exists band, (chars ".tif"), [("band", string_of_list_ascii band)], [].
    split; [reflexivity|]. split; [reflexivity|]. split; [eauto|]. auto.
Qed.

Lemma search_url_re_sound (name : string) (caps : captures) :
  search url_re name = Some caps ->
  exists pre tile d1 d2 v1 v2 band post,
    chars name = pre ++ grammar_word tile d1 d2 v1 v2 band ++ post /\
    well_formed tile d1 d2 v1 v2 band /\
    caps = [("band", string_of_list_ascii band);
            ("tile_id", string_of_list_ascii tile)].
Proof.
  unfold search. intros H.
  apply search_from_sound in H as (pre & mid & post & E & Hl).
  apply lang_url_re in Hl as (tile & d1 & d2 & v1 & v2 & band & -> & Hwf & ->).
  exists pre, tile, d1, d2, v1, v2, band, post. auto.
Qed.

(** The pattern matches exactly the names that contain the grammar, and
    the two groups are then the tile and band of such an occurrence. *)
Lemma url_match_sound (name t b : string) :
  url_match name = Some (t, b) ->
  exists pre tile d1 d2 v1 v2 band post,
    chars name = pre ++ grammar_word tile d1 d2 v1 v2 band ++ post /\
    well_formed tile d1 d2 v1 v2 band /\
    t = string_of_list_ascii tile /\ b = string_of_list_ascii band.
Proof.
  unfold url_match. intros H.
  destruct (search url_re name) as [caps|] eqn:E; [|discriminate].
  apply search_url_re_sound in E
    as (pre & tile & d1 & d2 & v1 & v2 & band & post & E & Hwf & ->).
  simpl in H. inversion H; subst.
  exists pre, tile, d1, d2, v1, v2, band, post. auto.
Qed.

Lemma url_match_iff (name : string) :
  is_Some (url_match name) <-> contains_grammar name.
Proof.
  split.
  - intros [[t b] H]. apply url_match_sound in H
      as (pre & tile & d1 & d2 & v1 & v2 & band & post & E & Hwf & _).
    exists pre, tile, d1, d2, v1, v2, band, post. auto.
  - intros (pre & tile & d1 & d2 & v1 & v2 & band & post & E & Hwf).
    unfold url_match.
    destruct (search url_re name) as [caps|] eqn:Hs.
    + apply search_url_re_sound in Hs
        as (? & ? & ? & ? & ? & ? & ? & ? & _ & _ & ->).
      simpl. eauto.
    + exfalso. unfold search in Hs. fold (chars name) in Hs. rewrite E in Hs.
      assert (Hl : lang url_re (grammar_word tile d1 d2 v1 v2 band)
                     [("band", string_of_list_ascii band);
                      ("tile_id", string_of_list_ascii tile)]).
      { apply lang_url_re. exists tile, d1, d2, v1, v2, band. auto. }
      destruct (search_from_complete url_re pre _ post _ Hl) as [o Ho].
      congruence.
Qed.

Lemma spec_grammar_ends_tif (name : string) :
  spec_grammar name -> exists body, rev (chars name) = rev (chars ".tif") ++ body.
Proof.
  intros (anything & tile & d1 & d2 & v1 & v2 & band & E & _).
  rewrite E. unfold grammar_word.
  rewrite !app_assoc. rewrite rev_app_distr. eauto.
Qed.

Lemma spec_grammar_contains (name : string) :
  spec_grammar name -> contains_grammar name.
Proof.
  intros (anything & tile & d1 & d2 & v1 & v2 & band & E & Hwf).
  exists anything, tile, d1, d2, v1, v2, band, []. rewrite app_nil_r. auto.
Qed.

End Regex.


(* ===================================================================== *)
(** ** 3. Rasters: the band loader and the quality mask *)
(* ===================================================================== *)

Module Raster.

(** A floating-point cell: [None] is NaN, the missing value. *)
Definition pixel := option Q.

(** An [xarray.DataArray] with dimensions [(y, x)]: the coordinate labels of
    both axes and the rows of cells. *)
Record DataArray := mkDA {
  da_name : option string;
  da_crs : Z;
  da_y : list Z;
  da_x : list Z;
  da_values : list (list pixel)
}.

(** A remote GeoTIFF, what [rxr.open_rasterio] reads: integer digital
    counts and the encoded no-data value ([_FillValue]), if any. *)
Record GeoTiff := mkTiff {
  full_name : string;
  tif_crs : Z;
  tif_y : list Z;
  tif_x : list Z;
  tif_data : list (list Z);
  tif_nodata : option Z
}.

Definition shape {A} (v : list (list A)) : list nat := map (@length A) v.

(** [rxr.open_rasterio(url, masked=masked).squeeze()]: with [masked] the
    no-data value is read as NaN. *)
Definition read_cell (masked : bool) (nodata : option Z) (raw : Z) : pixel :=
  match nodata with
  | Some nd => if masked && (raw =? nd)%Z then None else Some (inject_Z raw)
  | None => Some (inject_Z raw)
  end.

Definition open_rasterio (url : GeoTiff) (masked : bool) : DataArray :=
  {| da_name := None;
     da_crs := tif_crs url;
     da_y := tif_y url;
     da_x := tif_x url;
     da_values := map (map (read_cell masked (tif_nodata url))) (tif_data url) |}.

(** [.squeeze()] drops every dimension of length one: the band dimension
    of a single-band file, which is why the array is [(y, x)], and with it
    the y or the x dimension of a raster that has a single row or a single
    column. What is left then is no [(y, x)] array: [da.rio.clip_box], the
    one thing the loader does with it, raises on it, and here it is [None]. *)
Definition squeeze (da : DataArray) : option DataArray :=
  if (length (da_y da) =? 1)%nat || (length (da_x da) =? 1)%nat then None
  else Some da.

(** [da * scale] *)
Definition scale_cell (scale : Q) (p : pixel) : pixel :=
  match p with
  | Some q => Some (q * scale)%Q
  | None => None
  end.

Definition map_cells (f : pixel -> pixel) (da : DataArray) : DataArray :=
  {| da_name := da_name da; da_crs := da_crs da; da_y := da_y da; da_x := da_x da;
     da_values := map (map f) (da_values da) |}.

Definition scale_da (scale : Q) (da : DataArray) : DataArray :=
  map_cells (scale_cell scale) da.

Definition set_name (n : string) (da : DataArray) : DataArray :=
  {| da_name := Some n; da_crs := da_crs da; da_y := da_y da; da_x := da_x da;
     da_values := da_values da |}.

(** *** [compute_quality_mask] *)

(** [da.astype(np.uint8)] on a cell: truncation, then wrap-around to 8
    bits. A NaN has no defined conversion; the Fmask layer is read with
    [masked=False] and has none. *)
Definition astype_uint8 (p : pixel) : Z :=
  match p with
  | Some q => (Z.quot (Qnum q) (Z.pos (Qden q))) mod 256
  | None => 0
  end.

(** [np.unpackbits(v, bitorder='little')]: the eight bits of one byte,
    least significant first. *)
Definition unpackbits_little (v : Z) : list Z :=
  map (fun i => Z.land (Z.shiftr v (Z.of_nat i)) 1) (seq 0 8).

(** Python indexing into a sequence: a negative index counts from the end,
    and an index outside [-len, len) raises. *)
Definition py_index {A} (l : list A) (i : Z) : option A :=
  let n := Z.of_nat (length l) in
  if (0 <=? i)%Z && (i <? n)%Z then l !! Z.to_nat i
  else if (- n <=? i)%Z && (i <? 0)%Z then l !! Z.to_nat (n + i)
  else None.

(** [np.prod(bits[mask_bits] == 0)] over the last axis, for one cell. *)
Definition prod_is_zero (selected : list Z) : Z :=
  fold_right Z.mul 1%Z (map (fun b => if (b =? 0)%Z then 1%Z else 0%Z) selected).

Definition cell_mask (mask_bits : list Z) (v : Z) : option Z :=
  match mapM (py_index (unpackbits_little v)) mask_bits with
  | Some selected => Some (prod_is_zero selected)
  | None => None
  end.

Definition default_mask_bits : list Z := [1; 2; 3]%Z.

(** The mask is a bare array of the shape of [da]. On an array without a
    cell [reshape(da.shape + (-1,))] cannot tell the length of the last
    axis and raises. *)
Definition compute_quality_mask (da : DataArray) (mask_bits : list Z)
  : option (list (list Z)) :=
  match concat (da_values da) with
  | [] => None
  | _ => mapM (mapM (fun p => cell_mask mask_bits (astype_uint8 p))) (da_values da)
  end.

(** [da.where(mask)]: the mask is matched by position, a cell whose mask is
    zero becomes NaN, and arrays of different shapes do not align. *)
Definition where_cell (p : pixel) (m : Z) : pixel :=
  if (m =? 0)%Z then None else p.

Definition where_mask (da : DataArray) (mask : list (list Z)) : option DataArray :=
  if decide (shape (da_values da) = shape mask) then
    Some {| da_name := da_name da; da_crs := da_crs da;
            da_y := da_y da; da_x := da_x da;
            da_values := zip_with (zip_with where_cell) (da_values da) mask |}
  else None.

(** The cell at a position of an array, by row and column number. *)
Definition cell_at {A} (v : list (list A)) (i j : nat) : option A :=
  match v !! i with
  | Some row => row !! j
  | None => None
  end.

(** *** The quality mask, bit by bit *)

Lemma land_shiftr_bit (v : Z) (i : nat) :
  Z.land (Z.shiftr v (Z.of_nat i)) 1 = Z.b2z (Z.testbit v (Z.of_nat i)).
Proof.
  rewrite Z.testbit_spec' by lia.
  rewrite Z.shiftr_div_pow2 by lia.
  change 1%Z with (Z.ones 1). rewrite Z.land_ones by lia. reflexivity.
Qed.

Lemma unpackbits_little_bits (v : Z) :
  unpackbits_little v = map (fun i => Z.b2z (Z.testbit v (Z.of_nat i))) (seq 0 8).
Proof.
  unfold unpackbits_little. apply map_ext. intros i. apply land_shiftr_bit.
Qed.

Lemma unpackbits_little_index (v b : Z) :
  (0 <= b < 8)%Z ->
  py_index (unpackbits_little v) b = Some (Z.b2z (Z.testbit v b)).
Proof.
  intros Hb. unfold py_index.
  assert (Hlen : length (unpackbits_little v) = 8%nat) by reflexivity.
  rewrite Hlen.
  replace ((0 <=? b)%Z && (b <? Z.of_nat 8)%Z) with true
    by (symmetry; apply andb_true_iff; split; [apply Z.leb_le|apply Z.ltb_lt]; lia).
  rewrite unpackbits_little_bits.
  rewrite list_lookup_fmap.
  rewrite (lookup_seq_lt 0 8 (Z.to_nat b)) by lia.
  simpl. rewrite Z2Nat.id by lia. reflexivity.
Qed.

Lemma select_bits (v : Z) (mask_bits : list Z) :
  (forall b, In b mask_bits -> (0 <= b < 8)%Z) ->
  mapM (py_index (unpackbits_little v)) mask_bits =
    Some (map (fun b => Z.b2z (Z.testbit v b)) mask_bits).
Proof.
  intros H. apply mapM_Some. induction mask_bits as [|b l IH]; simpl.
  - constructor.
  - constructor.
    + apply unpackbits_little_index, H. simpl. auto.
    + apply IH. intros b' Hb'. apply H. simpl. auto.
Qed.

Lemma prod_is_zero_bits (v : Z) (mask_bits : list Z) :
  let m := prod_is_zero (map (fun b => Z.b2z (Z.testbit v b)) mask_bits) in
  (m = 0 \/ m = 1)%Z /\
  (m = 1%Z <-> forall b, In b mask_bits -> Z.testbit v b = false).
Proof.
  induction mask_bits as [|b l IH]; simpl.
  - split; [auto|]. split; [intros _ b []|reflexivity].
  - destruct IH as [Hm IH]. unfold prod_is_zero in *. simpl.
    destruct (Z.testbit v b) eqn:Hb; simpl.
    + split; [auto|]. split; [discriminate|].
      intros H. specialize (H b (or_introl eq_refl)). congruence.
    + set (m := fold_right Z.mul 1%Z _) in *.
      rewrite Z.mul_1_l.
      split; [exact Hm|]. rewrite IH. split.
      * intros H b' [<-|Hb']; auto.
      * intros H b' Hb'. apply H. auto.
Qed.

Lemma astype_uint8_byte (v : Z) :
  (0 <= v < 256)%Z -> astype_uint8 (Some (inject_Z v)) = v.
Proof.
  intros H. unfold astype_uint8, inject_Z. simpl.
  rewrite Z.quot_1_r. apply Z.mod_small. exact H.
Qed.

Lemma cell_at_mapM {A B} (f : A -> option B) (v : list (list A)) (m : list (list B)) :
  mapM (mapM f) v = Some m ->
  shape m = shape v /\
  forall i j a, cell_at v i j = Some a -> cell_at m i j = f a.
Proof.
  intros H. apply mapM_Some in H. split.
  - unfold shape. induction H as [|r r' v' m' Hr _ IH]; simpl; [reflexivity|].
    apply mapM_Some in Hr. f_equal; [|exact IH].
    symmetry. exact (Forall2_length _ _ _ Hr).
  - intros i j a Ha. unfold cell_at in *.
    destruct (v !! i) as [row|] eqn:Hrow; [|discriminate].
    destruct (Forall2_lookup_l _ _ _ _ _ H Hrow) as (row' & Hrow' & Hf).
    rewrite Hrow'. apply mapM_Some in Hf.
    destruct (Forall2_lookup_l _ _ _ _ _ Hf Ha) as (b & Hb & Hfb).
    rewrite Hb. symmetry. exact Hfb.
Qed.

(** C3. [compute_quality_mask] unpacks each 8-bit value into its eight
    bits, least significant first, and for bit positions [mask_bits] (the
    default is [[1; 2; 3]]) marks the cell 1 (usable) if and only if every
    selected bit is zero, and 0 otherwise; [0b00001010] is unusable and
    [0b00000001] usable under the default positions. *)
Theorem quality_mask_correct (v : Z) (mask_bits : list Z) :
  (0 <= v < 256)%Z ->
  (forall b, In b mask_bits -> (0 <= b < 8)%Z) ->
  astype_uint8 (Some (inject_Z v)) = v /\
  unpackbits_little v =
    map (fun i => Z.b2z (Z.testbit v (Z.of_nat i))) (seq 0 8) /\
  (exists m,
     cell_mask mask_bits v = Some m /\
     (m = 0 \/ m = 1)%Z /\
     (m = 1%Z <-> forall b, In b mask_bits -> Z.testbit v b = false)) /\
  (forall da mask,
     compute_quality_mask da mask_bits = Some mask ->
     shape mask = shape (da_values da) /\
     forall i j p,
       cell_at (da_values da) i j = Some p ->
       cell_at mask i j = cell_mask mask_bits (astype_uint8 p)) /\
  default_mask_bits = [1; 2; 3]%Z /\
  cell_mask default_mask_bits 10 = Some 0%Z /\
  cell_mask default_mask_bits 1 = Some 1%Z.
Proof.
  intros Hv Hbits.
  split; [apply astype_uint8_byte, Hv|].
  split; [apply unpackbits_little_bits|].
  split; [|split; [|repeat split; reflexivity]].
  - unfold cell_mask. rewrite (select_bits v mask_bits Hbits).
    eexists. split; [reflexivity|]. apply prod_is_zero_bits.
  - intros da mask H. unfold compute_quality_mask in H.
    destruct (concat (da_values da)); [discriminate|].
    apply cell_at_mapM in H. exact H.
Qed.

(** A cloudy cell (bits 1 and 3) next to a clear one (bit 0 only). *)
Definition demo_fmask : DataArray :=
  {| da_name := None; da_crs := 32615%Z; da_y := [0%Z]; da_x := [0%Z; 30%Z];
     da_values := [[Some (inject_Z 10); Some (inject_Z 1)]] |}.

Lemma quality_mask_correct_witness :
  compute_quality_mask demo_fmask default_mask_bits = Some [[0%Z; 1%Z]] /\
  (exists m,
     cell_mask default_mask_bits 10 = Some m /\
     (m = 0 \/ m = 1)%Z /\
     (m = 1%Z <-> forall b, In b default_mask_bits -> Z.testbit 10 b = false)).
Proof.
  split; [reflexivity|].
  refine (proj1 (proj2 (proj2 (quality_mask_correct 10 default_mask_bits _ _)))).
  - lia.
  - unfold default_mask_bits. simpl. intros b Hb. intuition lia.
Defined.

(** *** Cells of loaded and masked rasters *)

Lemma cell_at_map {A B} (f : A -> B) (v : list (list A)) (i j : nat) :
  cell_at (map (map f) v) i j = f <$> cell_at v i j.
Proof.
  unfold cell_at. rewrite list_lookup_fmap.
  destruct (v !! i) as [r|]; simpl; [|reflexivity].
  apply list_lookup_fmap.
Qed.

(** A cell of [open_rasterio(url, masked) * scale]. *)
Lemma loaded_cell (url : GeoTiff) (scale : Q) (masked : bool) (i j : nat) :
  cell_at (da_values (scale_da scale (open_rasterio url masked))) i j =
    (fun raw => scale_cell scale (read_cell masked (tif_nodata url) raw))
      <$> cell_at (tif_data url) i j.
Proof.
  unfold scale_da, map_cells, open_rasterio. simpl.
  rewrite !cell_at_map. destruct (cell_at (tif_data url) i j); reflexivity.
Qed.

(** Read with [masked=False], no cell is missing and every cell is the
    stored count. *)
Lemma read_cell_raw (nodata : option Z) (raw : Z) :
  read_cell false nodata raw = Some (inject_Z raw).
Proof. unfold read_cell. destruct nodata; reflexivity. Qed.

(** A cell of [da.where(mask)]. *)
Lemma where_mask_cell (da : DataArray) (mask : list (list Z)) (res : DataArray)
    (i j : nat) (p : pixel) (m : Z) :
  where_mask da mask = Some res ->
  cell_at (da_values da) i j = Some p ->
  cell_at mask i j = Some m ->
  cell_at (da_values res) i j = Some (where_cell p m).
Proof.
  unfold where_mask. destruct (decide _) as [_|]; [|discriminate].
  intros H Hp Hm. inversion H; subst; clear H. simpl.
  unfold cell_at in *. rewrite lookup_zip_with.
  destruct (da_values da !! i) as [r|]; [|discriminate].
  destruct (mask !! i) as [mr|]; [|discriminate]. simpl.
  rewrite lookup_zip_with, Hp, Hm. reflexivity.
Qed.

Lemma where_mask_shape (da : DataArray) (mask : list (list Z)) (res : DataArray) :
  where_mask da mask = Some res ->
  shape (da_values da) = shape mask /\ shape (da_values res) = shape mask /\
  da_name res = da_name da.
Proof.
  unfold where_mask. destruct (decide _) as [E|]; [|discriminate].
  intros H. inversion H; subst; clear H. simpl.
  split; [exact E|]. split; [|reflexivity].
  unfold shape in *. revert E. generalize (da_values da) as v. intros v.
  revert mask. induction v as [|r v IH]; intros [|mr mask] E; simpl in *;
    try discriminate; [reflexivity|].
  injection E as E1 E2. f_equal; [|apply IH, E2].
  rewrite length_zip_with. lia.
Qed.

(** *** Further properties of the quality mask *)

Lemma unpackbits_little_length (v : Z) : length (unpackbits_little v) = 8%nat.
Proof. reflexivity. Qed.

(** A position counted from the end: [-1] is bit 7, [-8] is bit 0. *)
Lemma unpackbits_little_index_neg (v b : Z) :
  (-8 <= b < 0)%Z ->
  py_index (unpackbits_little v) b = Some (Z.b2z (Z.testbit v (b + 8))).
Proof.
  intros Hb. unfold py_index. rewrite unpackbits_little_length.
  replace ((0 <=? b)%Z && (b <? Z.of_nat 8)%Z) with false
    by (symmetry; apply andb_false_iff; left; apply Z.leb_gt; lia).
  replace ((- Z.of_nat 8 <=? b)%Z && (b <? 0)%Z) with true
    by (symmetry; apply andb_true_iff; split; [apply Z.leb_le|apply Z.ltb_lt]; lia).
  rewrite unpackbits_little_bits, list_lookup_fmap.
  rewrite (lookup_seq_lt 0 8 (Z.to_nat (Z.of_nat 8 + b))) by lia.
  simpl. rewrite Z2Nat.id by lia. f_equal. f_equal. f_equal. lia.
Qed.

Lemma unpackbits_little_index_out (v b : Z) :
  (b < -8 \/ 8 <= b)%Z -> py_index (unpackbits_little v) b = None.
Proof.
  intros Hb. unfold py_index. rewrite unpackbits_little_length.
  replace ((0 <=? b)%Z && (b <? Z.of_nat 8)%Z) with false.
  2:{ symmetry. apply andb_false_iff.
      destruct Hb; [left; apply Z.leb_gt|right; apply Z.ltb_ge]; lia. }
  replace ((- Z.of_nat 8 <=? b)%Z && (b <? 0)%Z) with false.
  2:{ symmetry. apply andb_false_iff.
      destruct Hb; [left; apply Z.leb_gt|right; apply Z.ltb_ge]; lia. }
  reflexivity.
Qed.

Lemma unpackbits_little_index_mod (v b : Z) :
  (-8 <= b < 8)%Z ->
  py_index (unpackbits_little v) b = Some (Z.b2z (Z.testbit v (b mod 8))).
Proof.
  intros Hb. destruct (Z_lt_le_dec b 0) as [Hneg|Hpos].
  - rewrite unpackbits_little_index_neg by lia. f_equal. f_equal. f_equal.
    apply (Z.mod_unique b 8 (-1) (b + 8)); lia.
  - rewrite unpackbits_little_index by lia. f_equal. f_equal. f_equal.
    symmetry. apply Z.mod_small. lia.
Qed.

Lemma prod_is_zero_spec (selected : list Z) :
  (prod_is_zero selected = 0 \/ prod_is_zero selected = 1)%Z /\
  (prod_is_zero selected = 1%Z <-> Forall (fun b => b = 0%Z) selected).
Proof.
  unfold prod_is_zero. induction selected as [|b l [Hm IH]]; simpl.
  - split; [auto|]. split; [constructor|reflexivity].
  - destruct (Z.eqb_spec b 0) as [->|Hb].
    + rewrite Z.mul_1_l. split; [exact Hm|]. rewrite IH. split.
      * intros H. constructor; auto.
      * intros H. inversion H; auto.
    + split; [auto|]. split; [discriminate|].
      intros H. inversion H; congruence.
Qed.

(** Bit positions are Python indexes into the eight unpacked bits: a
    position from [-8] to [-1] counts from the most significant end, and the
    cell is usable exactly when every selected bit, read that way, is 0. *)
Theorem quality_mask_negative_bits (v : Z) (mask_bits : list Z) :
  (forall b, In b mask_bits -> (-8 <= b < 8)%Z) ->
  exists m,
    cell_mask mask_bits v = Some m /\
    (m = 0 \/ m = 1)%Z /\
    (m = 1%Z <-> forall b, In b mask_bits -> Z.testbit v (b mod 8) = false).
Proof.
  intros Hbits.
  assert (Hsel : mapM (py_index (unpackbits_little v)) mask_bits =
                 Some (map (fun b => Z.b2z (Z.testbit v (b mod 8))) mask_bits)).
  { apply mapM_Some. induction mask_bits as [|b l IH]; simpl; constructor.
    - apply unpackbits_little_index_mod, Hbits. simpl. auto.
    - apply IH. intros b' Hb'. apply Hbits. simpl. auto. }
  unfold cell_mask. rewrite Hsel. eexists. split; [reflexivity|].
  destruct (prod_is_zero_spec (map (fun b => Z.b2z (Z.testbit v (b mod 8))) mask_bits))
    as [H01 Hiff].
  split; [exact H01|]. rewrite Hiff, List.Forall_forall. split.
  - intros H b Hb. specialize (H _ (in_map _ _ _ Hb)). simpl in H.
    destruct (Z.testbit v (b mod 8)); [discriminate|reflexivity].
  - intros H x Hx. apply in_map_iff in Hx as (b & <- & Hb).
    rewrite (H b Hb). reflexivity.
Qed.

Lemma quality_mask_negative_bits_witness :
  (forall b, In b [-1; 1]%Z -> (-8 <= b < 8)%Z) /\
  cell_mask [-1; 1]%Z 128 = Some 0%Z /\
  exists m,
    cell_mask [-1; 1]%Z 128 = Some m /\
    (m = 0 \/ m = 1)%Z /\
    (m = 1%Z <-> forall b, In b [-1; 1]%Z -> Z.testbit 128 (b mod 8) = false).
Proof.
  assert (H : forall b, In b [-1; 1]%Z -> (-8 <= b < 8)%Z)
    by (simpl; intros b Hb; intuition lia).
  split; [exact H|]. split; [reflexivity|].
  exact (quality_mask_negative_bits 128 [-1; 1]%Z H).
Defined.

Lemma cell_at_elem {A} (v : list (list A)) (i j : nat) (a : A) :
  cell_at v i j = Some a -> exists r, In r v /\ In a r.
Proof.
  unfold cell_at. destruct (v !! i) as [r|] eqn:Hr; [|discriminate].
  intros Ha. exists r. split; apply list_elem_of_In.
  - eapply list_elem_of_lookup_2, Hr.
  - eapply list_elem_of_lookup_2, Ha.
Qed.

Lemma mapM_None_In {A B} (f : A -> option B) (l : list A) (a : A) :
  In a l -> f a = None -> mapM f l = None.
Proof.
  intros Hin Hf. destruct (mapM f l) as [k|] eqn:E; [|reflexivity].
  apply mapM_Some in E.
  apply list_elem_of_In, list_elem_of_lookup in Hin as [i Hi].
  destruct (Forall2_lookup_l _ _ _ _ _ E Hi) as (b & _ & Hb). congruence.
Qed.

(** A bit position outside [-8 .. 7] is an index error: on any array with
    at least one cell the mask is not built. *)
Theorem quality_mask_bad_bit_raises
    (da : DataArray) (mask_bits : list Z) (b : Z) (i j : nat) (p : pixel) :
  In b mask_bits -> (b < -8 \/ 8 <= b)%Z ->
  cell_at (da_values da) i j = Some p ->
  cell_mask mask_bits (astype_uint8 p) = None /\
  compute_quality_mask da mask_bits = None.
Proof.
  intros Hb Hout Hp.
  assert (Hcell : forall v, cell_mask mask_bits v = None).
  { intros v. unfold cell_mask.
    rewrite (mapM_None_In _ _ b Hb (unpackbits_little_index_out v b Hout)).
    reflexivity. }
  split; [apply Hcell|].
  unfold compute_quality_mask. destruct (concat (da_values da)); [reflexivity|].
  apply cell_at_elem in Hp as (r & Hr & Hpr).
  apply (mapM_None_In _ _ r Hr). apply (mapM_None_In _ _ p Hpr). apply Hcell.
Qed.

Lemma quality_mask_bad_bit_raises_witness :
  In 8%Z [1; 8]%Z /\ (8 < -8 \/ 8 <= 8)%Z /\
  cell_at (da_values demo_fmask) 0 0 = Some (Some (inject_Z 10)) /\
  cell_mask [1; 8]%Z (astype_uint8 (Some (inject_Z 10))) = None /\
  compute_quality_mask demo_fmask [1; 8]%Z = None.
Proof.
  assert (H1 : In 8%Z [1; 8]%Z) by (simpl; auto).
  assert (H2 : (8 < -8 \/ 8 <= 8)%Z) by lia.
  split; [exact H1|]. split; [exact H2|]. split; [reflexivity|].
  exact (quality_mask_bad_bit_raises demo_fmask [1; 8]%Z 8 0 0 _ H1 H2 eq_refl).
Defined.

Lemma mapM_app_option {A B} (f : A -> option B) (l1 l2 : list A) :
  mapM f (l1 ++ l2) =
    match mapM f l1, mapM f l2 with
    | Some k1, Some k2 => Some (k1 ++ k2)
    | _, _ => None
    end.
Proof.
  induction l1 as [|a l1 IH]; simpl.
  - destruct (mapM f l2); reflexivity.
  - destruct (f a) as [b|]; simpl; [|reflexivity].
    rewrite IH. destruct (mapM f l1), (mapM f l2); reflexivity.
Qed.

Lemma prod_is_zero_app (s1 s2 : list Z) :
  prod_is_zero (s1 ++ s2) = (prod_is_zero s1 * prod_is_zero s2)%Z.
Proof.
  unfold prod_is_zero. induction s1 as [|b s1 IH]; simpl.
  - destruct (fold_right Z.mul 1%Z _); reflexivity.
  - rewrite map_app, fold_right_app in *. rewrite IH. apply Z.mul_assoc.
Qed.

(** Masking on two lists of positions at once is the product of the two
    masks, and fails when either fails: positions combine as a logical
    and, in whichever order they are listed. *)
Theorem quality_mask_combines (bits1 bits2 : list Z) (v : Z) :
  cell_mask (bits1 ++ bits2) v =
    match cell_mask bits1 v, cell_mask bits2 v with
    | Some m1, Some m2 => Some (m1 * m2)%Z
    | _, _ => None
    end /\
  cell_mask (bits1 ++ bits2) v = cell_mask (bits2 ++ bits1) v.
Proof.
  assert (H : forall b1 b2,
             cell_mask (b1 ++ b2) v =
               match cell_mask b1 v, cell_mask b2 v with
               | Some m1, Some m2 => Some (m1 * m2)%Z
               | _, _ => None
               end).
  { intros b1 b2. unfold cell_mask. rewrite mapM_app_option.
    destruct (mapM _ b1) as [s1|]; [|reflexivity].
    destruct (mapM _ b2) as [s2|]; [|reflexivity].
    rewrite prod_is_zero_app. reflexivity. }
  split; [apply H|]. rewrite !H.
  destruct (cell_mask bits1 v), (cell_mask bits2 v); try reflexivity.
  rewrite Z.mul_comm. reflexivity.
Qed.

Lemma testbit_14 (n : Z) :
  Z.testbit 14 n = ((n =? 1) || (n =? 2) || (n =? 3))%Z.
Proof.
  destruct (Z_lt_le_dec n 0) as [Hn|Hn].
  - rewrite Z.testbit_neg_r by lia.
    destruct (Z.eqb_spec n 1), (Z.eqb_spec n 2), (Z.eqb_spec n 3); try lia; reflexivity.
  - destruct (Z_lt_le_dec n 4) as [H4|H4].
    + assert (n = 0 \/ n = 1 \/ n = 2 \/ n = 3)%Z as [->|[->|[->| ->]]] by lia;
        reflexivity.
    + rewrite Z.bits_above_log2 by (try lia; change (Z.log2 14) with 3%Z; lia).
      destruct (Z.eqb_spec n 1), (Z.eqb_spec n 2), (Z.eqb_spec n 3); try lia; reflexivity.
Qed.

Lemma land_14_zero (v : Z) :
  Z.land v 14 = 0%Z <->
  Z.testbit v 1 = false /\ Z.testbit v 2 = false /\ Z.testbit v 3 = false.
Proof.
  split.
  - intros H.
    assert (Hb : forall n, Z.testbit v n && Z.testbit 14 n = false).
    { intros n. rewrite <- Z.land_spec, H. apply Z.bits_0. }
    pose proof (Hb 1%Z) as H1. pose proof (Hb 2%Z) as H2. pose proof (Hb 3%Z) as H3.
    rewrite testbit_14 in H1, H2, H3. simpl in *.
    rewrite andb_true_r in H1, H2, H3. auto.
  - intros (H1 & H2 & H3). apply Z.bits_inj'. intros n Hn.
    rewrite Z.land_spec, Z.bits_0, testbit_14.
    destruct (Z.eqb_spec n 1) as [->|]; [rewrite H1; reflexivity|].
    destruct (Z.eqb_spec n 2) as [->|]; [rewrite H2; reflexivity|].
    destruct (Z.eqb_spec n 3) as [->|]; [rewrite H3; reflexivity|].
    apply andb_false_r.
Qed.

Lemma default_mask_low_byte (v : Z) :
  cell_mask default_mask_bits (astype_uint8 (Some (inject_Z v))) =
    Some (if (Z.land v 14 =? 0)%Z then 1%Z else 0%Z).
Proof.
  assert (Hu : astype_uint8 (Some (inject_Z v)) = (v mod 2 ^ 8)%Z).
  { unfold astype_uint8, inject_Z. simpl. rewrite Z.quot_1_r. reflexivity. }
  rewrite Hu.
  assert (Hbits : forall b, In b default_mask_bits -> (0 <= b < 8)%Z)
    by (unfold default_mask_bits; simpl; intros b Hb; intuition lia).
  unfold cell_mask. rewrite (select_bits _ _ Hbits). f_equal.
  destruct (prod_is_zero_bits (v mod 2 ^ 8)%Z default_mask_bits) as [H01 Hiff].
  simpl in H01, Hiff.
  assert (Hlow : forall b, In b default_mask_bits ->
                           Z.testbit (v mod 2 ^ 8)%Z b = Z.testbit v b).
  { intros b Hb. apply Z.mod_pow2_bits_low. specialize (Hbits b Hb). lia. }
  destruct (Z.eqb_spec (Z.land v 14) 0) as [E|E].
  - apply Hiff. apply land_14_zero in E as (H1 & H2 & H3).
    intros b Hb. rewrite (Hlow b Hb).
    unfold default_mask_bits in Hb. simpl in Hb.
    destruct Hb as [<-|[<-|[<-|[]]]]; assumption.
  - destruct H01 as [H0|H1]; [exact H0|]. exfalso. apply E, land_14_zero.
    pose proof (proj1 Hiff H1) as Hall.
    repeat split; rewrite <- Hlow; try apply Hall;
      unfold default_mask_bits; simpl; auto.
Qed.

(** With the default positions the mask of a stored byte [v] depends on
    its bits 1, 2 and 3 alone: the cell is usable exactly when
    [v & 0b1110] is zero, whatever bits 0 and 4 to 7 are. *)
Theorem default_mask_bits_only (v : Z) :
  (0 <= v < 256)%Z ->
  cell_mask default_mask_bits (astype_uint8 (Some (inject_Z v))) =
    Some (if (Z.land v 14 =? 0)%Z then 1%Z else 0%Z).
Proof. intros _. apply default_mask_low_byte. Qed.

Lemma default_mask_bits_only_witness :
  (0 <= 241 < 256)%Z /\
  cell_mask default_mask_bits (astype_uint8 (Some (inject_Z 241))) = Some 1%Z.
Proof.
  split; [lia|]. exact (default_mask_bits_only 241 ltac:(lia)).
Defined.

End Raster.


(* ===================================================================== *)
(** ** 4. Frames: the pandas operations the pipeline uses *)
(* ===================================================================== *)

Module Pandas.

(** A pandas frame: the rows with their index labels. *)
Definition DataFrame (R : Type) := list (nat * R).

(** A one-row frame built from columns of length one has index [0]. *)
Definition single_row_frame {R} (r : R) : DataFrame R := [(0%nat, r)].

(** [row.to_frame().T]: a one-row frame that keeps the row's label. *)
Definition to_frame_T {R} (ir : nat * R) : DataFrame R := [ir].

(** [pd.concat(frames)]: raises on an empty list. *)
Definition pd_concat {R} (frames : list (DataFrame R)) : option (DataFrame R) :=
  match frames with
  | [] => None
  | _ => Some (concat frames)
  end.

(** [df.reset_index(drop=True)] *)
Definition reset_index {R} (df : DataFrame R) : DataFrame R :=
  zip (seq 0 (length df)) (map snd df).

Lemma filter_all {A} (p : A -> bool) (l : list A) :
  Forall (fun a => p a = true) l -> List.filter p l = l.
Proof.
  induction 1 as [|a l Ha _ IH]; simpl; [reflexivity|].
  rewrite Ha, IH. reflexivity.
Qed.

(** [df.groupby(key)]: one group per distinct key, the keys in ascending
    order, the rows of a group in their order in the frame. *)
Section GroupBy.
Context {R K : Type} `{EqDecision K}.
Variable key : R -> K.
Variable leb : K -> K -> bool.

Fixpoint insert_key (k : K) (ks : list K) : list K :=
  match ks with
  | [] => [k]
  | k' :: rest => if leb k k' then k :: ks else k' :: insert_key k rest
  end.

(** The distinct keys, sorted. *)
Definition sorted_keys (df : DataFrame R) : list K :=
  foldr insert_key [] (remove_dups (map (fun ir => key (snd ir)) df)).

Definition group_of (df : DataFrame R) (k : K) : DataFrame R :=
  List.filter (fun ir => bool_decide (key (snd ir) = k)) df.

Definition groupby (df : DataFrame R) : list (K * DataFrame R) :=
  map (fun k => (k, group_of df k)) (sorted_keys df).

Lemma insert_key_perm k ks : Permutation (insert_key k ks) (k :: ks).
Proof.
  induction ks as [|k' ks IH]; simpl; [reflexivity|].
  destruct (leb k k'); [reflexivity|].
  rewrite IH. apply perm_swap.
Qed.

Lemma sorted_keys_perm df :
  Permutation (sorted_keys df) (remove_dups (map (fun ir => key (snd ir)) df)).
Proof.
  unfold sorted_keys. induction (remove_dups _) as [|k ks IH]; simpl; [reflexivity|].
  rewrite insert_key_perm, IH. reflexivity.
Qed.

Lemma sorted_keys_NoDup df : NoDup (sorted_keys df).
Proof. rewrite sorted_keys_perm. apply NoDup_remove_dups. Qed.

Lemma sorted_keys_elem df k :
  k ∈ sorted_keys df <-> exists ir, ir ∈ df /\ key (snd ir) = k.
Proof.
  rewrite sorted_keys_perm, elem_of_remove_dups, list_elem_of_fmap.
  split; intros (ir & H1 & H2); exists ir; auto.
Qed.

Lemma group_of_elem df k ir :
  ir ∈ group_of df k <-> ir ∈ df /\ key (snd ir) = k.
Proof.
  unfold group_of. rewrite !list_elem_of_In, filter_In, bool_decide_eq_true.
  reflexivity.
Qed.

(** The groups partition the frame. *)
Lemma group_partition (df : DataFrame R) (ks : list K) :
  NoDup ks ->
  Permutation (concat (map (group_of df) ks))
              (List.filter (fun ir => bool_decide (key (snd ir) ∈ ks)) df).
Proof.
  induction 1 as [|k ks Hnin Hnd IH]; cbn [concat map].
  - induction df as [|ir df IHdf]; cbn [List.filter]; [reflexivity|].
    rewrite bool_decide_eq_false_2 by apply not_elem_of_nil. exact IHdf.
  - rewrite IH. clear IH. unfold group_of.
    induction df as [|ir df IHdf]; cbn [List.filter]; [reflexivity|].
    destruct (decide (key (snd ir) = k)) as [E|E].
    + rewrite (bool_decide_eq_true_2 _ E).
      rewrite (bool_decide_eq_true_2 (key (snd ir) ∈ k :: ks))
        by (rewrite E; apply list_elem_of_here).
      rewrite (bool_decide_eq_false_2 (key (snd ir) ∈ ks)) by (rewrite E; exact Hnin).
      cbn [app]. f_equiv. exact IHdf.
    + rewrite (bool_decide_eq_false_2 _ E).
      destruct (decide (key (snd ir) ∈ ks)) as [Hin|Hin].
      * rewrite (bool_decide_eq_true_2 _ Hin).
        rewrite (bool_decide_eq_true_2 (key (snd ir) ∈ k :: ks))
          by (apply list_elem_of_further, Hin).
        rewrite <- Permutation_middle. f_equiv. exact IHdf.
      * rewrite (bool_decide_eq_false_2 _ Hin).
        rewrite (bool_decide_eq_false_2 (key (snd ir) ∈ k :: ks))
          by (rewrite elem_of_cons; tauto).
        exact IHdf.
Qed.

Lemma groupby_partition (df : DataFrame R) :
  Permutation (concat (map snd (groupby df))) df.
Proof.
  unfold groupby. rewrite map_map. simpl.
  rewrite (group_partition df _ (sorted_keys_NoDup df)).
  rewrite filter_all; [reflexivity|].
  apply List.Forall_forall. intros ir Hin. apply bool_decide_eq_true.
  apply sorted_keys_elem. exists ir. split; [apply list_elem_of_In, Hin|reflexivity].
Qed.

Lemma groupby_elem (df : DataFrame R) k g :
  In (k, g) (groupby df) <-> k ∈ sorted_keys df /\ g = group_of df k.
Proof.
  unfold groupby. rewrite in_map_iff. split.
  - intros (k' & E & Hin). inversion E; subst.
    split; [apply list_elem_of_In, Hin|reflexivity].
  - intros [Hin ->]. exists k. split; [reflexivity|apply list_elem_of_In, Hin].
Qed.



Lemma groupby_keys (df : DataFrame R) : map fst (groupby df) = sorted_keys df.
Proof. unfold groupby. rewrite map_map. simpl. apply map_id. Qed.

(** For a total and transitive order the keys come out ascending. *)
Lemma insert_key_sorted k ks :
  (forall a b, leb a b = true \/ leb b a = true) ->
  (forall a b c, leb a b = true -> leb b c = true -> leb a c = true) ->
  StronglySorted (fun a b => leb a b = true) ks ->
  StronglySorted (fun a b => leb a b = true) (insert_key k ks).
Proof.
  intros Htot Htrans. induction 1 as [|h t Hs IH Hall]; simpl.
  - constructor; constructor.
  - destruct (leb k h) eqn:E.
    + constructor; [constructor; assumption|].
      constructor; [exact E|].
      eapply Forall_impl; [exact Hall|]. simpl. intros a Ha. eapply Htrans; eassumption.
    + constructor; [exact IH|].
      rewrite insert_key_perm. constructor; [|exact Hall].
      destruct (Htot h k) as [H|H]; [exact H|congruence].
Qed.

Lemma sorted_keys_sorted (df : DataFrame R) :
  (forall a b, leb a b = true \/ leb b a = true) ->
  (forall a b c, leb a b = true -> leb b c = true -> leb a c = true) ->
  StronglySorted (fun a b => leb a b = true) (sorted_keys df).
Proof.
  intros Htot Htrans. unfold sorted_keys.
  induction (remove_dups _) as [|k ks IH]; simpl; [constructor|].
  apply insert_key_sorted; assumption.
Qed.

End GroupBy.

Lemma reset_index_index {R} (df : DataFrame R) :
  map fst (reset_index df) = seq 0 (length df).
Proof.
  unfold reset_index. apply fst_zip.
  rewrite length_seq, length_map. reflexivity.
Qed.

Lemma reset_index_rows {R} (df : DataFrame R) :
  map snd (reset_index df) = map snd df.
Proof.
  unfold reset_index. apply snd_zip.
  rewrite length_seq, length_map. reflexivity.
Qed.

Lemma reset_index_length {R} (df : DataFrame R) :
  length (reset_index df) = length df.
Proof.
  rewrite <- (length_map fst), reset_index_index, length_seq. reflexivity.
Qed.

Lemma concat_single_rows {R} (rows : list R) :
  map snd (concat (map single_row_frame rows)) = rows.
Proof.
  induction rows as [|r rows IH]; simpl; [reflexivity|]. f_equal. exact IH.
Qed.

Lemma filter_nothing {A} (p : A -> bool) (l : list A) :
  (forall a, In a l -> p a = false) -> List.filter p l = [].
Proof.
  induction l as [|a l IH]; simpl; intros H; [reflexivity|].
  rewrite (H a (or_introl eq_refl)). apply IH. intros b Hb. apply H. auto.
Qed.

(** After [reset_index] a label is the position of its row. *)
Lemma reset_index_lookup {R} (df : DataFrame R) (i : nat) (r : R) :
  In (i, r) (reset_index df) -> reset_index df !! i = Some (i, r).
Proof.
  intros Hin. apply list_elem_of_In, list_elem_of_lookup in Hin as [k Hk].
  assert (Hfst : map fst (reset_index df) !! k = Some i).
  { rewrite list_lookup_fmap, Hk. reflexivity. }
  rewrite reset_index_index in Hfst.
  apply lookup_seq in Hfst as [E _]. simpl in E. subst k. exact Hk.
Qed.

Lemma reset_index_NoDup {R} (df : DataFrame R) : NoDup (map fst (reset_index df)).
Proof. rewrite reset_index_index. apply NoDup_seq. Qed.

End Pandas.


(* ===================================================================== *)
(** ** 5. Granule link resolver: [get_earthaccess_links] *)
(* ===================================================================== *)

Module Links.
Import Regex Raster Pandas.

(** The (longitude, latitude) pairs read from [Boundary.Points]. *)
Definition Points := list (Q * Q).

(** A [shapely.geometry.Polygon], kept as the points it was built from. *)
Definition Polygon := list (Q * Q).

Definition same_point (a b : Q * Q) : bool :=
  Qeq_bool (fst a) (fst b) && Qeq_bool (snd a) (snd b).

(** Whether the last point repeats the first. *)
Definition ring_closed (points : Points) : bool :=
  match points with
  | [] => true
  | first :: _ => same_point first (List.last points first)
  end.

(** [Polygon(points)] as shapely 2 builds it: no point gives the empty
    polygon; otherwise the ring is closed with its first point unless the
    last point repeats it, and a ring that has fewer than four coordinates
    then is refused with a [ValueError]. So one or two points always
    raise, and three points raise when the third repeats the first. *)
Definition shapely_Polygon (points : Points) : option Polygon :=
  match points with
  | [] => Some []
  | _ =>
      let coordinates :=
        (length points + (if ring_closed points then 0 else 1))%nat in
      if (coordinates <? 4)%nat then None else Some points
  end.

(** One search result. A field is [None] when a key on the path to it is
    missing from the [umm] dictionary (or, for the timestamp, when
    [pd.to_datetime] rejects it). [GPolygons] holds the points of each
    polygon of the spatial extent. [data_files] is what
    [earthaccess.open([granule])] returns. *)
Record Granule := mkGranule {
  GranuleUR : option string;
  BeginningDateTime : option Z;
  GPolygons : option (list Points);
  data_files : list GeoTiff
}.

(** A row of the link table. *)
Record Row := mkRow {
  datetime : Z;
  tile_id : string;
  band : string;
  url : GeoTiff;
  geometry : Polygon
}.

(** The inner loop over the files of one granule. *)
Definition file_rows (dt : Z) (geom : Polygon) (files : list GeoTiff) : list Row :=
  omap (fun file =>
          match url_match (full_name file) with
          | Some (t, b) =>
              Some {| datetime := dt; tile_id := t; band := b;
                      url := file; geometry := geom |}
          | None => None
          end) files.

(** The body of the loop over granules: the metadata look-ups, then the
    rows of the granule's files. *)
Definition granule_rows (granule : Granule) : option (list Row) :=
  match GranuleUR granule with
  | None => None
  | Some granule_id =>
      match BeginningDateTime granule with
      | None => None
      | Some dt =>
          match GPolygons granule with
          | Some (points :: _) =>
              match shapely_Polygon points with
              | Some geometry => Some (file_rows dt geometry (data_files granule))
              | None => None
              end
          | _ => None
          end
      end
  end.

Definition get_earthaccess_links (results : list Granule) : option (DataFrame Row) :=
  match mapM granule_rows results with
  | None => None
  | Some per_granule =>
      match pd_concat (map single_row_frame (concat per_granule)) with
      | Some file_df => Some (reset_index file_df)
      | None => None
      end
  end.

(** The points of the first polygon of a granule. *)
Definition first_ring (granule : Granule) : option Points :=
  match GPolygons granule with
  | Some (points :: _) => Some points
  | _ => None
  end.

(** The footprint a granule's rows carry. *)
Definition footprint (granule : Granule) : option Polygon :=
  match GPolygons granule with
  | Some (points :: _) => shapely_Polygon points
  | _ => None
  end.

(** *** Rows against files *)

Definition matches_url (file : GeoTiff) : bool :=
  match url_match (full_name file) with
  | Some _ => true
  | None => false
  end.

Lemma matches_url_true (file : GeoTiff) :
  matches_url file = true <-> contains_grammar (full_name file).
Proof.
  rewrite <- url_match_iff. unfold matches_url.
  destruct (url_match (full_name file)); split; eauto; try discriminate.
  intros [x Hx]. discriminate.
Qed.

Lemma file_rows_url dt geom files :
  map url (file_rows dt geom files) = List.filter matches_url files.
Proof.
  unfold file_rows. induction files as [|f files IH]; simpl; [reflexivity|].
  unfold matches_url. destruct (url_match (full_name f)) as [[t b]|]; simpl.
  - f_equal. exact IH.
  - exact IH.
Qed.

Lemma file_rows_fields dt geom files :
  Forall (fun r => datetime r = dt /\ geometry r = geom /\
                   url_match (full_name (url r)) = Some (tile_id r, band r))
         (file_rows dt geom files).
Proof.
  unfold file_rows. induction files as [|f files IH]; simpl; [constructor|].
  destruct (url_match (full_name f)) as [[t b]|] eqn:E; simpl; [|exact IH].
  constructor; [|exact IH]. simpl. auto.
Qed.

Lemma granule_rows_inv (g : Granule) (rows : list Row) :
  granule_rows g = Some rows ->
  exists id dt points,
    GranuleUR g = Some id /\ BeginningDateTime g = Some dt /\
    footprint g = Some points /\
    rows = file_rows dt points (data_files g).
Proof.
  unfold granule_rows, footprint. intros H.
  destruct (GranuleUR g) as [id|]; [|discriminate].
  destruct (BeginningDateTime g) as [dt|]; [|discriminate].
  destruct (GPolygons g) as [[|points rest]|]; try discriminate.
  destruct (shapely_Polygon points) as [geom|]; [|discriminate].
  inversion H; subst. eauto 8.
Qed.

Lemma get_earthaccess_links_inv results file_df :
  get_earthaccess_links results = Some file_df ->
  exists per_granule,
    mapM granule_rows results = Some per_granule /\
    concat per_granule <> [] /\
    file_df = reset_index (concat (map single_row_frame (concat per_granule))).
Proof.
  unfold get_earthaccess_links. intros H.
  destruct (mapM granule_rows results) as [per|]; [|discriminate].
  exists per. split; [reflexivity|].
  destruct (concat per) as [|r rows]; [discriminate|].
  split; [discriminate|]. simpl in H. inversion H; subst. reflexivity.
Qed.

(** The resolver returns a table as soon as every granule has its
    metadata and some file of some granule matches the pattern. *)
Lemma granule_rows_returns (g : Granule) :
  is_Some (GranuleUR g) -> is_Some (BeginningDateTime g) -> is_Some (footprint g) ->
  exists dt points,
    BeginningDateTime g = Some dt /\ footprint g = Some points /\
    granule_rows g = Some (file_rows dt points (data_files g)).
Proof.
  unfold granule_rows, footprint. intros [id ->] [dt ->] [pts Hp].
  destruct (GPolygons g) as [[|points rest]|]; try discriminate.
  rewrite Hp. eauto.
Qed.

Lemma file_rows_nonempty dt geom files :
  Exists (fun f => contains_grammar (full_name f)) files ->
  file_rows dt geom files <> [].
Proof.
  intros H E. apply (f_equal (map url)) in E. rewrite file_rows_url in E.
  apply List.Exists_exists in H as (f & Hin & Hf).
  apply matches_url_true in Hf.
  assert (Hin' : In f (List.filter matches_url files)) by (apply filter_In; auto).
  rewrite E in Hin'. destruct Hin'.
Qed.

Lemma get_earthaccess_links_returns (results : list Granule) :
  Forall (fun g => is_Some (GranuleUR g) /\ is_Some (BeginningDateTime g) /\
                   is_Some (footprint g)) results ->
  Exists (fun g => Exists (fun f => contains_grammar (full_name f)) (data_files g))
         results ->
  is_Some (get_earthaccess_links results).
Proof.
  intros Hmeta Hfile.
  assert (Hper : exists per, mapM granule_rows results = Some per /\ concat per <> []).
  { induction Hmeta as [|g gs (H1 & H2 & H3) Hgs IH].
    - inversion Hfile.
    - destruct (granule_rows_returns g H1 H2 H3) as (dt & pts & _ & _ & Hg).
      assert (Hrest : exists per', mapM granule_rows gs = Some per').
      { clear -Hgs. induction Hgs as [|g' gs' (H1 & H2 & H3) _ [per' IH']].
        - exists []. reflexivity.
        - destruct (granule_rows_returns g' H1 H2 H3) as (dt & pts & _ & _ & Hg').
          exists (file_rows dt pts (data_files g') :: per').
          apply mapM_Some. constructor; [exact Hg'|apply mapM_Some, IH']. }
      destruct Hrest as [per' Hper'].
      exists (file_rows dt pts (data_files g) :: per'). split.
      + apply mapM_Some. constructor; [exact Hg|apply mapM_Some, Hper'].
      + inversion Hfile as [? ? Hhere|? ? Hthere]; subst.
        * simpl. intros E. apply app_eq_nil in E as [E _].
          exact (file_rows_nonempty _ _ _ Hhere E).
        * destruct (IH Hthere) as (per2 & Hper2 & Hne).
          assert (per2 = per') by congruence. subst per2.
          simpl. intros E. apply app_eq_nil in E as [_ E]. exact (Hne E). }
  destruct Hper as (per & Hper & Hne).
  unfold get_earthaccess_links. rewrite Hper.
  destruct (concat per) as [|r rows] eqn:E; [congruence|]. simpl. eauto.
Qed.

(** The files of a search all have ASCII names. *)
Definition ascii_files (files : list GeoTiff) : Prop :=
  Forall (fun f => ascii_name (full_name f)) files.

Definition ascii_results (results : list Granule) : Prop :=
  Forall (fun g => ascii_files (data_files g)) results.

(** C7, as the code has it, for names made of ASCII characters. [url_re] is
    applied with [re.search], so a name yields a tile identifier and a band
    code exactly when it contains a piece of the form
    [.<tile_id>.<digits>T<digits>.v<digit>.<digit>.<band>.tif], whatever
    precedes or follows that piece, and the two groups are the tile and
    band of such a piece; every name of the specification's grammar (one
    that ends with the piece) matches. The name
    [HLS.S30.T15RYN.2024180T163901.v2.0.B04.tif] gives tile [T15RYN] and band
    [B04]; the same name without [.tif], or without the version segment,
    gives no match. The rows of a granule are its matching files, in order,
    each with the tile and band extracted from its own name, so a file that
    does not match gets no row. *)
Theorem filename_matcher_grammar (name : string) :
  ascii_name name ->
  (is_Some (url_match name) <-> contains_grammar name) /\
  (forall t b,
     url_match name = Some (t, b) ->
     exists pre tile d1 d2 v1 v2 band post,
       chars name = pre ++ grammar_word tile d1 d2 v1 v2 band ++ post /\
       well_formed tile d1 d2 v1 v2 band /\
       t = string_of_list_ascii tile /\ b = string_of_list_ascii band) /\
  (spec_grammar name -> is_Some (url_match name)) /\
  url_match "HLS.S30.T15RYN.2024180T163901.v2.0.B04.tif" = Some ("T15RYN", "B04") /\
  url_match "HLS.S30.T15RYN.2024180T163901.v2.0.B04" = None /\
  url_match "HLS.S30.T15RYN.2024180T163901.B04.tif" = None /\
  (forall dt geom files,
     ascii_files files ->
     map url (file_rows dt geom files) = List.filter matches_url files /\
     Forall (fun r => url_match (full_name (url r)) = Some (tile_id r, band r))
            (file_rows dt geom files)) /\
  (forall dt geom files file,
     ascii_files files -> ascii_name (full_name file) ->
     url_match (full_name file) = None ->
     ~ In file (map url (file_rows dt geom files))).
Proof.
  intros _.
  split; [apply url_match_iff|].
  split; [intros t b; apply url_match_sound|].
  split; [intros H; apply url_match_iff, spec_grammar_contains, H|].
  split; [vm_compute; reflexivity|].
  split; [vm_compute; reflexivity|].
  split; [vm_compute; reflexivity|].
  split.
  - intros dt geom files _. split; [apply file_rows_url|].
    eapply Forall_impl; [apply file_rows_fields|]. simpl. intros r H. tauto.
  - intros dt geom files file _ _ Hnone Hin.
    rewrite file_rows_url in Hin. apply filter_In in Hin as [_ Hm].
    unfold matches_url in Hm. rewrite Hnone in Hm. discriminate.
Qed.

Lemma filename_matcher_grammar_witness :
  ascii_name "HLS.S30.T15RYN.2024180T163901.v2.0.B04.tif" /\
  (is_Some (url_match "HLS.S30.T15RYN.2024180T163901.v2.0.B04.tif") <->
   contains_grammar "HLS.S30.T15RYN.2024180T163901.v2.0.B04.tif") /\
  url_match "HLS.S30.T15RYN.2024180T163901.v2.0.B04.tif" = Some ("T15RYN", "B04").
Proof.
  split; [reflexivity|].
  destruct (filename_matcher_grammar "HLS.S30.T15RYN.2024180T163901.v2.0.B04.tif"
              eq_refl) as (H1 & _ & _ & H4 & _).
  split; assumption.
Defined.

(** C7, as stated, fails: an ASCII side-car name that carries the whole
    piece and then further text has no [.tif] extension and is not of the
    grammar [<anything>.<tile_id>.<timestamp>.v<version>.<band>.tif], yet
    the pattern matches it and a row is emitted for it. *)
Lemma filename_matcher_trailing_counterexample :
  ascii_name "HLS.S30.T15RYN.2024180T163901.v2.0.B04.tif.aux.xml" /\
  url_match "HLS.S30.T15RYN.2024180T163901.v2.0.B04.tif.aux.xml"
    = Some ("T15RYN", "B04") /\
  ~ spec_grammar "HLS.S30.T15RYN.2024180T163901.v2.0.B04.tif.aux.xml" /\
  length (file_rows 0 []
            [{| full_name := "HLS.S30.T15RYN.2024180T163901.v2.0.B04.tif.aux.xml";
                tif_crs := 0; tif_y := []; tif_x := []; tif_data := [];
                tif_nodata := None |}]) = 1%nat.
Proof.
  split; [reflexivity|].
  split; [vm_compute; reflexivity|]. split; [|vm_compute; reflexivity].
  intros H. apply spec_grammar_ends_tif in H as [body H].
  vm_compute in H. discriminate.
Qed.

(** C8. When [get_earthaccess_links] returns the link table, its rows are
    the rows of the granules, in order; a granule's rows all carry the
    granule's timestamp and footprint; a granule whose N files all match
    the pattern has exactly N rows, one per file; and the index of the
    table is [0 .. M-1] for its M rows. *)
Theorem link_table_complete (results : list Granule) (file_df : DataFrame Row) :
  get_earthaccess_links results = Some file_df ->
  (exists per_granule,
     Forall2 (fun g rows => granule_rows g = Some rows) results per_granule /\
     map snd file_df = concat per_granule) /\
  (forall g rows,
     In g results -> granule_rows g = Some rows ->
     Forall (fun r => Some (datetime r) = BeginningDateTime g /\
                      Some (geometry r) = footprint g) rows /\
     (Forall (fun f => contains_grammar (full_name f)) (data_files g) ->
      length rows = length (data_files g) /\ map url rows = data_files g)) /\
  map fst file_df = seq 0 (length file_df).
Proof.
  intros H. apply get_earthaccess_links_inv in H as (per & Hper & _ & ->).
  split; [|split].
  - exists per. split; [apply mapM_Some, Hper|].
    rewrite reset_index_rows. apply concat_single_rows.
  - intros g rows _ Hg.
    apply granule_rows_inv in Hg as (id & dt & pts & _ & Hdt & Hfp & ->).
    split.
    + eapply Forall_impl; [apply file_rows_fields|]. simpl.
      intros r (-> & -> & _). auto.
    + intros Hall.
      assert (Hurl : map url (file_rows dt pts (data_files g)) = data_files g).
      { rewrite file_rows_url. apply filter_all.
        eapply Forall_impl; [exact Hall|]. intros f. apply matches_url_true. }
      split; [|exact Hurl].
      rewrite <- Hurl at 2. rewrite length_map. reflexivity.
  - rewrite reset_index_index, reset_index_length. reflexivity.
Qed.

(** *** Further properties of the resolver *)

Lemma file_rows_matching dt geom files :
  file_rows dt geom files <> [] ->
  Exists (fun f => contains_grammar (full_name f)) files.
Proof.
  intros Hne. destruct (file_rows dt geom files) as [|r rows] eqn:E; [congruence|].
  assert (Hin : In (url r) (List.filter matches_url files)).
  { rewrite <- (file_rows_url dt geom), E. simpl. auto. }
  apply filter_In in Hin as [Hin Hm]. apply List.Exists_exists.
  exists (url r). split; [exact Hin|]. apply matches_url_true, Hm.
Qed.

Lemma granule_rows_meta (g : Granule) :
  is_Some (granule_rows g) <->
  is_Some (GranuleUR g) /\ is_Some (BeginningDateTime g) /\ is_Some (footprint g).
Proof.
  split.
  - intros [rows H]. apply granule_rows_inv in H as (id & dt & pts & -> & -> & -> & _).
    eauto.
  - intros (H1 & H2 & H3).
    destruct (granule_rows_returns g H1 H2 H3) as (dt & pts & _ & _ & ->). eauto.
Qed.

Lemma links_succeed_meta (results : list Granule) :
  is_Some (get_earthaccess_links results) <->
  Forall (fun g => is_Some (GranuleUR g) /\ is_Some (BeginningDateTime g) /\
                   is_Some (footprint g)) results /\
  Exists (fun g => Exists (fun f => contains_grammar (full_name f)) (data_files g))
         results.
Proof.
  split; [|intros [H1 H2]; apply get_earthaccess_links_returns; assumption].
  intros [df H]. apply get_earthaccess_links_inv in H as (per & Hper & Hne & _).
  apply mapM_Some in Hper. split.
  - clear Hne. induction Hper as [|g rows gs per Hg _ IH]; constructor; [|exact IH].
    apply granule_rows_meta. eauto.
  - induction Hper as [|g rows gs per Hg _ IH]; [contradiction|].
    simpl in Hne. destruct rows as [|r rows].
    + apply Exists_cons_tl, IH. exact Hne.
    + apply Exists_cons_hd.
      apply granule_rows_inv in Hg as (id & dt & pts & _ & _ & _ & E).
      apply (file_rows_matching dt pts). rewrite <- E. discriminate.
Qed.

(** A ring every version of shapely accepts: four points or more, or three
    points of which the last does not repeat the first. *)
Definition sound_ring (points : Points) : Prop :=
  (4 <= length points)%nat \/ (length points = 3%nat /\ ring_closed points = false).

Lemma shapely_Polygon_refuses (points : Points) :
  is_Some (shapely_Polygon points) ->
  length points <> 1%nat /\ length points <> 2%nat.
Proof.
  unfold shapely_Polygon. destruct points as [|a [|b [|c l]]]; simpl length.
  - intros _. lia.
  - destruct (ring_closed [a]); simpl; intros [x Hx]; discriminate.
  - destruct (ring_closed [a; b]); simpl; intros [x Hx]; discriminate.
  - intros _. lia.
Qed.

Lemma shapely_Polygon_accepts (points : Points) :
  sound_ring points -> shapely_Polygon points = Some points.
Proof.
  unfold sound_ring, shapely_Polygon. intros H.
  destruct points as [|a l]; [simpl in H; lia|].
  set (n := (length (a :: l) + _)%nat).
  assert (Hn : (4 <= n)%nat).
  { subst n. destruct H as [H|[H ->]]; [|lia].
    destruct (ring_closed (a :: l)); lia. }
  destruct (Nat.ltb_spec n 4); [lia|reflexivity].
Qed.

Lemma footprint_first_ring (g : Granule) :
  footprint g = first_ring g ≫= shapely_Polygon.
Proof.
  unfold footprint, first_ring. destruct (GPolygons g) as [[|points rest]|]; reflexivity.
Qed.

(** The resolver gives a whole table or none, on searches whose files have
    ASCII names. When it returns, every search result has its identifier,
    its start time and a first polygon that is not of one or two points,
    and some file of some result matches the pattern: one result with a
    missing field or with such a ring makes the whole call raise, and so
    does a search with no result or with no matching file. And it does
    return when every result has its identifier, its start time and a
    first polygon of at least four points, or of three with the last
    different from the first, and some file matches. *)
Theorem links_all_or_nothing (results : list Granule) :
  ascii_results results ->
  (is_Some (get_earthaccess_links results) ->
   Forall (fun g => is_Some (GranuleUR g) /\ is_Some (BeginningDateTime g) /\
                    exists points,
                      first_ring g = Some points /\
                      length points <> 1%nat /\ length points <> 2%nat) results /\
   Exists (fun g => Exists (fun f => contains_grammar (full_name f)) (data_files g))
          results) /\
  (Forall (fun g => is_Some (GranuleUR g) /\ is_Some (BeginningDateTime g) /\
                    exists points, first_ring g = Some points /\ sound_ring points)
          results ->
   Exists (fun g => Exists (fun f => contains_grammar (full_name f)) (data_files g))
          results ->
   is_Some (get_earthaccess_links results)).
Proof.
  intros _. split.
  - intros H. apply links_succeed_meta in H as [Hmeta Hfile]. split; [|exact Hfile].
    eapply Forall_impl; [exact Hmeta|]. simpl. intros g (H1 & H2 & H3).
    split; [exact H1|]. split; [exact H2|].
    rewrite footprint_first_ring in H3.
    destruct (first_ring g) as [points|]; [|destruct H3; discriminate].
    exists points. split; [reflexivity|]. apply shapely_Polygon_refuses, H3.
  - intros Hmeta Hfile. apply links_succeed_meta. split; [|exact Hfile].
    eapply Forall_impl; [exact Hmeta|]. simpl.
    intros g (H1 & H2 & points & Hr & Hs).
    split; [exact H1|]. split; [exact H2|].
    rewrite footprint_first_ring, Hr. simpl.
    rewrite (shapely_Polygon_accepts points Hs). eauto.
Qed.

Lemma chars_of_list (l : list ascii) : chars (string_of_list_ascii l) = l.
Proof. apply list_ascii_of_string_of_list_ascii. Qed.

Lemma file_rows_well_formed dt geom files :
  Forall (fun r => all_in is_word (chars (tile_id r)) /\
                   all_in is_alnum (chars (band r)) /\
                   contains_grammar (full_name (url r)))
         (file_rows dt geom files).
Proof.
  eapply Forall_impl; [apply file_rows_fields|]. simpl.
  intros r (_ & _ & Hm). split; [|split].
  - apply url_match_sound in Hm
      as (? & tile & ? & ? & ? & ? & ? & ? & _ & (Ht & _) & -> & _).
    rewrite chars_of_list. exact Ht.
  - apply url_match_sound in Hm
      as (? & ? & ? & ? & ? & ? & bnd & ? & _ & (_ & _ & _ & _ & _ & Hb) & _ & ->).
    rewrite chars_of_list. exact Hb.
  - apply url_match_iff. eauto.
Qed.

Lemma links_rows_ok (results : list Granule) (file_df : DataFrame Row) :
  get_earthaccess_links results = Some file_df ->
  Forall (fun ir => all_in is_word (chars (tile_id (snd ir))) /\
                    all_in is_alnum (chars (band (snd ir))) /\
                    contains_grammar (full_name (url (snd ir)))) file_df.
Proof.
  intros H. apply get_earthaccess_links_inv in H as (per & Hper & _ & ->).
  apply Forall_map with (f := snd)
    (P := fun r => all_in is_word (chars (tile_id r)) /\
                   all_in is_alnum (chars (band r)) /\
                   contains_grammar (full_name (url r))).
  rewrite reset_index_rows, concat_single_rows.
  apply mapM_Some in Hper. apply Forall_concat.
  induction Hper as [|g rows gs per' Hg _ IH]; constructor; [|exact IH].
  apply granule_rows_inv in Hg as (id & dt & pts & _ & _ & _ & ->).
  apply file_rows_well_formed.
Qed.

(** On a search whose files have ASCII names, every row of the link table
    has a tile identifier that is a non-empty run of ASCII letters, digits
    and underscores and a band code that is a non-empty run of ASCII
    letters and digits, both cut from the row's own file name, which
    contains the pattern. *)
Theorem link_rows_well_formed (results : list Granule) (file_df : DataFrame Row) :
  ascii_results results ->
  get_earthaccess_links results = Some file_df ->
  Forall (fun ir => all_in is_word (chars (tile_id (snd ir))) /\
                    all_in is_alnum (chars (band (snd ir))) /\
                    contains_grammar (full_name (url (snd ir)))) file_df.
Proof. intros _. exact (links_rows_ok results file_df). Qed.

End Links.


(* ===================================================================== *)
(** ** 6. Granule compositor: [compute_reflectance_da] *)
(* ===================================================================== *)

Module Reflectance.
Import Regex Raster Pandas Links.

(** A link-table row with the [da] column attached. *)
Record DaRow := mkDaRow {
  row : Row;
  da : DataArray
}.

(** [(minx, miny, maxx, maxy)] *)
Definition bounds := (Z * Z * Z * Z)%type.

(** Computations that may raise and that log every reprojection of the
    boundary (the target coordinate system of each [to_crs] call). *)
Definition M (A : Type) : Type := list Z -> option (A * list Z).

#[global] Instance M_ret : MRet M := fun A a log => Some (a, log).
#[global] Instance M_bind : MBind M := fun A B f m log =>
  match m log with
  | Some (a, log') => f a log'
  | None => None
  end.

Definition lift {A} (o : option A) : M A := fun log =>
  match o with
  | Some a => Some (a, log)
  | None => None
  end.

(** Ascending order of the group keys [(datetime, tile_id)]. *)
Definition key_leb (k1 k2 : Z * string) : bool :=
  (fst k1 <? fst k2)%Z || ((fst k1 =? fst k2)%Z && String.leb (snd k1) (snd k2)).

Definition granule_key (r : Row) : Z * string := (datetime r, tile_id r).

Section Compositor.
(** The watershed boundary and the library operations on it. *)
Context {Boundary : Type}.
Variable to_crs : Boundary -> Z -> Boundary.
Variable total_bounds : Boundary -> bounds.
(** [da.rio.clip_box(minx, miny, maxx, maxy)]; raises when nothing is left. *)
Variable clip_box : DataArray -> bounds -> option DataArray.

Variable boundary_gdf : Boundary.

Definition to_crs_logged (b : Boundary) (crs : Z) : M Boundary := fun log =>
  Some (to_crs b crs, log ++ [crs]).

(** The nested [open_dataarray]. The assignment to [boundary_proj_gdf]
    binds the function's own parameter: the caller's variable of the same
    name is not changed by it. A raster of a single row or column has lost
    that dimension to [squeeze()]; it still has its coordinate system, so
    the boundary is reprojected, and then [clip_box] raises. *)
Definition open_dataarray (url : GeoTiff) (boundary_proj_gdf : option Boundary)
    (scale : Q) (masked : bool) : M DataArray :=
  let opened := open_rasterio url masked in
  boundary_proj_gdf ← match boundary_proj_gdf with
                      | None => to_crs_logged boundary_gdf (da_crs opened)
                      | Some b => mret b
                      end;
  da ← lift (squeeze (scale_da scale opened));
  lift (clip_box da (total_bounds boundary_proj_gdf)).

(** [granule_df.loc[granule_df.band == 'Fmask', 'url'].values[0]] *)
Definition is_fmask (ir : nat * Row) : bool := String.eqb (band (snd ir)) "Fmask".

Definition cloud_mask_url (granule_df : DataFrame Row) : option GeoTiff :=
  head (map (fun ir => url (snd ir)) (List.filter is_fmask granule_df)).

(** [row.band.startswith('B')] *)
Definition is_spectral (ir : nat * Row) : bool := String.prefix "B" (band (snd ir)).

(** The loop over [granule_df.iterrows()]. *)
Fixpoint band_rows (boundary_proj_gdf : option Boundary) (cloud_mask : list (list Z))
    (rows : DataFrame Row) : M (DataFrame DaRow) :=
  match rows with
  | [] => mret []
  | (i, r) :: rest =>
      if is_spectral (i, r) then
        band_cropped ← open_dataarray (url r) boundary_proj_gdf (1 # 10000) true;
        let band_cropped := set_name (band r) band_cropped in
        masked_da ← lift (where_mask band_cropped cloud_mask);
        tail ← band_rows boundary_proj_gdf cloud_mask rest;
        mret ((i, {| row := r; da := masked_da |}) :: tail)
      else band_rows boundary_proj_gdf cloud_mask rest
  end.

(** The body of the loop over the groups. *)
Definition process_granule (boundary_proj_gdf : option Boundary)
    (granule_df : DataFrame Row) : M (DataFrame DaRow) :=
  cloud_mask_url ← lift (cloud_mask_url granule_df);
  cloud_mask_cropped_da ← open_dataarray cloud_mask_url boundary_proj_gdf 1 false;
  cloud_mask ← lift (compute_quality_mask cloud_mask_cropped_da default_mask_bits);
  band_rows boundary_proj_gdf cloud_mask granule_df.

Fixpoint for_each {A B} (f : A -> M (list B)) (l : list A) : M (list B) :=
  match l with
  | [] => mret []
  | a :: rest =>
      out ← f a;
      tail ← for_each f rest;
      mret (out ++ tail)
  end.

(** [compute_reflectance_da(search_results, boundary_gdf)], without the
    decorator. [boundary_proj_gdf] is set to [None] before the loop and is
    assigned nowhere else in this scope. *)
Definition compute_reflectance_da (search_results : list Granule)
  : M (DataFrame DaRow) :=
  file_df ← lift (get_earthaccess_links search_results);
  let boundary_proj_gdf : option Boundary := None in
  let group_iter := groupby granule_key key_leb file_df in
  granule_da_rows ← for_each (fun g => process_granule boundary_proj_gdf (snd g))
                             group_iter;
  lift (pd_concat (map to_frame_T granule_da_rows)).

(** *** Inversion of the monadic steps *)

Lemma bind_Some {A B} (m : M A) (f : A -> M B) log b log' :
  (m ≫= f) log = Some (b, log') ->
  exists a log1, m log = Some (a, log1) /\ f a log1 = Some (b, log').
Proof.
  unfold mbind, M_bind. destruct (m log) as [[a log1]|]; [eauto|discriminate].
Qed.

Lemma bind_None_l {A B} (m : M A) (f : A -> M B) log :
  m log = None -> (m ≫= f) log = None.
Proof. unfold mbind, M_bind. intros ->. reflexivity. Qed.

Lemma lift_Some {A} (o : option A) log a log' :
  lift o log = Some (a, log') -> o = Some a /\ log' = log.
Proof. unfold lift. destruct o; intros H; inversion H; auto. Qed.

Lemma ret_Some {A} (a a' : A) log log' :
  mret (M := M) a log = Some (a', log') -> a' = a /\ log' = log.
Proof. unfold mret, M_ret. intros H; inversion H; auto. Qed.

(** The raster of [url] read with [masked], scaled, and cropped to the
    bounds of the boundary reprojected into the raster's coordinate system;
    the raster has kept both its dimensions through [squeeze()]. *)
Definition loaded (url : GeoTiff) (scale : Q) (masked : bool) (cropped : DataArray)
  : Prop :=
  squeeze (scale_da scale (open_rasterio url masked))
    = Some (scale_da scale (open_rasterio url masked)) /\
  clip_box (scale_da scale (open_rasterio url masked))
           (total_bounds (to_crs boundary_gdf (tif_crs url))) = Some cropped.

(** Called without a reprojected boundary, [open_dataarray] reprojects. *)
Lemma open_dataarray_None url scale masked log cropped log' :
  open_dataarray url None scale masked log = Some (cropped, log') ->
  loaded url scale masked cropped /\ log' = log ++ [tif_crs url].
Proof.
  unfold open_dataarray. intros H.
  apply bind_Some in H as (b & log1 & Hb & H).
  unfold to_crs_logged in Hb. simpl in Hb. inversion Hb; subst.
  apply bind_Some in H as (d & log2 & Hd & H).
  apply lift_Some in Hd as [Hd ->].
  apply lift_Some in H as [H ->].
  assert (E : d = scale_da scale (open_rasterio url masked)).
  { unfold squeeze in Hd. destruct (_ || _); [discriminate|]. congruence. }
  subst d. split; [split; assumption|reflexivity].
Qed.

Definition strip (idr : nat * DaRow) : nat * Row := (fst idr, row (snd idr)).

(** What a row of the output carries, given the mask of its group. *)
Definition band_masked (mask : list (list Z)) (idr : nat * DaRow) : Prop :=
  exists band_da,
    loaded (url (row (snd idr))) (1 # 10000) true band_da /\
    where_mask (set_name (band (row (snd idr))) band_da) mask = Some (da (snd idr)).

Lemma band_rows_inv mask rows :
  forall log out log',
    band_rows None mask rows log = Some (out, log') ->
    map strip out = List.filter is_spectral rows /\
    Forall (band_masked mask) out /\
    length log' = (length log + length out)%nat.
Proof.
  induction rows as [|[i r] rows IH]; intros log out log' H; simpl in H.
  - apply ret_Some in H as [-> ->]. simpl. split; [reflexivity|].
    split; [constructor|lia].
  - cbn [List.filter]. destruct (is_spectral (i, r)) eqn:Hsp.
    + apply bind_Some in H as (band_cropped & log1 & Hopen & H).
      apply open_dataarray_None in Hopen as [Hload ->].
      apply bind_Some in H as (masked_da & log2 & Hw & H).
      apply lift_Some in Hw as [Hw ->].
      apply bind_Some in H as (tail & log3 & Ht & H).
      apply ret_Some in H as [-> ->].
      apply IH in Ht as (Hmap & Hall & Hlen).
      split; [simpl; unfold strip at 1; simpl; f_equal; exact Hmap|].
      split.
      * constructor; [|exact Hall]. exists band_cropped. simpl. auto.
      * rewrite Hlen, length_app. simpl. lia.
    + apply IH in H. exact H.
Qed.

Lemma cloud_mask_url_spec (granule_df : DataFrame Row) (fmask : GeoTiff) :
  cloud_mask_url granule_df = Some fmask ->
  exists ir, In ir granule_df /\ band (snd ir) = "Fmask" /\ url (snd ir) = fmask.
Proof.
  unfold cloud_mask_url. intros H.
  destruct (List.filter is_fmask granule_df) as [|ir rest] eqn:E; [discriminate|].
  simpl in H. inversion H; subst. exists ir.
  assert (Hin : In ir (List.filter is_fmask granule_df)) by (rewrite E; simpl; auto).
  apply filter_In in Hin as [Hin Hf]. unfold is_fmask in Hf.
  apply String.eqb_eq in Hf. auto.
Qed.

(** What a successful pass over one group has done. *)
Definition granule_output (granule_df : DataFrame Row) (out : DataFrame DaRow) : Prop :=
  exists fmask fmask_da mask,
    cloud_mask_url granule_df = Some fmask /\
    loaded fmask 1 false fmask_da /\
    compute_quality_mask fmask_da default_mask_bits = Some mask /\
    map strip out = List.filter is_spectral granule_df /\
    Forall (band_masked mask) out.

Lemma process_granule_inv granule_df log out log' :
  process_granule None granule_df log = Some (out, log') ->
  granule_output granule_df out /\
  length log' = (length log + 1 + length out)%nat.
Proof.
  unfold process_granule. intros H.
  apply bind_Some in H as (fmask & log1 & Hf & H).
  apply lift_Some in Hf as [Hf ->].
  apply bind_Some in H as (fmask_da & log2 & Hopen & H).
  apply open_dataarray_None in Hopen as [Hload ->].
  apply bind_Some in H as (mask & log3 & Hm & H).
  apply lift_Some in Hm as [Hm ->].
  apply band_rows_inv in H as (Hmap & Hall & Hlen).
  split.
  - exists fmask, fmask_da, mask. auto.
  - rewrite Hlen, length_app. simpl. lia.
Qed.

Lemma process_granule_no_fmask bp granule_df log :
  (forall ir, In ir granule_df -> band (snd ir) <> "Fmask") ->
  process_granule bp granule_df log = None.
Proof.
  intros H. unfold process_granule. apply bind_None_l.
  unfold cloud_mask_url.
  replace (List.filter is_fmask granule_df) with (@nil (nat * Row)); [reflexivity|].
  symmetry. induction granule_df as [|ir df IH]; simpl; [reflexivity|].
  unfold is_fmask at 1.
  destruct (String.eqb (band (snd ir)) "Fmask") eqn:E.
  - apply String.eqb_eq in E. exfalso. apply (H ir); simpl; auto.
  - apply IH. intros ir' Hin. apply H. simpl. auto.
Qed.

Lemma for_each_inv {A} (f : A -> M (DataFrame DaRow)) (P : A -> DataFrame DaRow -> Prop)
    (cost : nat) (l : list A) :
  (forall a log out log', f a log = Some (out, log') ->
     P a out /\ length log' = (length log + cost + length out)%nat) ->
  forall log out log',
    for_each f l log = Some (out, log') ->
    (exists outs, out = concat outs /\ Forall2 P l outs) /\
    length log' = (length log + cost * length l + length out)%nat.
Proof.
  intros Hf. induction l as [|a l IH]; intros log out log' H; simpl in H.
  - apply ret_Some in H as [-> ->]. split; [exists []; split; [reflexivity|constructor]|].
    simpl. lia.
  - apply bind_Some in H as (o & log1 & Ho & H).
    apply bind_Some in H as (tail & log2 & Ht & H).
    apply ret_Some in H as [-> ->].
    apply Hf in Ho as [HP Hlen1].
    apply IH in Ht as [(outs & -> & Hall) Hlen2].
    split.
    + exists (o :: outs). split; [reflexivity|constructor; assumption].
    + rewrite Hlen2, Hlen1, length_app. simpl. lia.
Qed.

Lemma for_each_fails {A B} (f : A -> M (list B)) (l : list A) (a : A) :
  In a l -> (forall log, f a log = None) ->
  forall log, for_each f l log = None.
Proof.
  intros Hin Hf. induction l as [|a' l IH]; [destruct Hin|].
  intros log. simpl. unfold mbind at 1, M_bind.
  destruct Hin as [->|Hin].
  - rewrite Hf. reflexivity.
  - destruct (f a' log) as [[o log1]|]; [|reflexivity].
    apply bind_None_l. apply IH, Hin.
Qed.

Lemma compute_reflectance_da_inv results log out log' :
  compute_reflectance_da results log = Some (out, log') ->
  exists file_df,
    get_earthaccess_links results = Some file_df /\
    for_each (fun g => process_granule None (snd g))
             (groupby granule_key key_leb file_df) log = Some (out, log').
Proof.
  unfold compute_reflectance_da. intros H.
  apply bind_Some in H as (file_df & log1 & Hl & H).
  apply lift_Some in Hl as [Hl ->].
  apply bind_Some in H as (rows & log2 & Hrows & H).
  apply lift_Some in H as [H ->].
  exists file_df. split; [exact Hl|].
  rewrite Hrows. f_equal. f_equal.
  unfold pd_concat in H. destruct rows as [|r rows]; [discriminate|].
  simpl in H. inversion H. f_equal.
  clear. induction rows as [|r' rows IH]; simpl; [reflexivity|]. f_equal. exact IH.
Qed.

Lemma strip_spectral (out : DataFrame DaRow) (rows : DataFrame Row) :
  map strip out = List.filter is_spectral rows ->
  Forall (fun idr => String.prefix "B" (band (row (snd idr))) = true /\
                     band (row (snd idr)) <> "Fmask" /\
                     In (strip idr) rows) out.
Proof.
  intros H. apply List.Forall_forall. intros idr Hin.
  assert (Hs : In (strip idr) (List.filter is_spectral rows)).
  { rewrite <- H. apply in_map, Hin. }
  apply filter_In in Hs as [Hrows Hsp]. unfold is_spectral, strip in Hsp. simpl in Hsp.
  split; [exact Hsp|]. split; [|exact Hrows].
  intros E. rewrite E in Hsp. discriminate.
Qed.

Lemma filter_concat {A} (p : A -> bool) (ls : list (list A)) :
  List.filter p (concat ls) = concat (map (List.filter p) ls).
Proof.
  induction ls as [|l ls IH]; simpl; [reflexivity|].
  rewrite List.filter_app, IH. reflexivity.
Qed.

Lemma filter_Permutation {A} (p : A -> bool) (l k : list A) :
  Permutation l k -> Permutation (List.filter p l) (List.filter p k).
Proof.
  induction 1 as [|x l k _ IH|x y l|l k m _ IH1 _ IH2]; simpl.
  - reflexivity.
  - destruct (p x); [constructor|]; exact IH.
  - destruct (p x), (p y); try reflexivity. apply perm_swap.
  - etransitivity; eassumption.
Qed.

(** C6. When [compute_reflectance_da] returns, every (datetime, tile) group
    of the link table was processed as follows: the group's first Fmask
    file was loaded with scale 1 and [masked=False] (so every cell is the
    stored count) and turned into the quality mask with the default bit
    positions; the group's output rows are exactly its rows whose band code
    starts with "B", in order, and each carries the raster of its own file
    loaded with scale 0.0001 and masked reading, with every cell whose mask
    is 0 set to missing and every other cell kept. Over the whole table the
    output rows are a rearrangement of the "B" rows; no Fmask row and no
    other row is among them. *)
Theorem reflectance_rows_masked
    (results : list Granule) (log : list Z)
    (out : DataFrame DaRow) (log' : list Z) :
  compute_reflectance_da results log = Some (out, log') ->
  exists file_df outs,
    get_earthaccess_links results = Some file_df /\
    out = concat outs /\
    Forall2
      (fun g o =>
         Forall (fun ir => granule_key (snd ir) = fst g) (snd g) /\
         exists fmask fmask_da mask,
           cloud_mask_url (snd g) = Some fmask /\
           (exists ir, In ir (snd g) /\ band (snd ir) = "Fmask" /\
                       url (snd ir) = fmask) /\
           loaded fmask 1 false fmask_da /\
           compute_quality_mask fmask_da default_mask_bits = Some mask /\
           map strip o = List.filter is_spectral (snd g) /\
           Forall
             (fun idr =>
                exists band_da,
                  loaded (url (row (snd idr))) (1 # 10000) true band_da /\
                  where_mask (set_name (band (row (snd idr))) band_da) mask
                    = Some (da (snd idr)) /\
                  shape (da_values (da (snd idr))) = shape mask /\
                  forall i j p m,
                    cell_at (da_values band_da) i j = Some p ->
                    cell_at mask i j = Some m ->
                    cell_at (da_values (da (snd idr))) i j =
                      Some (if (m =? 0)%Z then None else p)) o)
      (groupby granule_key key_leb file_df) outs /\
    Permutation (map strip out) (List.filter is_spectral file_df) /\
    Forall (fun idr => String.prefix "B" (band (row (snd idr))) = true /\
                       band (row (snd idr)) <> "Fmask" /\
                       In (strip idr) file_df) out /\
    (forall url i j,
       cell_at (da_values (scale_da 1 (open_rasterio url false))) i j =
         (fun raw => Some (inject_Z raw * 1)%Q) <$> cell_at (tif_data url) i j) /\
    (forall url i j,
       cell_at (da_values (scale_da (1 # 10000) (open_rasterio url true))) i j =
         (fun raw => match read_cell true (tif_nodata url) raw with
                     | Some q => Some (q * (1 # 10000))%Q
                     | None => None
                     end) <$> cell_at (tif_data url) i j).
Proof.
  intros H. apply compute_reflectance_da_inv in H as (file_df & Hlinks & H).
  apply (for_each_inv _ (fun g o => granule_output (snd g) o) 1) in H
    as [(outs & -> & Hall) _].
  2:{ intros a l o l' Ha. apply process_granule_inv in Ha as [Ha Hlen].
      split; [exact Ha|lia]. }
  assert (Hstrip : Forall2 (fun g o => map strip o = List.filter is_spectral (snd g))
                     (groupby granule_key key_leb file_df) outs).
  { eapply Forall2_impl; [exact Hall|]. simpl.
    intros g o (? & ? & ? & _ & _ & _ & Hs & _). exact Hs. }
  assert (Hmap : map strip (concat outs) =
                 List.filter is_spectral
                   (concat (map snd (groupby granule_key key_leb file_df)))).
  { rewrite filter_concat, concat_map, map_map. f_equal.
    clear Hall. induction Hstrip as [|g o gs os Hgo _ IH]; simpl; [reflexivity|].
    rewrite Hgo, IH. reflexivity. }
  exists file_df, outs. split; [exact Hlinks|]. split; [reflexivity|].
  split; [|split; [|split; [|split]]].
  - assert (Hgroups : Forall (fun g => Forall (fun ir => granule_key (snd ir) = fst g) (snd g))
                          (groupby granule_key key_leb file_df)).
    { apply List.Forall_forall. intros [k g] Hg. simpl.
      apply groupby_elem in Hg as [_ ->].
      apply List.Forall_forall. intros ir Hir.
      apply list_elem_of_In, group_of_elem in Hir. tauto. }
    clear Hstrip Hmap. induction Hall as [|g o gs os Hgo _ IH]; [constructor|].
    inversion Hgroups as [|? ? Hg Hgs]; subst.
    constructor; [|exact (IH Hgs)].
    destruct Hgo as (fmask & fmask_da & mask & Hu & Hl & Hm & Hs & Hb).
    split; [exact Hg|].
    exists fmask, fmask_da, mask. split; [exact Hu|].
    split; [exact (cloud_mask_url_spec _ _ Hu)|].
    repeat (split; [assumption|]).
    eapply Forall_impl; [exact Hb|]. simpl.
    intros idr (band_da & Hload & Hw). exists band_da.
    split; [exact Hload|]. split; [exact Hw|].
    split; [apply (where_mask_shape _ _ _ Hw)|].
    intros i j p m Hp Hm'.
    rewrite (where_mask_cell _ _ _ i j p m Hw Hp Hm'). reflexivity.
  - rewrite Hmap. apply filter_Permutation, groupby_partition.
  - apply strip_spectral in Hmap.
    eapply Forall_impl; [exact Hmap|]. simpl. intros idr (H1 & H2 & H3).
    split; [exact H1|]. split; [exact H2|].
    exact (Permutation_in _ (groupby_partition granule_key key_leb file_df) H3).
  - intros url0 i j. rewrite loaded_cell.
    destruct (cell_at (tif_data url0) i j); simpl; [|reflexivity].
    rewrite read_cell_raw. reflexivity.
  - intros url0 i j. rewrite loaded_cell. reflexivity.
Qed.

(** C9. If some (datetime, tile) group of the link table has no row with
    band code "Fmask", [compute_reflectance_da] raises: it returns no
    table, whatever the other groups hold. *)
Theorem missing_fmask_fails
    (results : list Granule) (file_df : DataFrame Row)
    (k : Z * string) (granule_df : DataFrame Row) (log : list Z) :
  get_earthaccess_links results = Some file_df ->
  In (k, granule_df) (groupby granule_key key_leb file_df) ->
  (forall ir, In ir granule_df -> band (snd ir) <> "Fmask") ->
  compute_reflectance_da results log = None.
Proof.
  intros Hlinks Hin Hno. unfold compute_reflectance_da.
  unfold mbind at 1, M_bind. unfold lift at 1. rewrite Hlinks.
  apply bind_None_l.
  apply (for_each_fails _ _ (k, granule_df) Hin).
  intros log0. simpl. apply process_granule_no_fmask, Hno.
Qed.

(** In any run that returns, every [open_dataarray] call reprojects the
    boundary: one reprojection per group (the Fmask file) and one per
    output row. *)
Theorem reprojection_per_open
    (results : list Granule) (log : list Z)
    (out : DataFrame DaRow) (log' : list Z) :
  compute_reflectance_da results log = Some (out, log') ->
  exists file_df,
    get_earthaccess_links results = Some file_df /\
    length log' =
      (length log + length (groupby granule_key key_leb file_df) + length out)%nat.
Proof.
  intros H. apply compute_reflectance_da_inv in H as (file_df & Hlinks & H).
  exists file_df. split; [exact Hlinks|].
  apply (for_each_inv _ (fun g o => granule_output (snd g) o) 1) in H as [_ Hlen].
  - lia.
  - intros a l o l' Ha. apply process_granule_inv in Ha as [Ha Hl].
    split; [exact Ha|lia].
Qed.

(** *** Further properties of the compositor *)

Lemma compute_reflectance_da_rows results log out log' :
  compute_reflectance_da results log = Some (out, log') ->
  exists file_df outs,
    get_earthaccess_links results = Some file_df /\
    out = concat outs /\ out <> [] /\
    Forall2 (fun g o => granule_output (snd g) o)
            (groupby granule_key key_leb file_df) outs /\
    Permutation (map strip out) (List.filter is_spectral file_df).
Proof.
  intros H.
  assert (Hne : out <> []).
  { unfold compute_reflectance_da in H.
    apply bind_Some in H as (file_df & log1 & _ & H).
    apply bind_Some in H as (rows & log2 & _ & H).
    apply lift_Some in H as [H _]. unfold pd_concat in H.
    destruct rows as [|r rows]; [discriminate|]. inversion H. discriminate. }
  apply compute_reflectance_da_inv in H as (file_df & Hlinks & H).
  apply (for_each_inv _ (fun g o => granule_output (snd g) o) 1) in H
    as [(outs & -> & Hall) _].
  2:{ intros a l o l' Ha. apply process_granule_inv in Ha as [Ha Hlen].
      split; [exact Ha|lia]. }
  exists file_df, outs. split; [exact Hlinks|]. split; [reflexivity|].
  split; [exact Hne|]. split; [exact Hall|].
  assert (Hmap : map strip (concat outs) =
                 List.filter is_spectral
                   (concat (map snd (groupby granule_key key_leb file_df)))).
  { rewrite filter_concat, concat_map, map_map. f_equal.
    clear Hne. induction Hall as [|g o gs os Hgo _ IH]; simpl; [reflexivity|].
    destruct Hgo as (? & ? & ? & _ & _ & _ & Hs & _).
    rewrite Hs, IH. reflexivity. }
  rewrite Hmap. apply filter_Permutation, groupby_partition.
Qed.

Lemma filter_fst_NoDup {A} (p : nat * A -> bool) (l : list (nat * A)) :
  NoDup (map fst l) -> NoDup (map fst (List.filter p l)).
Proof.
  induction l as [|[i a] l IH]; simpl; intros H; [constructor|].
  apply NoDup_cons in H as [Hnin Hnd].
  destruct (p (i, a)); simpl; [|apply IH, Hnd].
  apply NoDup_cons. split; [|apply IH, Hnd].
  intros Hin. apply Hnin.
  apply list_elem_of_fmap in Hin as ([i' a'] & E & Hin). simpl in E. subst i'.
  apply list_elem_of_In, filter_In in Hin as [Hin _].
  apply list_elem_of_fmap. exists (i, a'). split; [reflexivity|].
  apply list_elem_of_In, Hin.
Qed.

(** The output keeps the index labels of the link table: labels are not
    renumbered, no label occurs twice, and the row labelled [i] is the
    link-table row at position [i]. *)
Theorem output_keeps_labels
    (results : list Granule) (log : list Z)
    (out : DataFrame DaRow) (log' : list Z) :
  compute_reflectance_da results log = Some (out, log') ->
  exists file_df,
    get_earthaccess_links results = Some file_df /\
    NoDup (map fst out) /\
    Forall (fun idr => file_df !! fst idr = Some (fst idr, row (snd idr))) out.
Proof.
  intros H. apply compute_reflectance_da_rows in H
    as (file_df & outs & Hlinks & _ & _ & _ & Hperm).
  exists file_df. split; [exact Hlinks|].
  apply get_earthaccess_links_inv in Hlinks as (per & _ & _ & Hdf).
  split.
  - assert (E : map fst out = map fst (map strip out))
      by (rewrite map_map; reflexivity).
    rewrite E, Hperm. apply filter_fst_NoDup.
    rewrite Hdf. apply reset_index_NoDup.
  - apply List.Forall_forall. intros idr Hin.
    assert (Hs : In (strip idr) (List.filter is_spectral file_df)).
    { apply (Permutation_in _ Hperm), in_map, Hin. }
    apply filter_In in Hs as [Hs _]. unfold strip in Hs.
    rewrite Hdf in *. apply reset_index_lookup, Hs.
Qed.

(** Every raster of the output is named after the band of its row. *)
Theorem output_named_after_band
    (results : list Granule) (log : list Z)
    (out : DataFrame DaRow) (log' : list Z) :
  compute_reflectance_da results log = Some (out, log') ->
  Forall (fun idr => da_name (da (snd idr)) = Some (band (row (snd idr)))) out.
Proof.
  intros H. apply compute_reflectance_da_rows in H
    as (file_df & outs & _ & -> & _ & Hall & _).
  apply Forall_concat.
  induction Hall as [|g o gs os Hgo _ IH]; constructor; [|exact IH].
  destruct Hgo as (fmask & fmask_da & mask & _ & _ & _ & _ & Hb).
  eapply Forall_impl; [exact Hb|]. simpl.
  intros idr (band_da & _ & Hw).
  apply where_mask_shape in Hw as (_ & _ & Hn). rewrite Hn. reflexivity.
Qed.

(** When the link table cannot be built, or has no row whose band code
    starts with "B", the call raises: it never returns an empty table. *)
Theorem no_spectral_rows_raises (results : list Granule) (log : list Z) :
  (forall file_df,
     get_earthaccess_links results = Some file_df ->
     Forall (fun ir => is_spectral ir = false) file_df) ->
  compute_reflectance_da results log = None.
Proof.
  intros Hno. destruct (compute_reflectance_da results log) as [[out log']|] eqn:H;
    [|reflexivity].
  exfalso. apply compute_reflectance_da_rows in H
    as (file_df & outs & Hlinks & _ & Hne & _ & Hperm).
  specialize (Hno file_df Hlinks).
  rewrite (filter_nothing is_spectral file_df) in Hperm.
  - apply Permutation_nil_r in Hperm. destruct out; [congruence|discriminate].
  - intros ir Hin. rewrite List.Forall_forall in Hno. apply Hno, Hin.
Qed.

Lemma key_leb_refl (k : Z * string) : key_leb k k = true.
Proof.
  unfold key_leb. rewrite Z.eqb_refl, Z.ltb_irrefl. simpl.
  destruct (String.leb_total (snd k) (snd k)); assumption.
Qed.

Lemma key_leb_total (a b : Z * string) : key_leb a b = true \/ key_leb b a = true.
Proof.
  unfold key_leb.
  destruct (Z.ltb_spec (fst a) (fst b)); [left; reflexivity|].
  destruct (Z.ltb_spec (fst b) (fst a)); [right; reflexivity|].
  assert (E : fst a = fst b) by lia. rewrite E, Z.eqb_refl. simpl.
  apply String.leb_total.
Qed.

Lemma key_leb_trans (a b c : Z * string) :
  key_leb a b = true -> key_leb b c = true -> key_leb a c = true.
Proof.
  unfold key_leb. intros H1 H2.
  apply orb_true_iff in H1, H2. apply orb_true_iff.
  destruct H1 as [H1|H1], H2 as [H2|H2].
  - left. apply Z.ltb_lt. apply Z.ltb_lt in H1, H2. lia.
  - apply andb_true_iff in H2 as [H2 _]. apply Z.eqb_eq in H2.
    left. rewrite <- H2. exact H1.
  - apply andb_true_iff in H1 as [H1 _]. apply Z.eqb_eq in H1.
    left. rewrite H1. exact H2.
  - apply andb_true_iff in H1 as [H1 L1]. apply andb_true_iff in H2 as [H2 L2].
    right. apply Z.eqb_eq in H1, H2. apply andb_true_iff. split.
    + apply Z.eqb_eq. congruence.
    + apply Is_true_true. apply Is_true_true in L1, L2.
      exact (transitivity (R := String.le) L1 L2).
Qed.

Lemma sorted_app {K} (R : K -> K -> Prop) (l1 l2 : list K) :
  (forall x1 x2, In x1 l1 -> In x2 l2 -> R x1 x2) ->
  StronglySorted R l1 -> StronglySorted R l2 -> StronglySorted R (l1 ++ l2).
Proof.
  intros Hcross H1 H2. induction H1 as [|x l1 H1 IH Hall]; simpl; [exact H2|].
  constructor.
  - apply IH. intros x1 x2 Hx1 Hx2. apply Hcross; simpl; auto.
  - apply Forall_app. split; [exact Hall|].
    apply List.Forall_forall. intros y Hy. apply Hcross; simpl; auto.
Qed.

Lemma concat_keys_sorted {A K} (R : K -> K -> Prop) (key : A -> K)
    (ks : list K) (outs : list (list A)) :
  (forall k, R k k) ->
  StronglySorted R ks ->
  Forall2 (fun k o => Forall (fun a => key a = k) o) ks outs ->
  StronglySorted R (map key (concat outs)) /\
  Forall (fun x => In x ks) (map key (concat outs)).
Proof.
  intros Hrefl Hs H. induction H as [|k o ks' os Ho _ IH]; simpl.
  - split; constructor.
  - inversion Hs as [|? ? Hs' Hall]; subst.
    destruct (IH Hs') as [IHs IHin]. rewrite map_app.
    assert (Hk : Forall (fun x => x = k) (map key o)).
    { apply List.Forall_forall. intros x Hx. apply in_map_iff in Hx as (a & <- & Ha).
      rewrite List.Forall_forall in Ho. apply Ho, Ha. }
    split.
    + apply sorted_app; [| |exact IHs].
      * intros x1 x2 Hx1 Hx2. rewrite List.Forall_forall in Hk, IHin, Hall.
        rewrite (Hk x1 Hx1). apply Hall, IHin, Hx2.
      * clear -Hk Hrefl. induction Hk as [|x l -> Hl IH]; constructor; [exact IH|].
        eapply Forall_impl; [exact Hl|]. simpl. intros y ->. apply Hrefl.
    + apply Forall_app. split.
      * eapply Forall_impl; [exact Hk|]. simpl. intros x ->. auto.
      * eapply Forall_impl; [exact IHin|]. simpl. auto.
Qed.

(** The output lists the groups in ascending order of (datetime, tile
    identifier): the keys of its rows never decrease. *)
Theorem output_sorted_by_group
    (results : list Granule) (log : list Z)
    (out : DataFrame DaRow) (log' : list Z) :
  compute_reflectance_da results log = Some (out, log') ->
  StronglySorted (fun a b => key_leb a b = true)
                 (map (fun idr => granule_key (row (snd idr))) out).
Proof.
  intros H. apply compute_reflectance_da_rows in H
    as (file_df & outs & _ & -> & _ & Hall & _).
  apply (concat_keys_sorted _ _ (sorted_keys granule_key key_leb file_df)).
  - apply key_leb_refl.
  - apply sorted_keys_sorted; [apply key_leb_total|apply key_leb_trans].
  - rewrite <- (groupby_keys granule_key key_leb file_df).
    apply Forall2_fmap_l.
    assert (Hg : Forall (fun g => Forall (fun ir => granule_key (snd ir) = fst g) (snd g))
                        (groupby granule_key key_leb file_df)).
    { apply List.Forall_forall. intros [k g] Hin. simpl.
      apply groupby_elem in Hin as [_ ->].
      apply List.Forall_forall. intros ir Hir.
      apply list_elem_of_In, group_of_elem in Hir. tauto. }
    induction Hall as [|g o gs os Hgo _ IH]; [constructor|].
    inversion Hg as [|? ? Hg1 Hg2]; subst.
    constructor; [|exact (IH Hg2)]. simpl.
    destruct Hgo as (? & ? & ? & _ & _ & _ & Hs & _).
    apply List.Forall_forall. intros idr Hin.
    assert (Hsg : In (strip idr) (List.filter is_spectral (snd g))).
    { rewrite <- Hs. apply in_map, Hin. }
    apply filter_In in Hsg as [Hsg _].
    rewrite List.Forall_forall in Hg1. exact (Hg1 _ Hsg).
Qed.

End Compositor.

End Reflectance.



(* ===================================================================== *)
(** ** 7. Mosaic and temporal reducer: [merge_and_composite_arrays] *)
(* ===================================================================== *)

Module Composite.
Import Raster Pandas Links Reflectance.

(** *** Label-based access and alignment *)

Fixpoint index_of (c : Z) (cs : list Z) : option nat :=
  match cs with
  | [] => None
  | c' :: rest => if (c =? c')%Z then Some 0%nat else S <$> index_of c rest
  end.

(** [da.sel(y=y, x=x)], NaN where the array has no such cell. *)
Definition at_coord (da : DataArray) (y x : Z) : pixel :=
  match index_of y (da_y da), index_of x (da_x da) with
  | Some i, Some j => default None (cell_at (da_values da) i j)
  | _, _ => None
  end.

(** Outer join of coordinate indexes: equal indexes are kept as they are,
    otherwise the union, sorted. *)
Definition join_outer (css : list (list Z)) : list Z :=
  match css with
  | [] => []
  | c0 :: rest =>
      if forallb (fun c => bool_decide (c = c0)) rest then c0
      else foldr (insert_key Z.leb) [] (remove_dups (concat css))
  end.

(** Re-indexing onto joined coordinates fills with NaN. *)
Definition reindex (ys xs : list Z) (da : DataArray) : DataArray :=
  {| da_name := da_name da; da_crs := da_crs da; da_y := ys; da_x := xs;
     da_values := map (fun y => map (fun x => at_coord da y x) xs) ys |}.

(** *** The median over dates *)

Fixpoint insert_sorted (q : Q) (l : list Q) : list Q :=
  match l with
  | [] => [q]
  | h :: t => if Qle_bool q h then q :: l else h :: insert_sorted q t
  end.

Definition sort (l : list Q) : list Q := foldr insert_sorted [] l.

(** [np.median] of a sorted sample: the middle value, or the mean of the
    two middle values. *)
Definition median_sorted (l : list Q) : pixel :=
  let n := length l in
  if (n =? 0)%nat then None
  else if Nat.odd n then l !! (n / 2)%nat
  else
    match l !! (n / 2 - 1)%nat, l !! (n / 2)%nat with
    | Some a, Some b => Some ((a + b) / 2)%Q
    | _, _ => None
    end.

(** The values that are not NaN. *)
Definition valid (ps : list pixel) : list Q := omap id ps.

(** [nanmedian]: NaN is skipped, and the median of nothing is NaN. *)
Definition nanmedian (ps : list pixel) : pixel := median_sorted (sort (valid ps)).

(** [xr.concat(das, dim='datetime').median('datetime')] *)
Definition concat_median (das : list DataArray) : option DataArray :=
  match das with
  | [] => None
  | d0 :: _ =>
      let ys := join_outer (map da_y das) in
      let xs := join_outer (map da_x das) in
      let stacked := map (reindex ys xs) das in
      Some {| da_name := da_name d0; da_crs := da_crs d0; da_y := ys; da_x := xs;
              da_values :=
                map (fun y => map (fun x =>
                       nanmedian (map (fun d => at_coord d y x) stacked)) xs) ys |}
  end.

(** [merged_da.where(merged_da > 0)] *)
Definition keep_positive (p : pixel) : pixel :=
  match p with
  | Some q => if Qlt_le_dec 0 q then Some q else None
  | None => None
  end.

(** [int(band[1:])] for an alphanumeric band code. *)
Definition digit_value (c : ascii) : option Z :=
  if Regex.is_digit c then Some (Z.of_nat (nat_of_ascii c) - 48)%Z else None.

Fixpoint int_digits (acc : Z) (l : list ascii) : option Z :=
  match l with
  | [] => Some acc
  | c :: rest =>
      match digit_value c with
      | Some d => int_digits (10 * acc + d) rest
      | None => None
      end
  end.

Definition int_of_string (s : string) : option Z :=
  match list_ascii_of_string s with
  | [] => None
  | l => int_digits 0 l
  end.

Definition band_number (band : string) : option Z :=
  int_of_string (String.substring 1 (String.length band - 1) band).

(** The final raster, indexed by (band, y, x). *)
Record CompositeRaster := mkComposite {
  cr_name : string;
  cr_band : list Z;
  cr_y : list Z;
  cr_x : list Z;
  cr_values : list (list (list pixel))
}.

(** [xr.concat(da_list, dim='band')] *)
Definition xr_concat_band (da_list : list (Z * DataArray)) : option CompositeRaster :=
  match da_list with
  | [] => None
  | _ =>
      let ys := join_outer (map (fun bd => da_y (snd bd)) da_list) in
      let xs := join_outer (map (fun bd => da_x (snd bd)) da_list) in
      Some {| cr_name := "reflectance";
              cr_band := map fst da_list;
              cr_y := ys; cr_x := xs;
              cr_values := map (fun bd => da_values (reindex ys xs (snd bd))) da_list |}
  end.

(** The cell of band number [k] (by position) at coordinates [(y, x)]. *)
Definition cr_at (cr : CompositeRaster) (k : nat) (y x : Z) : pixel :=
  match cr_values cr !! k, index_of y (cr_y cr), index_of x (cr_x cr) with
  | Some plane, Some i, Some j => default None (cell_at plane i j)
  | _, _, _ => None
  end.

(** *** Cells by label *)

Lemma index_of_Some (c : Z) (cs : list Z) (i : nat) :
  index_of c cs = Some i -> cs !! i = Some c.
Proof.
  revert i. induction cs as [|c' cs IH]; intros i H; simpl in H; [discriminate|].
  destruct (Z.eqb_spec c c') as [->|_].
  - inversion H; subst. reflexivity.
  - destruct (index_of c cs) as [i'|]; [|discriminate].
    inversion H; subst. simpl. apply IH. reflexivity.
Qed.

Lemma index_of_None (c : Z) (cs : list Z) :
  index_of c cs = None -> ~ In c cs.
Proof.
  induction cs as [|c' cs IH]; simpl; intros H; [tauto|].
  destruct (Z.eqb_spec c c') as [->|Hne]; [discriminate|].
  destruct (index_of c cs); [discriminate|].
  intros [E|Hin]; [congruence|]. exact (IH eq_refl Hin).
Qed.

(** Every cell of an array satisfies [P]. *)
Definition all_cells (P : pixel -> Prop) (v : list (list pixel)) : Prop :=
  forall r p, In r v -> In p r -> P p.

Lemma cell_at_In {A} (v : list (list A)) (i j : nat) (a : A) :
  cell_at v i j = Some a -> exists r, In r v /\ In a r.
Proof.
  unfold cell_at. destruct (v !! i) as [r|] eqn:Hr; [|discriminate].
  intros Ha. exists r. split; apply list_elem_of_In.
  - eapply list_elem_of_lookup_2, Hr.
  - eapply list_elem_of_lookup_2, Ha.
Qed.

Lemma at_coord_all_cells (P : pixel -> Prop) (d : DataArray) (y x : Z) :
  P None -> all_cells P (da_values d) -> P (at_coord d y x).
Proof.
  intros HN Hall. unfold at_coord.
  destruct (index_of y (da_y d)) as [i|]; [|exact HN].
  destruct (index_of x (da_x d)) as [j|]; [|exact HN].
  destruct (cell_at (da_values d) i j) as [p|] eqn:E; [|exact HN].
  simpl. apply cell_at_In in E as (r & Hr & Hp). exact (Hall r p Hr Hp).
Qed.

(** The cells of a grid tabulated from a function of the labels. *)
Lemma tabulate_all_cells (P : pixel -> Prop) (f : Z -> Z -> pixel) (ys xs : list Z) :
  (forall y x, P (f y x)) ->
  all_cells P (map (fun y => map (fun x => f y x) xs) ys).
Proof.
  intros Hf r p Hr Hp.
  apply in_map_iff in Hr as (y & <- & _).
  apply in_map_iff in Hp as (x & <- & _). apply Hf.
Qed.

Lemma tabulate_cell (f : Z -> Z -> pixel) (ys xs : list Z) (i j : nat) (y x : Z) :
  ys !! i = Some y -> xs !! j = Some x ->
  cell_at (map (fun y => map (fun x => f y x) xs) ys) i j = Some (f y x).
Proof.
  intros Hy Hx. unfold cell_at.
  rewrite list_lookup_fmap, Hy. simpl.
  rewrite list_lookup_fmap, Hx. reflexivity.
Qed.

Lemma at_coord_tabulate name crs (f : Z -> Z -> pixel) (ys xs : list Z) (y x : Z) :
  at_coord {| da_name := name; da_crs := crs; da_y := ys; da_x := xs;
              da_values := map (fun y => map (fun x => f y x) xs) ys |} y x =
    match index_of y ys, index_of x xs with
    | Some _, Some _ => f y x
    | _, _ => None
    end.
Proof.
  unfold at_coord. simpl.
  destruct (index_of y ys) as [i|] eqn:Hi; [|reflexivity].
  destruct (index_of x xs) as [j|] eqn:Hj; [|reflexivity].
  rewrite (tabulate_cell f ys xs i j y x (index_of_Some _ _ _ Hi) (index_of_Some _ _ _ Hj)).
  reflexivity.
Qed.

Lemma at_coord_reindex (ys xs : list Z) (d : DataArray) (y x : Z) :
  at_coord (reindex ys xs d) y x =
    match index_of y ys, index_of x xs with
    | Some _, Some _ => at_coord d y x
    | _, _ => None
    end.
Proof. unfold reindex. apply at_coord_tabulate. Qed.

Lemma at_coord_set_name n d y x : at_coord (set_name n d) y x = at_coord d y x.
Proof. reflexivity. Qed.

(** *** The median *)

Definition positive_or_missing (p : pixel) : Prop :=
  match p with
  | Some q => (0 < q)%Q
  | None => True
  end.

Lemma keep_positive_ok (p : pixel) : positive_or_missing (keep_positive p).
Proof.
  destruct p as [q|]; simpl; [|exact I].
  destruct (Qlt_le_dec 0 q); simpl; auto.
Qed.

(** A merged value that is not above zero becomes missing, and a value
    above zero is kept. *)
Lemma keep_positive_spec (p : pixel) :
  (forall q, p = Some q -> (q <= 0)%Q -> keep_positive p = None) /\
  (forall q, p = Some q -> (0 < q)%Q -> keep_positive p = Some q) /\
  (p = None -> keep_positive p = None).
Proof.
  split; [|split].
  - intros q -> Hq. simpl. destruct (Qlt_le_dec 0 q); [lra|reflexivity].
  - intros q -> Hq. simpl. destruct (Qlt_le_dec 0 q); [reflexivity|lra].
  - intros ->. reflexivity.
Qed.

Lemma insert_sorted_perm q l : Permutation (insert_sorted q l) (q :: l).
Proof.
  induction l as [|h t IH]; simpl; [reflexivity|].
  destruct (Qle_bool q h); [reflexivity|].
  rewrite IH. apply perm_swap.
Qed.

Lemma sort_perm l : Permutation (sort l) l.
Proof.
  induction l as [|q l IH]; simpl; [reflexivity|].
  rewrite insert_sorted_perm, IH. reflexivity.
Qed.

Lemma insert_sorted_sorted q l :
  StronglySorted Qle l -> StronglySorted Qle (insert_sorted q l).
Proof.
  induction 1 as [|h t Hs IH Hall]; simpl.
  - constructor; constructor.
  - destruct (Qle_bool q h) eqn:E.
    + apply Qle_bool_iff in E. constructor; [constructor; assumption|].
      constructor; [exact E|].
      eapply Forall_impl; [exact Hall|]. simpl. intros a Ha. lra.
    + assert (Hlt : (h < q)%Q).
      { apply Qnot_le_lt. intros H. apply Qle_bool_iff in H. congruence. }
      constructor; [exact IH|].
      rewrite insert_sorted_perm. constructor; [lra|exact Hall].
Qed.

Lemma sort_sorted l : StronglySorted Qle (sort l).
Proof.
  induction l as [|q l IH]; simpl; [constructor|].
  apply insert_sorted_sorted, IH.
Qed.

Lemma sorted_lookup_le (s : list Q) (i j : nat) (a b : Q) :
  StronglySorted Qle s -> (i <= j)%nat ->
  s !! i = Some a -> s !! j = Some b -> (a <= b)%Q.
Proof.
  intros Hs. revert i j. induction Hs as [|h t Hs IH Hall]; intros i j Hij Ha Hb.
  - discriminate.
  - destruct i as [|i], j as [|j]; simpl in *.
    + inversion Ha; inversion Hb; subst. lra.
    + inversion Ha; subst.
      rewrite List.Forall_forall in Hall. apply Hall.
      apply list_elem_of_In. eapply list_elem_of_lookup_2, Hb.
    + lia.
    + apply (IH i j); [lia|assumption|assumption].
Qed.

(** A median of a sample: at most half of the values lie strictly below
    it, and at most half strictly above. *)
Definition below (m : Q) (x : Q) : bool := if Qlt_le_dec x m then true else false.
Definition above (m : Q) (x : Q) : bool := if Qlt_le_dec m x then true else false.

Definition is_median (m : Q) (l : list Q) : Prop :=
  (2 * length (List.filter (below m) l) <= length l)%nat /\
  (2 * length (List.filter (above m) l) <= length l)%nat.

Lemma filter_none {A} (p : A -> bool) (l : list A) :
  (forall a, In a l -> p a = false) -> List.filter p l = [].
Proof.
  induction l as [|a l IH]; simpl; intros H; [reflexivity|].
  rewrite (H a (or_introl eq_refl)). apply IH. intros b Hb. apply H. auto.
Qed.

Lemma filter_split_length {A} (p : A -> bool) (s : list A) (h : nat) :
  length (List.filter p s) =
    (length (List.filter p (take h s)) + length (List.filter p (drop h s)))%nat.
Proof.
  rewrite <- (take_drop h s) at 1. rewrite List.filter_app, length_app. reflexivity.
Qed.

Lemma count_below_sorted (s : list Q) (m : Q) (h : nat) :
  (forall j b, (h <= j)%nat -> s !! j = Some b -> (m <= b)%Q) ->
  (length (List.filter (below m) s) <= h)%nat.
Proof.
  intros H. rewrite (filter_split_length _ s h).
  rewrite (filter_none (below m) (drop h s)).
  - simpl. pose proof (List.filter_length_le (below m) (take h s)) as H1.
    pose proof (length_take_le s h) as H2.
    rewrite length_take in H1. lia.
  - intros a Ha. apply list_elem_of_In, list_elem_of_lookup in Ha as [i Hi].
    rewrite lookup_drop in Hi. unfold below.
    destruct (Qlt_le_dec a m) as [Hlt|]; [|reflexivity].
    specialize (H (h + i)%nat a ltac:(lia) Hi). lra.
Qed.

Lemma count_above_sorted (s : list Q) (m : Q) (h : nat) :
  (forall j a, (j < h)%nat -> s !! j = Some a -> (a <= m)%Q) ->
  (length (List.filter (above m) s) <= length s - h)%nat.
Proof.
  intros H. rewrite (filter_split_length _ s h).
  rewrite (filter_none (above m) (take h s)).
  - simpl. pose proof (List.filter_length_le (above m) (drop h s)) as H1.
    rewrite length_drop in H1. exact H1.
  - intros a Ha. apply list_elem_of_In, list_elem_of_lookup in Ha as [i Hi].
    apply lookup_take_Some in Hi as [Hi Hlt]. unfold above.
    destruct (Qlt_le_dec m a) as [Hgt|]; [|reflexivity].
    specialize (H i a Hlt Hi). lra.
Qed.

Lemma half_between (a b : Q) :
  (a <= b)%Q -> (a <= (a + b) / 2)%Q /\ ((a + b) / 2 <= b)%Q.
Proof.
  intros H.
  assert (E : ((a + b) / 2 == (a + b) * (1 # 2))%Q) by reflexivity.
  rewrite E. split; lra.
Qed.

Lemma half_positive (a b : Q) : (0 < a)%Q -> (0 < b)%Q -> (0 < (a + b) / 2)%Q.
Proof.
  intros Ha Hb.
  assert (E : ((a + b) / 2 == (a + b) * (1 # 2))%Q) by reflexivity.
  rewrite E. lra.
Qed.

Lemma odd_half (n : nat) : Nat.odd n = true -> n = (2 * (n / 2) + 1)%nat.
Proof.
  intros H. apply Nat.odd_spec in H as [k ->].
  replace ((2 * k + 1) / 2)%nat with k; [reflexivity|].
  apply (Nat.div_unique (2 * k + 1) 2 k 1); lia.
Qed.

Lemma even_half (n : nat) : Nat.odd n = false -> n = (2 * (n / 2))%nat.
Proof.
  intros H. rewrite <- Nat.negb_even in H. apply negb_false_iff in H.
  apply Nat.even_spec in H as [k ->].
  replace (2 * k / 2)%nat with k; [reflexivity|].
  apply (Nat.div_unique (2 * k) 2 k 0); lia.
Qed.

(** What [median_sorted] returns: an element, or the mean of two. *)
Lemma median_sorted_cases (s : list Q) (m : Q) :
  median_sorted s = Some m ->
  (exists h, length s = (2 * h + 1)%nat /\ s !! h = Some m) \/
  (exists h a b, length s = (2 * h)%nat /\ (0 < h)%nat /\
                 s !! (h - 1)%nat = Some a /\ s !! h = Some b /\
                 m = ((a + b) / 2)%Q).
Proof.
  unfold median_sorted. destruct (Nat.eqb_spec (length s) 0) as [|Hn]; [discriminate|].
  destruct (Nat.odd (length s)) eqn:Hodd.
  - intros H. left. exists (length s / 2)%nat. split; [apply odd_half, Hodd|exact H].
  - destruct (s !! (length s / 2 - 1)%nat) as [a|] eqn:Ha; [|discriminate].
    destruct (s !! (length s / 2)%nat) as [b|] eqn:Hb; [|discriminate].
    intros H. inversion H; subst. right.
    exists (length s / 2)%nat, a, b. pose proof (even_half _ Hodd).
    repeat split; auto; lia.
Qed.

Lemma median_sorted_is_median (s : list Q) (m : Q) :
  StronglySorted Qle s -> median_sorted s = Some m -> is_median m s.
Proof.
  intros Hs H. apply median_sorted_cases in H
    as [(h & Hlen & Hm) | (h & a & b & Hlen & Hh & Ha & Hb & ->)].
  - split.
    + pose proof (count_below_sorted s m h) as Hc. rewrite Hlen.
      enough (length (List.filter (below m) s) <= h)%nat by lia.
      apply Hc. intros j b Hj Hb. exact (sorted_lookup_le s h j m b Hs Hj Hm Hb).
    + pose proof (count_above_sorted s m (h + 1)) as Hc. rewrite Hlen in *.
      enough (length (List.filter (above m) s) <= 2 * h + 1 - (h + 1))%nat by lia.
      apply Hc. intros j a Hj Ha.
      exact (sorted_lookup_le s j h a m Hs ltac:(lia) Ha Hm).
  - assert (Hab : (a <= b)%Q)
      by exact (sorted_lookup_le s (h - 1) h a b Hs ltac:(lia) Ha Hb).
    destruct (half_between a b Hab) as [H1 H2]. split.
    + pose proof (count_below_sorted s ((a + b) / 2)%Q h) as Hc. rewrite Hlen.
      enough (length (List.filter (below ((a + b) / 2)%Q) s) <= h)%nat by lia.
      apply Hc. intros j c Hj Hcj.
      pose proof (sorted_lookup_le s h j b c Hs Hj Hb Hcj). lra.
    + pose proof (count_above_sorted s ((a + b) / 2)%Q h) as Hc. rewrite Hlen in *.
      enough (length (List.filter (above ((a + b) / 2)%Q) s) <= 2 * h - h)%nat by lia.
      apply Hc. intros j c Hj Hcj.
      pose proof (sorted_lookup_le s j (h - 1) c a Hs ltac:(lia) Hcj Ha). lra.
Qed.

Lemma is_median_perm (m : Q) (l k : list Q) :
  Permutation l k -> is_median m l -> is_median m k.
Proof.
  intros Hp [H1 H2]. unfold is_median.
  rewrite <- (Permutation_length Hp).
  rewrite <- (Permutation_length (filter_Permutation (below m) _ _ Hp)).
  rewrite <- (Permutation_length (filter_Permutation (above m) _ _ Hp)).
  auto.
Qed.

(** [nanmedian] yields a median of the valid values. *)
Lemma nanmedian_is_median (ps : list pixel) (m : Q) :
  nanmedian ps = Some m -> is_median m (valid ps).
Proof.
  unfold nanmedian. intros H.
  apply (is_median_perm m (sort (valid ps))); [apply sort_perm|].
  apply median_sorted_is_median; [apply sort_sorted|exact H].
Qed.

Lemma median_sorted_None (s : list Q) : median_sorted s = None <-> s = [].
Proof.
  split; [|intros ->; reflexivity].
  unfold median_sorted. destruct (Nat.eqb_spec (length s) 0) as [E|Hn].
  - intros _. destruct s; [reflexivity|discriminate].
  - destruct (Nat.odd (length s)) eqn:Hodd.
    + intros H. apply lookup_ge_None in H. pose proof (odd_half _ Hodd). lia.
    + pose proof (even_half _ Hodd) as He.
      destruct (lookup_lt_is_Some_2 s (length s / 2 - 1)%nat ltac:(lia)) as [a ->].
      destruct (lookup_lt_is_Some_2 s (length s / 2)%nat ltac:(lia)) as [b ->].
      discriminate.
Qed.

(** The composite cell is missing exactly when no date has a value. *)
Lemma nanmedian_None (ps : list pixel) : nanmedian ps = None <-> valid ps = [].
Proof.
  unfold nanmedian. rewrite median_sorted_None. split.
  - intros H. apply Permutation_nil. rewrite <- H. apply sort_perm.
  - intros ->. reflexivity.
Qed.

Lemma nanmedian_single (ps : list pixel) (v : Q) :
  valid ps = [v] -> nanmedian ps = Some v.
Proof. unfold nanmedian. intros ->. reflexivity. Qed.

Lemma valid_In (ps : list pixel) (q : Q) : In q (valid ps) <-> In (Some q) ps.
Proof.
  unfold valid. rewrite <- !list_elem_of_In, list_elem_of_omap. split.
  - intros (p & Hp & E). simpl in E. subst. exact Hp.
  - intros H. exists (Some q). auto.
Qed.

Lemma nanmedian_positive (ps : list pixel) :
  Forall positive_or_missing ps -> positive_or_missing (nanmedian ps).
Proof.
  intros Hall. destruct (nanmedian ps) as [m|] eqn:H; simpl; [|exact I].
  assert (Hpos : forall i q, sort (valid ps) !! i = Some q -> (0 < q)%Q).
  { intros i q Hq. apply list_elem_of_lookup_2, list_elem_of_In in Hq.
    apply (Permutation_in _ (sort_perm _)), valid_In in Hq.
    rewrite List.Forall_forall in Hall. exact (Hall _ Hq). }
  unfold nanmedian in H. apply median_sorted_cases in H
    as [(h & _ & Hm) | (h & a & b & _ & _ & Ha & Hb & ->)].
  - exact (Hpos _ _ Hm).
  - apply half_positive; eauto.
Qed.

(** The median as it is usually defined: sort the sample; the middle value
    if there is one, the mean of the two middle values otherwise. *)
Definition median_of (l : list Q) (m : Q) : Prop :=
  exists s,
    Permutation s l /\ StronglySorted Qle s /\
    ((exists h, length s = (2 * h + 1)%nat /\ s !! h = Some m) \/
     (exists h a b, length s = (2 * h)%nat /\ (0 < h)%nat /\
                    s !! (h - 1)%nat = Some a /\ s !! h = Some b /\
                    m = ((a + b) / 2)%Q)).

Lemma nanmedian_median_of (ps : list pixel) (m : Q) :
  nanmedian ps = Some m -> median_of (valid ps) m.
Proof.
  intros H. exists (sort (valid ps)).
  split; [apply sort_perm|]. split; [apply sort_sorted|].
  apply median_sorted_cases, H.
Qed.

Lemma nanmedian_all_missing (ps : list pixel) :
  Forall (fun p => p = None) ps -> nanmedian ps = None.
Proof.
  intros H. apply nanmedian_None. unfold valid.
  induction H as [|p ps -> _ IH]; simpl; [reflexivity|exact IH].
Qed.

(** *** Outer joins keep every cell *)

Lemma index_of_In (c : Z) (cs : list Z) : In c cs -> is_Some (index_of c cs).
Proof.
  induction cs as [|c' cs IH]; simpl; [tauto|].
  destruct (Z.eqb_spec c c') as [->|Hne]; [eauto|].
  intros [E|Hin]; [congruence|].
  destruct (IH Hin) as [i ->]. simpl. eauto.
Qed.

Lemma sort_keys_perm (l : list Z) : Permutation (foldr (insert_key Z.leb) [] l) l.
Proof.
  induction l as [|c l IH]; simpl; [reflexivity|].
  rewrite insert_key_perm, IH. reflexivity.
Qed.

Lemma join_outer_In (css : list (list Z)) (cs : list Z) (c : Z) :
  In cs css -> In c cs -> In c (join_outer css).
Proof.
  intros Hcs Hc. unfold join_outer. destruct css as [|c0 rest]; [destruct Hcs|].
  destruct (forallb _ rest) eqn:Hall.
  - destruct Hcs as [->|Hin]; [exact Hc|].
    rewrite forallb_forall in Hall. specialize (Hall cs Hin).
    apply bool_decide_eq_true in Hall. subst. exact Hc.
  - apply (Permutation_in _ (Permutation_sym (sort_keys_perm _))).
    apply list_elem_of_In, elem_of_remove_dups, list_elem_of_In.
    apply in_concat. exists cs. auto.
Qed.

Lemma at_coord_outside (d : DataArray) (y x : Z) :
  ~ In y (da_y d) \/ ~ In x (da_x d) -> at_coord d y x = None.
Proof.
  intros H. unfold at_coord.
  destruct (index_of y (da_y d)) as [i|] eqn:Hi; [|reflexivity].
  destruct (index_of x (da_x d)) as [j|] eqn:Hj; [|reflexivity].
  exfalso. apply index_of_Some, list_elem_of_lookup_2, list_elem_of_In in Hi, Hj.
  tauto.
Qed.

(** Aligned on the joined coordinates, an array keeps its cells. *)
Lemma at_coord_join (ds : list DataArray) (d : DataArray) (y x : Z) :
  In d ds ->
  at_coord (reindex (join_outer (map da_y ds)) (join_outer (map da_x ds)) d) y x
    = at_coord d y x.
Proof.
  intros Hd. rewrite at_coord_reindex.
  destruct (index_of y _) as [i|] eqn:Hi.
  - destruct (index_of x _) as [j|] eqn:Hj; [reflexivity|].
    symmetry. apply at_coord_outside. right. intros Hx.
    apply index_of_None in Hj. apply Hj.
    apply (join_outer_In _ (da_x d)); [apply in_map, Hd|exact Hx].
  - symmetry. apply at_coord_outside. left. intros Hy.
    apply index_of_None in Hi. apply Hi.
    apply (join_outer_In _ (da_y d)); [apply in_map, Hd|exact Hy].
Qed.

Lemma at_coord_not_joined (ds : list DataArray) (y x : Z) :
  index_of y (join_outer (map da_y ds)) = None \/
  index_of x (join_outer (map da_x ds)) = None ->
  Forall (fun p => p = None) (map (fun d => at_coord d y x) ds).
Proof.
  intros H. apply List.Forall_forall. intros p Hp.
  apply in_map_iff in Hp as (d & <- & Hd).
  apply at_coord_outside. destruct H as [H|H]; apply index_of_None in H.
  - left. intros Hy. apply H, (join_outer_In _ (da_y d)); [apply in_map, Hd|exact Hy].
  - right. intros Hx. apply H, (join_outer_In _ (da_x d)); [apply in_map, Hd|exact Hx].
Qed.

(** The stacked median, cell by cell. *)
Lemma concat_median_at (das : list DataArray) (c : DataArray) :
  concat_median das = Some c ->
  das <> [] /\
  forall y x, at_coord c y x = nanmedian (map (fun d => at_coord d y x) das).
Proof.
  unfold concat_median. destruct das as [|d0 rest] eqn:Edas; [discriminate|].
  rewrite <- Edas. intros H. inversion H; subst c; clear H.
  split; [rewrite Edas; discriminate|]. intros y x.
  rewrite at_coord_tabulate.
  destruct (index_of y _) as [i|] eqn:Hi.
  - destruct (index_of x _) as [j|] eqn:Hj.
    + rewrite map_map. f_equal. apply map_ext_in. intros d Hd.
      apply at_coord_join, Hd.
    + symmetry. apply nanmedian_all_missing, at_coord_not_joined. auto.
  - symmetry. apply nanmedian_all_missing, at_coord_not_joined. auto.
Qed.

Lemma concat_median_cells (das : list DataArray) (c : DataArray) :
  concat_median das = Some c ->
  Forall (fun d => all_cells positive_or_missing (da_values d)) das ->
  all_cells positive_or_missing (da_values c).
Proof.
  unfold concat_median. destruct das as [|d0 rest] eqn:Edas; [discriminate|].
  rewrite <- Edas. intros H Hall. inversion H; subst c; clear H. simpl.
  apply tabulate_all_cells. intros y x. apply nanmedian_positive.
  rewrite map_map. apply List.Forall_forall. intros p Hp.
  apply in_map_iff in Hp as (d & <- & Hd).
  rewrite List.Forall_forall in Hall.
  apply at_coord_all_cells; [exact I|].
  unfold reindex. simpl. apply tabulate_all_cells. intros y' x'.
  apply at_coord_all_cells; [exact I|]. apply Hall, Hd.
Qed.

(** *** Helpers for the further properties *)

Lemma join_outer_In_inv (css : list (list Z)) (c : Z) :
  In c (join_outer css) -> exists cs, In cs css /\ In c cs.
Proof.
  unfold join_outer. destruct css as [|c0 rest]; [intros []|].
  destruct (forallb _ rest).
  - intros H. exists c0. simpl. auto.
  - intros H. apply (Permutation_in _ (sort_keys_perm _)) in H.
    rewrite <- list_elem_of_In, elem_of_remove_dups, list_elem_of_In in H.
    apply in_concat in H as (cs & Hcs & Hc). eauto.
Qed.

Lemma concat_median_coords (das : list DataArray) (c : DataArray) :
  concat_median das = Some c ->
  da_y c = join_outer (map da_y das) /\ da_x c = join_outer (map da_x das).
Proof.
  unfold concat_median. destruct das as [|d0 rest] eqn:E; [discriminate|].
  rewrite <- E. intros H. inversion H; subst c. simpl. auto.
Qed.



Lemma mapM_length_eq {A B} (f : A -> option B) (l : list A) (k : list B) :
  mapM f l = Some k -> length k = length l.
Proof. intros H. apply mapM_Some in H. symmetry. exact (Forall2_length _ _ _ H). Qed.

(** The value of [nanmedian] lies between two of the valid values. *)
Lemma nanmedian_between (ps : list pixel) (m : Q) :
  nanmedian ps = Some m ->
  exists a b, In (Some a) ps /\ In (Some b) ps /\ (a <= m)%Q /\ (m <= b)%Q.
Proof.
  intros H.
  assert (Hin : forall i q, sort (valid ps) !! i = Some q -> In (Some q) ps).
  { intros i q Hq. apply list_elem_of_lookup_2, list_elem_of_In in Hq.
    apply valid_In. exact (Permutation_in _ (sort_perm _) Hq). }
  unfold nanmedian in H. apply median_sorted_cases in H
    as [(h & _ & Hm) | (h & a & b & _ & Hh & Ha & Hb & ->)].
  - exists m, m. split; [exact (Hin _ _ Hm)|]. split; [exact (Hin _ _ Hm)|].
    split; lra.
  - assert (Hab : (a <= b)%Q).
    { apply (sorted_lookup_le (sort (valid ps)) (h - 1) h a b (sort_sorted _));
        [lia|exact Ha|exact Hb]. }
    destruct (half_between a b Hab) as [H1 H2]. exists a, b.
    split; [exact (Hin _ _ Ha)|]. split; [exact (Hin _ _ Hb)|]. split; assumption.
Qed.

Lemma string_leb_total (a b : string) : String.leb a b = true \/ String.leb b a = true.
Proof. apply String.leb_total. Qed.

Lemma string_leb_trans (a b c : string) :
  String.leb a b = true -> String.leb b c = true -> String.leb a c = true.
Proof.
  intros H1 H2. apply Is_true_true.
  apply Is_true_true in H1, H2.
  exact (transitivity (R := String.le) H1 H2).
Qed.




Section Reducer.
(** [rxrmerge.merge_arrays]: the mosaic of the tiles of one date. *)
Variable merge_arrays : list DataArray -> option DataArray.

(** The body of the loop over dates. *)
Definition merge_date (date_df : DataFrame DaRow) : option DataArray :=
  match merge_arrays (map (fun idr => da (snd idr)) date_df) with
  | Some merged_da => Some (map_cells keep_positive merged_da)
  | None => None
  end.

Definition row_datetime (r : DaRow) : Z := datetime (row r).
Definition row_band (r : DaRow) : string := band (row r).

Definition merged_das (band_df : DataFrame DaRow) : option (list DataArray) :=
  mapM (fun g => merge_date (snd g)) (groupby row_datetime Z.leb band_df).

(** The body of the loop over bands. *)
Definition band_composite (band : string) (band_df : DataFrame DaRow)
  : option (Z * DataArray) :=
  match merged_das band_df with
  | None => None
  | Some das =>
      match concat_median das with
      | None => None
      | Some composite_da =>
          match band_number band with
          | Some b => Some (b, set_name "reflectance" composite_da)
          | None => None
          end
      end
  end.

(** [merge_and_composite_arrays(granule_da_df)], without the decorator. *)
Definition merge_and_composite_arrays (granule_da_df : DataFrame DaRow)
  : option CompositeRaster :=
  match mapM (fun g => band_composite (fst g) (snd g))
             (groupby row_band String.leb granule_da_df) with
  | Some da_list => xr_concat_band da_list
  | None => None
  end.

Lemma mapM_In {A B} (f : A -> option B) (l : list A) (k : list B) (a : A) :
  mapM f l = Some k -> In a l -> exists b, f a = Some b /\ In b k.
Proof.
  intros H Ha. apply mapM_Some in H.
  apply list_elem_of_In, list_elem_of_lookup in Ha as [i Hi].
  destruct (Forall2_lookup_l _ _ _ _ _ H Hi) as (b & Hb & Hf).
  exists b. split; [exact Hf|]. apply list_elem_of_In. eapply list_elem_of_lookup_2, Hb.
Qed.

Lemma shape_map {A B} (f : A -> B) (v : list (list A)) :
  shape (map (map f) v) = shape v.
Proof.
  unfold shape. rewrite map_map. apply map_ext. intros r. apply length_map.
Qed.

Lemma valid_nil (ps : list pixel) : valid ps = [] <-> Forall (fun p => p = None) ps.
Proof.
  unfold valid. induction ps as [|p ps IH]; simpl.
  - split; [constructor|reflexivity].
  - destruct p as [q|]; simpl.
    + split; [discriminate|]. intros H. inversion H; discriminate.
    + rewrite IH. split; [constructor; auto|]. intros H. inversion H; auto.
Qed.

Lemma merge_date_inv (date_df : DataFrame DaRow) (swept : DataArray) :
  merge_date date_df = Some swept ->
  exists merged_da,
    merge_arrays (map (fun idr => da (snd idr)) date_df) = Some merged_da /\
    swept = map_cells keep_positive merged_da.
Proof.
  unfold merge_date. destruct (merge_arrays _) as [m|]; [|discriminate].
  intros H. inversion H. eauto.
Qed.

Lemma merge_date_cells (date_df : DataFrame DaRow) (swept : DataArray) :
  merge_date date_df = Some swept ->
  all_cells positive_or_missing (da_values swept).
Proof.
  intros H. apply merge_date_inv in H as (m & _ & ->). simpl.
  intros r p Hr Hp. apply in_map_iff in Hr as (r0 & <- & _).
  apply in_map_iff in Hp as (p0 & <- & _). apply keep_positive_ok.
Qed.

Lemma merged_das_cells (band_df : DataFrame DaRow) (das : list DataArray) :
  merged_das band_df = Some das ->
  Forall (fun d => all_cells positive_or_missing (da_values d)) das.
Proof.
  unfold merged_das. intros H. apply mapM_Some in H.
  induction H as [|g d gs ds Hg _ IH]; constructor; [|exact IH].
  eapply merge_date_cells, Hg.
Qed.

Lemma band_composite_inv (band : string) (band_df : DataFrame DaRow) (bd : Z * DataArray) :
  band_composite band band_df = Some bd ->
  exists das composite_da,
    merged_das band_df = Some das /\
    concat_median das = Some composite_da /\
    band_number band = Some (fst bd) /\
    snd bd = set_name "reflectance" composite_da.
Proof.
  unfold band_composite.
  destruct (merged_das band_df) as [das|]; [|discriminate].
  destruct (concat_median das) as [c|] eqn:Hc; [|discriminate].
  destruct (band_number band) as [b|]; [|discriminate].
  intros H. inversion H; subst. simpl. exists das, c. auto.
Qed.

Lemma xr_concat_band_inv (da_list : list (Z * DataArray)) (cr : CompositeRaster) :
  xr_concat_band da_list = Some cr ->
  cr_band cr = map fst da_list /\
  cr_y cr = join_outer (map da_y (map snd da_list)) /\
  cr_x cr = join_outer (map da_x (map snd da_list)) /\
  cr_values cr =
    map (fun bd => da_values (reindex (cr_y cr) (cr_x cr) (snd bd))) da_list.
Proof.
  unfold xr_concat_band. destruct da_list as [|bd0 rest] eqn:E; [discriminate|].
  rewrite <- E. intros H. inversion H; subst cr; clear H. simpl.
  rewrite !map_map. auto.
Qed.

(** A cell of the final raster is the cell of that band's composite. *)
Lemma cr_at_band (da_list : list (Z * DataArray)) (cr : CompositeRaster)
    (k : nat) (bd : Z * DataArray) (y x : Z) :
  xr_concat_band da_list = Some cr ->
  da_list !! k = Some bd ->
  cr_at cr k y x = at_coord (snd bd) y x.
Proof.
  intros H Hk. apply xr_concat_band_inv in H as (_ & Hy & Hx & Hv).
  rewrite <- (at_coord_join (map snd da_list) (snd bd) y x).
  2:{ apply in_map. apply list_elem_of_In. eapply list_elem_of_lookup_2, Hk. }
  rewrite <- Hy, <- Hx.
  unfold cr_at, at_coord. rewrite Hv, list_lookup_fmap, Hk. reflexivity.
Qed.

Lemma merge_and_composite_inv (granule_da_df : DataFrame DaRow) (cr : CompositeRaster) :
  merge_and_composite_arrays granule_da_df = Some cr ->
  exists da_list,
    mapM (fun g => band_composite (fst g) (snd g))
         (groupby row_band String.leb granule_da_df) = Some da_list /\
    xr_concat_band da_list = Some cr.
Proof.
  unfold merge_and_composite_arrays.
  destruct (mapM _ _) as [da_list|]; [|discriminate]. eauto.
Qed.

(** C1. When [merge_and_composite_arrays] returns the composite raster:
    for every band and date the mosaic of that date was re-masked, each
    cell with a value at or below zero set to missing and each other cell
    kept; and every cell of the returned raster, at every (band, y, x), is
    missing or strictly positive. *)
Theorem composite_no_nonpositive
    (granule_da_df : DataFrame DaRow) (cr : CompositeRaster) :
  merge_and_composite_arrays granule_da_df = Some cr ->
  (forall band band_df dt date_df,
     In (band, band_df) (groupby row_band String.leb granule_da_df) ->
     In (dt, date_df) (groupby row_datetime Z.leb band_df) ->
     exists merged_da swept,
       merge_arrays (map (fun idr => da (snd idr)) date_df) = Some merged_da /\
       merge_date date_df = Some swept /\
       shape (da_values swept) = shape (da_values merged_da) /\
       forall i j p,
         cell_at (da_values merged_da) i j = Some p ->
         cell_at (da_values swept) i j = Some (keep_positive p) /\
         (forall q, p = Some q -> (q <= 0)%Q -> keep_positive p = None) /\
         (forall q, p = Some q -> (0 < q)%Q -> keep_positive p = Some q)) /\
  (forall plane r p,
     In plane (cr_values cr) -> In r plane -> In p r ->
     p = None \/ exists q, p = Some q /\ (0 < q)%Q) /\
  (forall k y x q, cr_at cr k y x = Some q -> (0 < q)%Q).
Proof.
  intros H. apply merge_and_composite_inv in H as (da_list & Hlist & Hcr).
  assert (Hcells : forall bd, In bd da_list ->
            all_cells positive_or_missing (da_values (snd bd))).
  { intros bd Hbd. apply mapM_Some in Hlist.
    apply list_elem_of_In, list_elem_of_lookup in Hbd as [k Hk].
    destruct (Forall2_lookup_r _ _ _ _ _ Hlist Hk) as (g & _ & Hg).
    apply band_composite_inv in Hg as (das & c & Hdas & Hc & _ & ->).
    simpl. eapply concat_median_cells; [exact Hc|].
    exact (merged_das_cells _ _ Hdas). }
  split; [|split].
  - intros band band_df dt date_df Hband Hdate.
    destruct (mapM_In _ _ _ _ Hlist Hband) as (bd & Hbd & _). simpl in Hbd.
    apply band_composite_inv in Hbd as (das & c & Hdas & _).
    destruct (mapM_In _ _ _ _ Hdas Hdate) as (swept & Hsw & _). simpl in Hsw.
    destruct (merge_date_inv _ _ Hsw) as (merged_da & Hm & ->).
    exists merged_da, (map_cells keep_positive merged_da).
    split; [exact Hm|]. split; [exact Hsw|]. split; [apply shape_map|].
    intros i j p Hp. split.
    + simpl. rewrite cell_at_map, Hp. reflexivity.
    + split; apply keep_positive_spec.
  - intros plane r p Hplane Hr Hp.
    apply xr_concat_band_inv in Hcr as (_ & _ & _ & Hv).
    rewrite Hv in Hplane. apply in_map_iff in Hplane as (bd & <- & Hbd).
    assert (Hok : positive_or_missing p).
    { revert r p Hr Hp. unfold reindex. simpl. apply tabulate_all_cells.
      intros y x. apply at_coord_all_cells; [exact I|]. apply Hcells, Hbd. }
    destruct p as [q|]; [right; exists q; auto|left; reflexivity].
  - intros k y x q Hq.
    destruct (da_list !! k) as [bd|] eqn:Hk.
    + rewrite (cr_at_band _ _ _ _ y x Hcr Hk) in Hq.
      assert (Hok : positive_or_missing (at_coord (snd bd) y x)).
      { apply at_coord_all_cells; [exact I|]. apply Hcells.
        apply list_elem_of_In. eapply list_elem_of_lookup_2, Hk. }
      rewrite Hq in Hok. exact Hok.
    + apply xr_concat_band_inv in Hcr as (_ & _ & _ & Hv).
      unfold cr_at in Hq. rewrite Hv, list_lookup_fmap, Hk in Hq. discriminate.
Qed.

(** C2. When [merge_and_composite_arrays] returns, the cell of every band
    at every (y, x) is the median of the values that the re-masked per-date
    mosaics of that band have there and that are not missing: the middle
    value of the sorted values, or the mean of the two middle ones. If one
    date alone has a value there, the cell is that value; the cell is
    missing exactly when every date is missing there. *)
Theorem composite_is_median
    (granule_da_df : DataFrame DaRow) (cr : CompositeRaster) :
  merge_and_composite_arrays granule_da_df = Some cr ->
  exists da_list,
    Forall2 (fun g bd => band_composite (fst g) (snd g) = Some bd)
            (groupby row_band String.leb granule_da_df) da_list /\
    cr_band cr = map fst da_list /\
    forall k band band_df,
      groupby row_band String.leb granule_da_df !! k = Some (band, band_df) ->
      exists das,
        merged_das band_df = Some das /\
        das <> [] /\
        Forall2 (fun g m => merge_date (snd g) = Some m)
                (groupby row_datetime Z.leb band_df) das /\
        forall y x,
          let dates := map (fun d => at_coord d y x) das in
          cr_at cr k y x = nanmedian dates /\
          (forall m, cr_at cr k y x = Some m ->
                     median_of (valid dates) m /\ is_median m (valid dates)) /\
          (forall v, valid dates = [v] -> cr_at cr k y x = Some v) /\
          (cr_at cr k y x = None <-> Forall (fun p => p = None) dates).
Proof.
  intros H. apply merge_and_composite_inv in H as (da_list & Hlist & Hcr).
  exists da_list. apply mapM_Some in Hlist.
  split; [exact Hlist|].
  split; [apply (xr_concat_band_inv _ _ Hcr)|].
  intros k band band_df Hk.
  destruct (Forall2_lookup_l _ _ _ _ _ Hlist Hk) as (bd & Hbd & Hg). simpl in Hg.
  apply band_composite_inv in Hg as (das & c & Hdas & Hc & _ & Hsnd).
  apply concat_median_at in Hc as [Hne Hc].
  exists das. split; [exact Hdas|]. split; [exact Hne|].
  split; [apply mapM_Some, Hdas|].
  intros y x dates.
  assert (E : cr_at cr k y x = nanmedian dates).
  { rewrite (cr_at_band _ _ _ _ y x Hcr Hbd), Hsnd, at_coord_set_name. apply Hc. }
  split; [exact E|]. rewrite E. split; [|split].
  - intros m Hm. split; [apply nanmedian_median_of, Hm|apply nanmedian_is_median, Hm].
  - apply nanmedian_single.
  - rewrite nanmedian_None. apply valid_nil.
Qed.

(** *** Further properties of the reducer *)

Lemma composite_cell (granule_da_df : DataFrame DaRow) (cr : CompositeRaster)
    (k : nat) (band : string) (band_df : DataFrame DaRow) :
  merge_and_composite_arrays granule_da_df = Some cr ->
  groupby row_band String.leb granule_da_df !! k = Some (band, band_df) ->
  exists das composite_da b,
    merged_das band_df = Some das /\
    concat_median das = Some composite_da /\
    band_number band = Some b /\
    cr_band cr !! k = Some b /\
    forall y x, cr_at cr k y x = nanmedian (map (fun d => at_coord d y x) das).
Proof.
  intros H Hk. apply merge_and_composite_inv in H as (da_list & Hlist & Hcr).
  apply mapM_Some in Hlist.
  destruct (Forall2_lookup_l _ _ _ _ _ Hlist Hk) as (bd & Hbd & Hg). simpl in Hg.
  apply band_composite_inv in Hg as (das & c & Hdas & Hc & Hb & Hsnd).
  exists das, c, (fst bd). repeat (split; [assumption|]). split.
  - rewrite (proj1 (xr_concat_band_inv _ _ Hcr)), list_lookup_fmap, Hbd. reflexivity.
  - intros y x. rewrite (cr_at_band _ _ _ _ y x Hcr Hbd), Hsnd, at_coord_set_name.
    apply (concat_median_at _ _ Hc).
Qed.



(** The planes follow the band codes in ascending string order, one plane
    per distinct code, each labelled with the number after the code's
    first character; the order is that of the codes, not of the numbers. *)
Theorem composite_band_order (granule_da_df : DataFrame DaRow) (cr : CompositeRaster) :
  merge_and_composite_arrays granule_da_df = Some cr ->
  let codes := sorted_keys row_band String.leb granule_da_df in
  mapM band_number codes = Some (cr_band cr) /\
  NoDup codes /\
  StronglySorted (fun a b => String.leb a b = true) codes /\
  (forall code, In code codes <->
                exists idr, In idr granule_da_df /\ row_band (snd idr) = code).
Proof.
  intros H codes. split; [|split; [|split]].
  - apply merge_and_composite_inv in H as (da_list & Hlist & Hcr).
    rewrite (proj1 (xr_concat_band_inv _ _ Hcr)).
    unfold codes. rewrite <- (groupby_keys row_band String.leb granule_da_df).
    apply mapM_Some in Hlist. apply mapM_Some.
    clear Hcr. induction Hlist as [|g bd gs bds Hg _ IH]; simpl; [constructor|].
    constructor; [|exact IH].
    apply band_composite_inv in Hg as (_ & _ & _ & _ & Hb & _). exact Hb.
  - apply sorted_keys_NoDup.
  - apply sorted_keys_sorted; [apply string_leb_total|apply string_leb_trans].
  - intros code. unfold codes. rewrite <- list_elem_of_In, sorted_keys_elem.
    split; intros (idr & Hin & E); exists idr; split; auto; apply list_elem_of_In, Hin.
Qed.

(** The y and x labels of the returned raster are exactly the labels that
    occur in some re-masked mosaic of some band and date: the outer joins
    drop no cell and invent no label. *)
Theorem composite_extent (granule_da_df : DataFrame DaRow) (cr : CompositeRaster) :
  merge_and_composite_arrays granule_da_df = Some cr ->
  let mosaic m :=
    exists band band_df das,
      In (band, band_df) (groupby row_band String.leb granule_da_df) /\
      merged_das band_df = Some das /\ In m das in
  (forall y, In y (cr_y cr) <-> exists m, mosaic m /\ In y (da_y m)) /\
  (forall x, In x (cr_x cr) <-> exists m, mosaic m /\ In x (da_x m)).
Proof.
  intros H mosaic. apply merge_and_composite_inv in H as (da_list & Hlist & Hcr).
  apply xr_concat_band_inv in Hcr as (_ & Hy & Hx & _).
  assert (Hfwd : forall d, In d (map snd da_list) ->
            exists band band_df das,
              In (band, band_df) (groupby row_band String.leb granule_da_df) /\
              merged_das band_df = Some das /\
              da_y d = join_outer (map da_y das) /\ da_x d = join_outer (map da_x das)).
  { intros d Hd. apply in_map_iff in Hd as (bd & <- & Hbd).
    apply mapM_Some in Hlist.
    apply list_elem_of_In, list_elem_of_lookup in Hbd as [k Hk].
    destruct (Forall2_lookup_r _ _ _ _ _ Hlist Hk) as ([band band_df] & Hg & Hc).
    simpl in Hc. apply band_composite_inv in Hc as (das & c & Hdas & Hc & _ & ->).
    apply concat_median_coords in Hc as [Hcy Hcx].
    exists band, band_df, das. split; [|auto].
    apply list_elem_of_In. eapply list_elem_of_lookup_2, Hg. }
  assert (Hbwd : forall band band_df das,
            In (band, band_df) (groupby row_band String.leb granule_da_df) ->
            merged_das band_df = Some das ->
            exists d, In d (map snd da_list) /\
                      da_y d = join_outer (map da_y das) /\
                      da_x d = join_outer (map da_x das)).
  { intros band band_df das Hg Hdas.
    destruct (mapM_In _ _ _ _ Hlist Hg) as (bd & Hbd & Hin). simpl in Hbd.
    apply band_composite_inv in Hbd as (das' & c & Hdas' & Hc & _ & Hs).
    assert (das' = das) by congruence. subst das'.
    apply concat_median_coords in Hc as [Hcy Hcx].
    exists (snd bd). split; [apply in_map, Hin|]. rewrite Hs. auto. }
  split.
  - intros y. rewrite Hy. split.
    + intros Hin. apply join_outer_In_inv in Hin as (cs & Hcs & Hin).
      apply in_map_iff in Hcs as (d & <- & Hd).
      destruct (Hfwd d Hd) as (band & band_df & das & Hg & Hdas & Hdy & _).
      rewrite Hdy in Hin. apply join_outer_In_inv in Hin as (cs & Hcs & Hin).
      apply in_map_iff in Hcs as (m & <- & Hm).
      exists m. split; [|exact Hin]. exists band, band_df, das. auto.
    + intros (m & (band & band_df & das & Hg & Hdas & Hm) & Hin).
      destruct (Hbwd band band_df das Hg Hdas) as (d & Hd & Hdy & _).
      apply (join_outer_In _ (da_y d)); [apply in_map, Hd|].
      rewrite Hdy. apply (join_outer_In _ (da_y m)); [apply in_map, Hm|exact Hin].
  - intros x. rewrite Hx. split.
    + intros Hin. apply join_outer_In_inv in Hin as (cs & Hcs & Hin).
      apply in_map_iff in Hcs as (d & <- & Hd).
      destruct (Hfwd d Hd) as (band & band_df & das & Hg & Hdas & _ & Hdx).
      rewrite Hdx in Hin. apply join_outer_In_inv in Hin as (cs & Hcs & Hin).
      apply in_map_iff in Hcs as (m & <- & Hm).
      exists m. split; [|exact Hin]. exists band, band_df, das. auto.
    + intros (m & (band & band_df & das & Hg & Hdas & Hm) & Hin).
      destruct (Hbwd band band_df das Hg Hdas) as (d & Hd & _ & Hdx).
      apply (join_outer_In _ (da_x d)); [apply in_map, Hd|].
      rewrite Hdx. apply (join_outer_In _ (da_x m)); [apply in_map, Hm|exact Hin].
Qed.

(** A composite value never leaves the range of what the dates hold: it
    lies between two of the values that the re-masked mosaics of its band
    have at that cell. *)
Theorem composite_within_range
    (granule_da_df : DataFrame DaRow) (cr : CompositeRaster)
    (k : nat) (band : string) (band_df : DataFrame DaRow) :
  merge_and_composite_arrays granule_da_df = Some cr ->
  groupby row_band String.leb granule_da_df !! k = Some (band, band_df) ->
  exists das,
    merged_das band_df = Some das /\
    forall y x m,
      cr_at cr k y x = Some m ->
      exists a b,
        In (Some a) (map (fun d => at_coord d y x) das) /\
        In (Some b) (map (fun d => at_coord d y x) das) /\
        (a <= m)%Q /\ (m <= b)%Q.
Proof.
  intros H Hk.
  destruct (composite_cell _ _ _ _ _ H Hk) as (das & c & b & Hdas & _ & _ & _ & Hcell).
  exists das. split; [exact Hdas|]. intros y x m Hm.
  rewrite Hcell in Hm. apply nanmedian_between, Hm.
Qed.

End Reducer.

End Composite.


(* ===================================================================== *)
(** ** 8. The tidy table handed to the clustering *)
(* ===================================================================== *)

Module Tidy.
Import Raster Pandas Links Reflectance Composite.

(** A frame whose rows are labelled by (y, x) and whose columns are
    labelled by band. Labels are kept as sets: the order in which pandas
    lists rows and columns is not modelled. *)
Record Frame := mkFrame {
  f_index : gset (Z * Z);
  f_columns : gset Z;
  f_value : Z * Z -> Z -> pixel
}.

(** The cell of the plane labelled [b], the first one if the label repeats. *)
Definition band_value (cr : CompositeRaster) (b y x : Z) : pixel :=
  match index_of b (cr_band cr) with
  | Some k => cr_at cr k y x
  | None => None
  end.

(** [reflectance_da.to_dataframe().reflectance.unstack('band')]: one row
    per (y, x), one column per band; reshaping raises when an entry
    (band, y, x) occurs twice. *)
Definition unstack_band (cr : CompositeRaster) : option Frame :=
  if decide (NoDup (list_prod (cr_band cr) (list_prod (cr_y cr) (cr_x cr)))) then
    Some {| f_index := list_to_set (list_prod (cr_y cr) (cr_x cr));
            f_columns := list_to_set (cr_band cr);
            f_value := fun yx b => band_value cr b (fst yx) (snd yx) |}
  else None.

(** [df.drop(columns=labels)]: a label that is no column is a key error. *)
Definition drop_columns (labels : list Z) (f : Frame) : option Frame :=
  if decide (Forall (fun b => b ∈ f_columns f) labels) then
    Some {| f_index := f_index f;
            f_columns := f_columns f ∖ list_to_set labels;
            f_value := f_value f |}
  else None.

(** [df.dropna()]: the rows without a missing value. *)
Definition complete (f : Frame) (yx : Z * Z) : Prop :=
  set_Forall (fun b => is_Some (f_value f yx b)) (f_columns f).

Definition dropna (f : Frame) : Frame :=
  {| f_index := filter (complete f) (f_index f);
     f_columns := f_columns f;
     f_value := f_value f |}.

(** The three steps on the composite raster. *)
Definition tidy (reflectance_da : CompositeRaster) : option Frame :=
  match unstack_band reflectance_da with
  | Some reflectance_df =>
      match drop_columns [10; 11]%Z reflectance_df with
      | Some reflectance_df => Some (dropna reflectance_df)
      | None => None
      end
  | None => None
  end.

Lemma tidy_inv (cr : CompositeRaster) (t : Frame) :
  tidy cr = Some t ->
  NoDup (list_prod (cr_band cr) (list_prod (cr_y cr) (cr_x cr))) /\
  (10%Z ∈ cr_band cr /\ 11%Z ∈ cr_band cr) /\
  f_columns t = list_to_set (cr_band cr) ∖ {[10%Z; 11%Z]} /\
  f_value t = (fun yx b => band_value cr b (fst yx) (snd yx)) /\
  forall yx, yx ∈ f_index t <->
             yx ∈ list_prod (cr_y cr) (cr_x cr) /\
             forall b, b ∈ f_columns t -> is_Some (band_value cr b (fst yx) (snd yx)).
Proof.
  unfold tidy, unstack_band, drop_columns.
  destruct (decide (NoDup _)) as [Hnd|]; [|discriminate]. simpl.
  destruct (decide (Forall _ _)) as [Hcols|]; [|discriminate].
  intros H. inversion H; subst t; clear H. simpl.
  split; [exact Hnd|]. split.
  - apply Forall_cons in Hcols as [H10 Hcols]. apply Forall_cons in Hcols as [H11 _].
    rewrite elem_of_list_to_set in H10, H11. auto.
  - split; [f_equal; set_solver|]. split; [reflexivity|].
    intros yx. rewrite elem_of_filter, elem_of_list_to_set. unfold complete. simpl.
    tauto.
Qed.

(** The thermal columns are dropped by label, so a raster that lacks band
    10 or band 11 makes the tidy step raise. *)
Theorem tidy_needs_bands_10_11 (cr : CompositeRaster) :
  ~ In 10%Z (cr_band cr) \/ ~ In 11%Z (cr_band cr) ->
  tidy cr = None.
Proof.
  intros H. destruct (tidy cr) as [t|] eqn:E; [|reflexivity].
  apply tidy_inv in E as (_ & [H10 H11] & _).
  rewrite list_elem_of_In in H10, H11. tauto.
Qed.

Lemma NoDup_prod_l {A B} (l : list A) (k : list B) :
  k <> [] -> NoDup (list_prod l k) -> NoDup l.
Proof.
  intros Hk. induction l as [|a l IH]; simpl; intros H; [constructor|].
  apply NoDup_app in H as (_ & Hdisj & Hrest).
  apply NoDup_cons. split; [|apply IH, Hrest].
  intros Ha. destruct k as [|b k]; [congruence|].
  apply (Hdisj (a, b)).
  - apply list_elem_of_fmap. exists b. split; [reflexivity|apply list_elem_of_here].
  - apply list_elem_of_In, in_prod; [apply list_elem_of_In, Ha|simpl; auto].
Qed.

Lemma index_of_NoDup (cs : list Z) (k : nat) (c : Z) :
  NoDup cs -> cs !! k = Some c -> index_of c cs = Some k.
Proof.
  intros Hnd. revert k. induction Hnd as [|c' cs Hnin Hnd IH]; intros k Hk;
    [discriminate|].
  simpl. destruct k as [|k]; simpl in Hk.
  - inversion Hk; subst. rewrite Z.eqb_refl. reflexivity.
  - destruct (Z.eqb_spec c c') as [->|_].
    + exfalso. apply Hnin. eapply list_elem_of_lookup_2, Hk.
    + rewrite (IH k Hk). reflexivity.
Qed.

(** When the tidy step returns on a raster with at least one cell, its
    columns are the raster's bands without 10 and 11, its values are the
    raster's cells, and its rows are exactly the cells (y, x) at which
    every remaining band has a value: what bands 10 and 11 hold at a cell
    plays no part in whether the cell is kept. *)
Theorem tidy_rows (cr : CompositeRaster) (t : Frame) :
  tidy cr = Some t ->
  cr_y cr <> [] -> cr_x cr <> [] ->
  (forall b, b ∈ f_columns t <-> In b (cr_band cr) /\ b <> 10%Z /\ b <> 11%Z) /\
  (forall k b y x, cr_band cr !! k = Some b -> f_value t (y, x) b = cr_at cr k y x) /\
  (forall y x,
     (y, x) ∈ f_index t <->
     In y (cr_y cr) /\ In x (cr_x cr) /\
     forall k b, cr_band cr !! k = Some b -> b <> 10%Z -> b <> 11%Z ->
                 is_Some (cr_at cr k y x)).
Proof.
  intros H Hy Hx. apply tidy_inv in H as (Hnd & _ & Hcols & Hval & Hidx).
  assert (Hbands : NoDup (cr_band cr)).
  { apply (NoDup_prod_l (cr_band cr) (list_prod (cr_y cr) (cr_x cr))); [|exact Hnd].
    destruct (cr_y cr) as [|y ys]; [congruence|].
    destruct (cr_x cr) as [|x xs]; [congruence|]. discriminate. }
  assert (Hv : forall k b y x, cr_band cr !! k = Some b ->
                               band_value cr b y x = cr_at cr k y x).
  { intros k b y x Hk. unfold band_value.
    rewrite (index_of_NoDup _ _ _ Hbands Hk). reflexivity. }
  assert (Hc : forall b, b ∈ f_columns t <-> In b (cr_band cr) /\ b <> 10%Z /\ b <> 11%Z).
  { intros b. rewrite Hcols, <- list_elem_of_In.
    rewrite elem_of_difference, elem_of_list_to_set, elem_of_union, !elem_of_singleton.
    tauto. }
  split; [exact Hc|]. split.
  - intros k b y x Hk. rewrite Hval. simpl. apply Hv, Hk.
  - intros y x. rewrite Hidx. simpl.
    rewrite list_elem_of_In, in_prod_iff. split.
    + intros ([Hiny Hinx] & Hall). split; [exact Hiny|]. split; [exact Hinx|].
      intros k b Hk H10 H11. rewrite <- (Hv k b y x Hk). apply Hall, Hc.
      split; [|auto]. apply list_elem_of_In. eapply list_elem_of_lookup_2, Hk.
    + intros (Hiny & Hinx & Hall). split; [auto|]. intros b Hb.
      apply Hc in Hb as (Hin & H10 & H11).
      apply list_elem_of_In, list_elem_of_lookup in Hin as [k Hk].
      rewrite (Hv k b y x Hk). apply (Hall k b Hk H10 H11).
Qed.

Section Clustering.
Variable merge_arrays : list DataArray -> option DataArray.

Lemma cr_at_positive (granule_da_df : DataFrame DaRow) (cr : CompositeRaster)
    (k : nat) (y x : Z) (q : Q) :
  merge_and_composite_arrays merge_arrays granule_da_df = Some cr ->
  cr_at cr k y x = Some q -> (0 < q)%Q.
Proof.
  intros H Hq.
  destruct (groupby row_band String.leb granule_da_df !! k) as [[band band_df]|] eqn:Hk.
  - destruct (composite_cell _ _ _ _ _ _ H Hk)
      as (das & c & b & Hdas & _ & _ & _ & Hcell).
    rewrite Hcell in Hq.
    assert (Hok : positive_or_missing (nanmedian (map (fun d => at_coord d y x) das))).
    { apply nanmedian_positive. apply List.Forall_forall. intros p Hp.
      apply in_map_iff in Hp as (d & <- & Hd).
      apply at_coord_all_cells; [exact I|].
      pose proof (merged_das_cells _ _ _ Hdas) as Hall.
      rewrite List.Forall_forall in Hall. apply Hall, Hd. }
    rewrite Hq in Hok. exact Hok.
  - apply merge_and_composite_inv in H as (da_list & Hlist & Hcr).
    apply mapM_length_eq in Hlist. apply lookup_ge_None in Hk.
    apply xr_concat_band_inv in Hcr as (_ & _ & _ & Hv).
    unfold cr_at in Hq.
    rewrite Hv, list_lookup_fmap, (proj2 (lookup_ge_None da_list k)) in Hq by lia.
    discriminate.
Qed.

(** What reaches the clustering: on the composite the reducer returns,
    every value of the tidy table is present and strictly positive. *)
Theorem tidy_values_positive
    (granule_da_df : DataFrame DaRow) (cr : CompositeRaster) (t : Frame) :
  merge_and_composite_arrays merge_arrays granule_da_df = Some cr ->
  tidy cr = Some t ->
  forall yx b, yx ∈ f_index t -> b ∈ f_columns t ->
    exists q, f_value t yx b = Some q /\ (0 < q)%Q.
Proof.
  intros Hcr Ht yx b Hyx Hb.
  apply tidy_inv in Ht as (_ & _ & _ & Hval & Hidx).
  apply Hidx in Hyx as [_ Hall]. destruct (Hall b Hb) as [q Hq].
  exists q. rewrite Hval. simpl. split; [exact Hq|].
  unfold band_value in Hq. destruct (index_of b (cr_band cr)) as [k|]; [|discriminate].
  exact (cr_at_positive _ _ _ _ _ _ Hcr Hq).
Qed.

End Clustering.

End Tidy.


(* ===================================================================== *)
(** ** 9. The two stages together *)
(* ===================================================================== *)

Module Pipeline.
Import Regex Raster Pandas Links Reflectance Composite.

Section Stages.
Context {Boundary : Type}.
Variable to_crs : Boundary -> Z -> Boundary.
Variable total_bounds : Boundary -> bounds.
Variable clip_box : DataArray -> bounds -> option DataArray.
Variable boundary_gdf : Boundary.
Variable merge_arrays : list DataArray -> option DataArray.



End Stages.

End Pipeline.


(* ===================================================================== *)
(** ** 10. A small run: two dates, two tiles of 2 x 2 cells, one spectral band *)
(* ===================================================================== *)

Module Demo.
Import Regex Raster Pandas Links Reflectance Composite Tidy Pipeline.

(** A boundary is its bounding box in some coordinate system; the toy
    reprojection relabels the system and keeps the box. *)
Record Boundary := mkBoundary {
  b_crs : Z;
  b_bounds : bounds
}.

Definition to_crs (b : Boundary) (crs : Z) : Boundary :=
  {| b_crs := crs; b_bounds := b_bounds b |}.

Definition in_box (lo hi c : Z) : bool := (lo <=? c)%Z && (c <=? hi)%Z.

(** Keep the rows and columns whose labels lie in the box. *)
Definition clip_box (d : DataArray) (b : bounds) : option DataArray :=
  let '(minx, miny, maxx, maxy) := b in
  let rows := List.filter (fun yr => in_box miny maxy (fst yr)) (zip (da_y d) (da_values d)) in
  let keep_cols r := map snd (List.filter (fun xp => in_box minx maxx (fst xp)) (zip (da_x d) r)) in
  let xs := List.filter (in_box minx maxx) (da_x d) in
  match rows, xs with
  | [], _ | _, [] => None
  | _, _ =>
      Some {| da_name := da_name d; da_crs := da_crs d;
              da_y := map fst rows; da_x := xs;
              da_values := map (fun yr => keep_cols (snd yr)) rows |}
  end.

(** A mosaic on the union of the tiles' grids, north at the top: a cell
    is the cell of the first tile whose grid covers it, whatever that tile
    holds there, and 0 where no tile covers it. *)
Definition covers (d : DataArray) (y x : Z) : bool :=
  existsb (Z.eqb y) (da_y d) && existsb (Z.eqb x) (da_x d).

Definition first_cover (das : list DataArray) (y x : Z) : pixel :=
  match List.filter (fun d => covers d y x) das with
  | d :: _ => at_coord d y x
  | [] => Some 0%Q
  end.

Definition merge_arrays (das : list DataArray) : option DataArray :=
  match das with
  | [] => None
  | d0 :: _ =>
      let ys := foldr (insert_key Z.geb) [] (remove_dups (concat (map da_y das))) in
      let xs := foldr (insert_key Z.leb) [] (remove_dups (concat (map da_x das))) in
      Some {| da_name := da_name d0; da_crs := da_crs d0; da_y := ys; da_x := xs;
              da_values := map (fun y => map (first_cover das y) xs) ys |}
  end.

(** A tile of two rows, at y = 30 and y = 0, with cells of 30 x 30. *)
Definition tile (name : string) (xs : list Z) (counts : list (list Z)) : GeoTiff :=
  {| full_name := name; tif_crs := 32615; tif_y := [30; 0]%Z; tif_x := xs;
     tif_data := counts; tif_nodata := Some (-9999)%Z |}.

Definition footprint_ring : Polygon := [(0, 0); (1, 0); (1, 1); (0, 1)]%Q.

Definition granule_a1 : Granule :=
  {| GranuleUR := Some "HLS.L30.T15RYN.2024153T163905.v2.0";
     BeginningDateTime := Some 100%Z;
     GPolygons := Some [footprint_ring];
     data_files :=
       [tile "HLS.L30.T15RYN.2024153T163905.v2.0.B04.tif" [0; 30]%Z
             [[1200; 800]; [1100; -50]]%Z;
        tile "HLS.L30.T15RYN.2024153T163905.v2.0.Fmask.tif" [0; 30]%Z
             [[0; 10]; [0; 0]]%Z] |}.

Definition granule_b1 : Granule :=
  {| GranuleUR := Some "HLS.L30.T15RYP.2024153T163905.v2.0";
     BeginningDateTime := Some 100%Z;
     GPolygons := Some [footprint_ring];
     data_files :=
       [tile "HLS.L30.T15RYP.2024153T163905.v2.0.B04.tif" [60; 90]%Z
             [[-9999; 0]; [500; 700]]%Z;
        tile "HLS.L30.T15RYP.2024153T163905.v2.0.Fmask.tif" [60; 90]%Z
             [[0; 0]; [0; 0]]%Z] |}.

Definition granule_a2 : Granule :=
  {| GranuleUR := Some "HLS.L30.T15RYN.2024169T163905.v2.0";
     BeginningDateTime := Some 200%Z;
     GPolygons := Some [footprint_ring];
     data_files :=
       [tile "HLS.L30.T15RYN.2024169T163905.v2.0.B04.tif" [0; 30]%Z
             [[1000; 600]; [900; 300]]%Z;
        tile "HLS.L30.T15RYN.2024169T163905.v2.0.Fmask.tif" [0; 30]%Z
             [[1; 0]; [0; 2]]%Z] |}.

(** A granule delivered without its Fmask file. *)
Definition granule_no_fmask : Granule :=
  {| GranuleUR := Some "HLS.L30.T15RYN.2024185T163905.v2.0";
     BeginningDateTime := Some 300%Z;
     GPolygons := Some [footprint_ring];
     data_files :=
       [tile "HLS.L30.T15RYN.2024185T163905.v2.0.B04.tif" [0; 30]%Z
             [[900; 700]; [800; 600]]%Z] |}.

Definition results : list Granule := [granule_a1; granule_b1; granule_a2].

(** The boundary encloses both tiles, cell edges included. *)
Definition delta_gdf : Boundary :=
  {| b_crs := 4326; b_bounds := (-15, -15, 105, 45)%Z |}.

Definition run (search_results : list Granule) : M (DataFrame DaRow) :=
  compute_reflectance_da to_crs b_bounds clip_box delta_gdf search_results.

Definition file_df : DataFrame Row :=
  Eval vm_compute in default [] (get_earthaccess_links results).

Definition reflectance_da_df : DataFrame DaRow :=
  Eval vm_compute in
    match run results [] with
    | Some (out, _) => out
    | None => []
    end.

Definition reflectance_da : option CompositeRaster :=
  Eval vm_compute in merge_and_composite_arrays merge_arrays reflectance_da_df.

Definition composite : CompositeRaster :=
  Eval vm_compute in
    default (mkComposite "" [] [] [] []) reflectance_da.

Definition results_no_fmask : list Granule := results ++ [granule_no_fmask].

Definition file_df_no_fmask : DataFrame Row :=
  Eval vm_compute in default [] (get_earthaccess_links results_no_fmask).

Definition lone_band_group : DataFrame Row :=
  Eval vm_compute in group_of granule_key file_df_no_fmask (300%Z, "T15RYN").

Definition groups_no_fmask : list ((Z * string) * DataFrame Row) :=
  Eval vm_compute in groupby granule_key key_leb file_df_no_fmask.

Lemma links_eq : get_earthaccess_links results = Some file_df.
Proof. vm_compute. reflexivity. Qed.

Lemma run_eq :
  run results [] =
    Some (reflectance_da_df, [32615; 32615; 32615; 32615; 32615; 32615]%Z).
Proof. vm_compute. reflexivity. Qed.

Lemma composite_eq :
  merge_and_composite_arrays merge_arrays reflectance_da_df = Some composite.
Proof. vm_compute. reflexivity. Qed.

Lemma link_table_complete_witness :
  get_earthaccess_links results = Some file_df /\
  (exists per_granule,
     Forall2 (fun g rows => granule_rows g = Some rows) results per_granule /\
     map snd file_df = concat per_granule) /\
  map fst file_df = seq 0 (length file_df).
Proof.
  split; [exact links_eq|].
  destruct (link_table_complete results file_df links_eq) as (H1 & _ & H3).
  split; assumption.
Defined.

Lemma reflectance_rows_masked_witness :
  run results [] =
    Some (reflectance_da_df, [32615; 32615; 32615; 32615; 32615; 32615]%Z) /\
  exists links outs,
    get_earthaccess_links results = Some links /\
    reflectance_da_df = concat outs /\
    Permutation (map strip reflectance_da_df) (List.filter is_spectral links).
Proof.
  split; [exact run_eq|].
  destruct (reflectance_rows_masked to_crs b_bounds clip_box delta_gdf
              results [] reflectance_da_df _ run_eq)
    as (links & outs & Hl & Ho & _ & Hp & _).
  exists links, outs. auto.
Defined.

Lemma missing_fmask_fails_witness :
  get_earthaccess_links results_no_fmask = Some file_df_no_fmask /\
  In ((300%Z, "T15RYN"), lone_band_group)
     (groupby granule_key key_leb file_df_no_fmask) /\
  (forall ir, In ir lone_band_group -> band (snd ir) <> "Fmask") /\
  run results_no_fmask [] = None.
Proof.
  assert (H1 : get_earthaccess_links results_no_fmask = Some file_df_no_fmask)
    by (vm_compute; reflexivity).
  assert (H2 : In ((300%Z, "T15RYN"), lone_band_group)
                  (groupby granule_key key_leb file_df_no_fmask)).
  { assert (E : groupby granule_key key_leb file_df_no_fmask = groups_no_fmask)
      by (vm_compute; reflexivity).
    rewrite E. unfold groups_no_fmask, lone_band_group. simpl.
    repeat (first [left; reflexivity | right]). }
  assert (H3 : forall ir, In ir lone_band_group -> band (snd ir) <> "Fmask").
  { unfold lone_band_group. intros ir [<-|[]]. simpl. discriminate. }
  repeat (split; [assumption|]).
  exact (missing_fmask_fails to_crs b_bounds clip_box delta_gdf
           results_no_fmask file_df_no_fmask _ _ [] H1 H2 H3).
Defined.

Lemma composite_no_nonpositive_witness :
  merge_and_composite_arrays merge_arrays reflectance_da_df = Some composite /\
  (forall plane r p,
     In plane (cr_values composite) -> In r plane -> In p r ->
     p = None \/ exists q, p = Some q /\ (0 < q)%Q) /\
  (forall k y x q, cr_at composite k y x = Some q -> (0 < q)%Q).
Proof.
  split; [exact composite_eq|].
  destruct (composite_no_nonpositive merge_arrays reflectance_da_df composite
              composite_eq) as (_ & H2 & H3).
  split; assumption.
Defined.

Lemma composite_is_median_witness :
  merge_and_composite_arrays merge_arrays reflectance_da_df = Some composite /\
  exists das,
    merged_das merge_arrays reflectance_da_df = Some das /\
    forall y x,
      cr_at composite 0 y x = nanmedian (map (fun d => at_coord d y x) das).
Proof.
  split; [exact composite_eq|].
  destruct (composite_is_median merge_arrays reflectance_da_df composite
              composite_eq) as (da_list & _ & _ & H).
  destruct (H 0%nat "B04" reflectance_da_df ltac:(vm_compute; reflexivity))
    as (das & Hdas & _ & _ & Hcells).
  exists das. split; [exact Hdas|]. intros y x. apply Hcells.
Defined.

(** C10, against the code. The run over three groups, each with one Fmask
    and one band file of 2 x 2 cells inside the boundary, opens six rasters
    and reprojects the boundary six
    times, once in every [open_dataarray] call and each time into the same
    coordinate system: the reprojected boundary of the first call is not
    reused by the later ones. *)
Theorem reprojection_repeated :
  exists out log,
    run results [] = Some (out, log) /\
    log = [32615; 32615; 32615; 32615; 32615; 32615]%Z /\
    length (groupby granule_key key_leb file_df) = 3%nat /\
    length out = 3%nat /\
    (1 < length log)%nat.
Proof.
  exists reflectance_da_df, [32615; 32615; 32615; 32615; 32615; 32615]%Z.
  split; [exact run_eq|]. split; [reflexivity|].
  split; [vm_compute; reflexivity|]. split; [reflexivity|]. simpl. lia.
Qed.

(** *** Runs for the further properties *)

Lemma results_ascii : ascii_results results.
Proof. repeat constructor. Qed.

Lemma links_all_or_nothing_witness :
  ascii_results results /\
  is_Some (get_earthaccess_links results) /\
  Forall (fun g => is_Some (GranuleUR g) /\ is_Some (BeginningDateTime g) /\
                   exists points,
                     first_ring g = Some points /\
                     length points <> 1%nat /\ length points <> 2%nat) results.
Proof.
  split; [exact results_ascii|].
  assert (Hs : is_Some (get_earthaccess_links results))
    by (rewrite links_eq; eauto).
  split; [exact Hs|].
  exact (proj1 (proj1 (links_all_or_nothing results results_ascii) Hs)).
Defined.

Lemma link_rows_well_formed_witness :
  ascii_results results /\
  get_earthaccess_links results = Some file_df /\
  Forall (fun ir => all_in is_word (chars (tile_id (snd ir))) /\
                    all_in is_alnum (chars (band (snd ir))) /\
                    contains_grammar (full_name (url (snd ir)))) file_df.
Proof.
  split; [exact results_ascii|]. split; [exact links_eq|].
  exact (link_rows_well_formed results file_df results_ascii links_eq).
Defined.

Lemma output_keeps_labels_witness :
  run results [] =
    Some (reflectance_da_df, [32615; 32615; 32615; 32615; 32615; 32615]%Z) /\
  map fst reflectance_da_df = [0; 2; 4]%nat /\
  exists links,
    get_earthaccess_links results = Some links /\
    NoDup (map fst reflectance_da_df) /\
    Forall (fun idr => links !! fst idr = Some (fst idr, row (snd idr)))
           reflectance_da_df.
Proof.
  split; [exact run_eq|]. split; [reflexivity|].
  exact (output_keeps_labels to_crs b_bounds clip_box delta_gdf
           results [] reflectance_da_df _ run_eq).
Defined.

Lemma output_named_after_band_witness :
  run results [] =
    Some (reflectance_da_df, [32615; 32615; 32615; 32615; 32615; 32615]%Z) /\
  Forall (fun idr => da_name (da (snd idr)) = Some (band (row (snd idr))))
         reflectance_da_df.
Proof.
  split; [exact run_eq|].
  exact (output_named_after_band to_crs b_bounds clip_box delta_gdf
           results [] reflectance_da_df _ run_eq).
Defined.

(** A search whose granules deliver their Fmask files only. *)
Definition granule_fmask_only : Granule :=
  {| GranuleUR := Some "HLS.L30.T15RYN.2024201T163905.v2.0";
     BeginningDateTime := Some 400%Z;
     GPolygons := Some [footprint_ring];
     data_files :=
       [tile "HLS.L30.T15RYN.2024201T163905.v2.0.Fmask.tif" [0; 30]%Z
             [[0; 0]; [0; 0]]%Z] |}.

Definition file_df_fmask_only : DataFrame Row :=
  Eval vm_compute in default [] (get_earthaccess_links [granule_fmask_only]).

Lemma no_spectral_rows_raises_witness :
  (forall links,
     get_earthaccess_links [granule_fmask_only] = Some links ->
     Forall (fun ir => is_spectral ir = false) links) /\
  get_earthaccess_links [granule_fmask_only] = Some file_df_fmask_only /\
  run [granule_fmask_only] [] = None.
Proof.
  assert (E : get_earthaccess_links [granule_fmask_only] = Some file_df_fmask_only)
    by (vm_compute; reflexivity).
  assert (H : forall links,
             get_earthaccess_links [granule_fmask_only] = Some links ->
             Forall (fun ir => is_spectral ir = false) links).
  { intros links Hl. rewrite E in Hl. inversion Hl; subst links.
    unfold file_df_fmask_only. repeat constructor. }
  split; [exact H|]. split; [exact E|].
  exact (no_spectral_rows_raises to_crs b_bounds clip_box delta_gdf
           [granule_fmask_only] [] H).
Defined.



Lemma composite_band_order_witness :
  merge_and_composite_arrays merge_arrays reflectance_da_df = Some composite /\
  mapM band_number (sorted_keys row_band String.leb reflectance_da_df)
    = Some (cr_band composite) /\
  NoDup (sorted_keys row_band String.leb reflectance_da_df) /\
  StronglySorted (fun a b => String.leb a b = true)
                 (sorted_keys row_band String.leb reflectance_da_df).
Proof.
  split; [exact composite_eq|].
  destruct (composite_band_order merge_arrays reflectance_da_df composite composite_eq)
    as (H1 & H2 & H3 & _).
  auto.
Defined.

Lemma composite_extent_witness :
  merge_and_composite_arrays merge_arrays reflectance_da_df = Some composite /\
  cr_x composite = [0; 30; 60; 90]%Z /\
  forall x, In x (cr_x composite) <->
            exists m,
              (exists band band_df das,
                 In (band, band_df) (groupby row_band String.leb reflectance_da_df) /\
                 merged_das merge_arrays band_df = Some das /\ In m das) /\
              In x (da_x m).
Proof.
  split; [exact composite_eq|]. split; [reflexivity|].
  exact (proj2 (composite_extent merge_arrays reflectance_da_df composite composite_eq)).
Defined.

Lemma composite_within_range_witness :
  merge_and_composite_arrays merge_arrays reflectance_da_df = Some composite /\
  groupby row_band String.leb reflectance_da_df !! 0%nat = Some ("B04", reflectance_da_df) /\
  exists das,
    merged_das merge_arrays reflectance_da_df = Some das /\
    forall y x m,
      cr_at composite 0 y x = Some m ->
      exists a b,
        In (Some a) (map (fun d => at_coord d y x) das) /\
        In (Some b) (map (fun d => at_coord d y x) das) /\
        (a <= m)%Q /\ (m <= b)%Q.
Proof.
  assert (Hk : groupby row_band String.leb reflectance_da_df !! 0%nat
               = Some ("B04", reflectance_da_df)) by (vm_compute; reflexivity).
  split; [exact composite_eq|]. split; [exact Hk|].
  exact (composite_within_range merge_arrays reflectance_da_df composite 0 "B04"
           reflectance_da_df composite_eq Hk).
Defined.

Lemma tidy_needs_bands_10_11_witness :
  cr_band composite = [4%Z] /\
  (~ In 10%Z (cr_band composite) \/ ~ In 11%Z (cr_band composite)) /\
  tidy composite = None.
Proof.
  assert (H : ~ In 10%Z (cr_band composite) \/ ~ In 11%Z (cr_band composite)).
  { left. simpl. intros [E|[]]. discriminate. }
  split; [reflexivity|]. split; [exact H|].
  exact (tidy_needs_bands_10_11 composite H).
Defined.

(** A table of one date with a visible band and the two thermal bands, on
    a grid of two rows and three columns; in the upper row the second cell
    is missing in band 10 only and the third in band 4 only. *)
Definition band_row (i : nat) (code : string) (cells : list (list pixel))
  : nat * DaRow :=
  (i, {| row := {| datetime := 100; tile_id := "T15RYN"; band := code;
                   url := tile "" [0; 30; 60]%Z []; geometry := footprint_ring |};
         da := {| da_name := Some code; da_crs := 32615;
                  da_y := [30; 0]%Z; da_x := [0; 30; 60]%Z; da_values := cells |} |}).

Definition thermal_df : DataFrame DaRow :=
  [band_row 0 "B04" [[Some (1 # 10); Some (2 # 10); None];
                     [Some (1 # 10); Some (2 # 10); Some (3 # 10)]]%Q;
   band_row 1 "B10" [[Some (3 # 10); None; Some (4 # 10)];
                     [Some (3 # 10); Some (3 # 10); Some (4 # 10)]]%Q;
   band_row 2 "B11" [[Some (5 # 10); Some (6 # 10); Some (7 # 10)];
                     [Some (5 # 10); Some (6 # 10); Some (7 # 10)]]%Q].

Definition thermal_composite : CompositeRaster :=
  Eval vm_compute in
    default (mkComposite "" [] [] [] [])
            (merge_and_composite_arrays merge_arrays thermal_df).

Lemma thermal_composite_eq :
  merge_and_composite_arrays merge_arrays thermal_df = Some thermal_composite.
Proof. vm_compute. reflexivity. Qed.

Lemma thermal_tidy : is_Some (tidy thermal_composite).
Proof. vm_compute. eauto. Qed.

Lemma tidy_rows_witness :
  cr_band thermal_composite = [4; 10; 11]%Z /\
  exists t,
    tidy thermal_composite = Some t /\
    cr_y thermal_composite <> [] /\ cr_x thermal_composite <> [] /\
    (forall b, b ∈ f_columns t <->
               In b (cr_band thermal_composite) /\ b <> 10%Z /\ b <> 11%Z) /\
    (forall y x,
       (y, x) ∈ f_index t <->
       In y (cr_y thermal_composite) /\ In x (cr_x thermal_composite) /\
       forall k b, cr_band thermal_composite !! k = Some b -> b <> 10%Z -> b <> 11%Z ->
                   is_Some (cr_at thermal_composite k y x)).
Proof.
  split; [reflexivity|].
  destruct thermal_tidy as [t Ht]. exists t. split; [exact Ht|].
  assert (Hy : cr_y thermal_composite <> []) by discriminate.
  assert (Hx : cr_x thermal_composite <> []) by discriminate.
  split; [exact Hy|]. split; [exact Hx|].
  destruct (tidy_rows thermal_composite t Ht Hy Hx) as (H1 & _ & H3).
  split; assumption.
Defined.

Lemma tidy_values_positive_witness :
  merge_and_composite_arrays merge_arrays thermal_df = Some thermal_composite /\
  exists t,
    tidy thermal_composite = Some t /\
    forall yx b, yx ∈ f_index t -> b ∈ f_columns t ->
      exists q, f_value t yx b = Some q /\ (0 < q)%Q.
Proof.
  split; [exact thermal_composite_eq|].
  destruct thermal_tidy as [t Ht]. exists t. split; [exact Ht|].
  exact (tidy_values_positive merge_arrays thermal_df thermal_composite t
           thermal_composite_eq Ht).
Defined.

Lemma output_sorted_by_group_witness :
  run results [] =
    Some (reflectance_da_df, [32615; 32615; 32615; 32615; 32615; 32615]%Z) /\
  map (fun idr => granule_key (row (snd idr))) reflectance_da_df =
    [(100%Z, "T15RYN"); (100%Z, "T15RYP"); (200%Z, "T15RYN")] /\
  StronglySorted (fun a b => key_leb a b = true)
                 (map (fun idr => granule_key (row (snd idr))) reflectance_da_df).
Proof.
  split; [exact run_eq|]. split; [reflexivity|].
  exact (output_sorted_by_group to_crs b_bounds clip_box delta_gdf
           results [] reflectance_da_df _ run_eq).
Defined.


End Demo.
